(** * Scalar transport orchestration of swirl_lm: [swirl_lm/equations/scalars.py]

    A shallow embedding of the [Scalars] class (boundary/source registries,
    halo synchronisation adapter, right-hand-side assembly and the
    [prestep] / [prediction_step] / [correction_step] cycle) together with
    the properties of the specification that concern it.

    Modelling conventions.
    - A [FlowFieldVal] is the ordered sequence of the values of one physical
      quantity over the local partition, halo included.  The nest structure
      that [tf.nest.map_structure] compares is the length of that sequence.
    - Cell arithmetic is exact rational arithmetic ([Qc]); the rounding of
      the tensor back end is outside the model, and so are its infinities:
      a quotient by zero is zero in [Qc].
    - A [FlowFieldMap] (a Python dict from names to fields) is a
      [gmap string].
    - Python exceptions are values of [error]; calls into collaborators
      (halo exchange, immersed boundary, turbulence closure, debug hook) are
      recorded in a call log, so that the number and the order of the calls
      can be stated.

    The sampler of the fire example ([swirl_lm/example/fire/fire_uq.py])
    and the lookup-table utilities of the radiation optics
    ([swirl_lm/physics/radiation/optics/optics_utils.py]) are embedded in
    modules of their own, [FireUQ] and [OpticsUtils]. *)

From Stdlib Require Import QArith Qcanon.
From Stdlib Require Qcabs Qround.
From stdpp Require Import gmap strings list fin_maps pretty.

Open Scope string_scope.
Open Scope list_scope.

(* The solvers of stdpp clear hypotheses by name. *)
#[global] Set Warnings "-clear-no-such-hyp".

(** ** Fields and structure-preserving maps *)

Abbreviation FlowFieldVal := (list Qc).
Abbreviation FlowFieldMap := (gmap string FlowFieldVal).

(** Modelled from the spec: the protobuf enumerations [numerics_pb2] and
    [thermodynamics_pb2] are not part of the sources at hand.  The source
    names one time-integration scheme, and "any other requested scheme" is
    an error; the solver mode is "{anelastic, other}". *)
Inductive TimeIntegrationScheme : Type :=
| TIME_SCHEME_CN_EXPLICIT_ITERATION
| TIME_SCHEME_OTHER (number : nat).

#[global] Instance TimeIntegrationScheme_eq_dec : EqDecision TimeIntegrationScheme.
Proof. solve_decision. Defined.

Inductive SolverMode : Type :=
| LOW_MACH
| ANELASTIC.

#[global] Instance SolverMode_eq_dec : EqDecision SolverMode.
Proof. solve_decision. Defined.

(** The exceptions the orchestrator can raise: a failed dict lookup, the
    [ValueError] of an unsupported time scheme, and the structure mismatch
    that [tf.nest.map_structure] reports. *)
Inductive error : Type :=
| KeyError (key : string)
| ValueError (time_scheme : TimeIntegrationScheme)
| StructureMismatch.

Definition result (A : Type) : Type := error + A.

Abbreviation Ok := (@inr error _).
Abbreviation Err := (@inl error _).

(** [d[k]] on a Python dict. *)
Definition getitem {V} (d : gmap string V) (k : string) : result V :=
  match d !! k with
  | Some v => Ok v
  | None => Err (KeyError k)
  end.

(** [tf.nest.map_structure] on one, two, three and seven fields: the
    fields must have the same structure, and the function is applied
    position by position. *)
Definition same_structure (a b : FlowFieldVal) : bool :=
  bool_decide (length a = length b).

Definition map_structure1 (fn : Qc -> Qc) (a : FlowFieldVal) : FlowFieldVal :=
  fn <$> a.

Definition map_structure2 (fn : Qc -> Qc -> Qc) (a b : FlowFieldVal)
  : result FlowFieldVal :=
  if same_structure a b then Ok (zip_with fn a b) else Err StructureMismatch.

(** Applies a sequence of functions to a sequence of arguments, position by
    position: the step from [n] to [n + 1] mapped structures. *)
Definition ap_structure {A B} (fs : list (A -> B)) (xs : list A) : list B :=
  zip_with (fun g x => g x) fs xs.

Definition map_structure3 (fn : Qc -> Qc -> Qc -> Qc) (a b c : FlowFieldVal)
  : result FlowFieldVal :=
  if same_structure a b && same_structure a c
  then Ok (ap_structure (zip_with fn a b) c)
  else Err StructureMismatch.

Definition map_structure7
    (fn : Qc -> Qc -> Qc -> Qc -> Qc -> Qc -> Qc -> Qc)
    (a b c d e f g : FlowFieldVal) : result FlowFieldVal :=
  if same_structure a b && same_structure a c && same_structure a d
     && same_structure a e && same_structure a f && same_structure a g
  then Ok (ap_structure (ap_structure (ap_structure (ap_structure
             (ap_structure (zip_with fn a b) c) d) e) f) g)
  else Err StructureMismatch.

Definition zeros_like (a : FlowFieldVal) : FlowFieldVal :=
  map_structure1 (fun _ => 0%Qc) a.

Definition ones_like (a : FlowFieldVal) : FlowFieldVal :=
  map_structure1 (fun _ => 1%Qc) a.

Definition half : Qc := Q2Qc (1 # 2).

(** Modelled from the spec: [common_ops.average] is not part of the sources
    at hand; the mid-point state is "the arithmetic average of the value in
    [states] and [states0]". *)
Definition average (a b : FlowFieldVal) : result FlowFieldVal :=
  map_structure2 (fun x y => (half * (x + y))%Qc) a b.

(** ** Boundary conditions *)

(** The boundary condition of a variable is, per axis and per face, a pair
    of a kind and a value, as [optics_base.py] builds it for the exchange
    primitive: [[(BCType.NEUMANN, 0.0)] * 2 for _ in range(3)], with a list
    of planes as the value of a [BCType.DIRICHLET] face. *)
Inductive BCType : Type :=
| DIRICHLET
| NEUMANN.

#[global] Instance BCType_eq_dec : EqDecision BCType.
Proof. solve_decision. Defined.

Inductive BCValue : Type :=
| BCConst (v : Qc)
| BCPlanes (f : FlowFieldVal).

(** One face of one axis: [None] stands for a face without an imposed
    condition (periodic or interior to the partition). *)
Abbreviation BCFace := (option (BCType * BCValue)).

(** The boundary condition of one variable: per axis, per face. *)
Abbreviation BCVal := (list (list BCFace)).
Abbreviation BCDict := (gmap string BCVal).

(** ** Collaborator calls and the orchestrator monad *)

Definition ReplicaId : Type := Z.
Definition Replicas : Type := list (list (list Z)).

Inductive event : Type :=
| HaloExchangeCall (f : FlowFieldVal) (bc_f : BCVal)
| IbUpdateForcingCall (states helper_states : FlowFieldMap)
| IbUpdateStatesCall (states : FlowFieldMap)
| SgsCall (sc_mid : FlowFieldVal)
| DbgCall (sc_name : string).

(** A computation yields the log of the collaborator calls it made and
    either an exception or a value. *)
Definition M (A : Type) : Type := list event * result A.

#[global] Instance M_ret : MRet M := fun A a => ([], Ok a).

#[global] Instance M_bind : MBind M := fun A B k m =>
  match m with
  | (l, inl e) => (l, inl e)
  | (l, inr a) => let '(l', r) := k a in (l ++ l', r)
  end.

Definition lift {A} (r : result A) : M A := ([], r).
Definition raise {A} (e : error) : M A := ([], Err e).
Definition call (ev : event) : M unit := ([ev], Ok tt).

Definition calls {A} (m : M A) : list event := fst m.
Definition outcome {A} (m : M A) : result A := snd m.

Fixpoint foldM {A B} (f : B -> A -> M B) (l : list A) (b : B) : M B :=
  match l with
  | [] => mret b
  | a :: l' => b' ← f b a; foldM f l' b'
  end.

(** ** Configuration and collaborators *)

Record ScalarConfig : Type := {
  name : string;
  solve_scalar : bool;
}.

Record SwirlLMParameters : Type := {
  scalars : list ScalarConfig;
  transport_scalars_names : list string;
  bc : BCDict;
  halo_width : nat;
  periodic_dims : list bool;
  dt : Qc;
  solver_mode : SolverMode;
  scalar_time_integration_scheme : string -> TimeIntegrationScheme;
  diffusivity : string -> Qc;
  use_sgs : bool;
}.

Record ImmersedBoundaryMethod : Type := {
  ib_rhs_name : string -> string;
  update_forcing :
    ReplicaId -> Replicas -> FlowFieldMap -> FlowFieldMap -> FlowFieldMap;
  update_states :
    ReplicaId -> Replicas -> FlowFieldMap -> FlowFieldMap -> BCDict ->
    FlowFieldMap;
}.

Record ComponentsDebug : Type := {
  update_scalar_terms :
    string -> FlowFieldMap -> option FlowFieldVal -> FlowFieldMap;
}.

Inductive ScalarModelKind : Type :=
| PotentialTemperature
| Humidity
| TotalEnergy
| ScalarGeneric.

Record ScalarModel : Type := {
  model_kind : ScalarModelKind;
  model_scalar_name : string;
}.

Record Scalars : Type := {
  _params : SwirlLMParameters;
  _halo_dims : list nat;
  _replica_dims : list nat;
  _use_sgs : bool;
  _bc : BCDict;
  _source : gmap string (option FlowFieldVal);
  _ib : option ImmersedBoundaryMethod;
  _dbg : option ComponentsDebug;
  _scalar_model : gmap string ScalarModel;
}.

Definition _KEY_RHO : string := "rho".
Definition _KEY_U : string := "u".
Definition _KEY_V : string := "v".
Definition _KEY_W : string := "w".

(** ['rho_{}'.format(sc_name)] *)
Definition rho_ (sc_name : string) : string := "rho_" +:+ sc_name.

(** ** Boundary-condition keys helper *)

Module BoundaryConditionKeysHelper.
Section helper.
(** The name under which the boundary value of face [face] of axis [dim]
    of variable [varname] is stored in [additional_states]. *)
Variable generate_variable_key : string -> nat -> nat -> string.

(** Modelled from the spec: one face of the rebuilt boundary condition.  A
    face of Dirichlet kind takes the boundary value that
    [additional_states] supplies for it, when there is one (the kind to
    which the docstring of [exchange_scalar_halos] ties the update); any
    other face is kept. *)
Definition refresh_face (additional_states : FlowFieldMap)
    (varname : string) (dim face : nat) (slot : BCFace) : BCFace :=
  match slot with
  | Some (DIRICHLET, _) =>
      match additional_states !! generate_variable_key varname dim face with
      | Some value => Some (DIRICHLET, BCPlanes value)
      | None => slot
      end
  | _ => slot
  end.

(** Modelled from the spec: the rebuilt boundary condition of one variable,
    face by face. *)
Definition refresh_variable (additional_states : FlowFieldMap)
    (varname : string) (bc_val : BCVal) : BCVal :=
  imap (fun dim faces =>
          imap (fun face slot =>
                  refresh_face additional_states varname dim face slot)
               faces)
       bc_val.

(** Modelled from the spec: [physical_variable_keys_manager] is not part
    of the sources at hand.  The boundary conditions are "rebuilt every
    step from [additional_states] via the registry": every registered
    variable keeps its entry, with its faces refreshed from
    [additional_states]; no entry is added or removed. *)
Definition update_helper_variable_from_additional_states
    (additional_states : FlowFieldMap) (halo_width : nat) (bc : BCDict)
  : BCDict :=
  map_imap (fun varname bc_val =>
              Some (refresh_variable additional_states varname bc_val))
           bc.
End helper.
End BoundaryConditionKeysHelper.

(** ** The [Scalars] class *)

(** Collaborators and constants that live outside [scalars.py]: the name
    tables of the closure dispatch, the immersed-boundary factory, the
    ghost-cell exchange primitive, the per-scalar closures (bound to their
    kernel operator, parameters and thermodynamics), the turbulence
    closure, and the two keys helpers. *)
Class Collaborators : Type := {
  POTENTIAL_TEMPERATURE_VARNAME : list string;
  HUMIDITY_VARNAME : list string;
  immersed_boundary_method_factory :
    SwirlLMParameters -> option ImmersedBoundaryMethod;
  inplace_halo_exchange :
    FlowFieldVal -> list nat -> ReplicaId -> Replicas -> list nat ->
    list bool -> BCVal -> nat -> FlowFieldVal;
  convection_fn :
    ScalarModel -> ReplicaId -> Replicas -> FlowFieldVal -> FlowFieldMap ->
    FlowFieldMap -> FlowFieldVal * FlowFieldVal * FlowFieldVal;
  diffusion_fn :
    ScalarModel -> ReplicaId -> Replicas -> FlowFieldVal -> FlowFieldMap ->
    FlowFieldMap -> FlowFieldVal * FlowFieldVal * FlowFieldVal;
  source_fn :
    ScalarModel -> ReplicaId -> Replicas -> FlowFieldVal -> FlowFieldMap ->
    FlowFieldMap -> FlowFieldVal;
  turbulent_diffusivity :
    list FlowFieldVal -> FlowFieldVal * FlowFieldVal * FlowFieldVal ->
    Replicas -> FlowFieldMap -> FlowFieldVal;
  bc_generate_variable_key : string -> nat -> nat -> string;
  (** [SourceKeysHelper.update_helper_variable_from_additional_states] *)
  src_update_helper_variable_from_additional_states :
    FlowFieldMap -> gmap string (option FlowFieldVal);
}.

Section scalars.
Context {env : Collaborators}.

Definition select_scalar_model (scalar_name : string) : ScalarModelKind :=
  if bool_decide (scalar_name ∈ POTENTIAL_TEMPERATURE_VARNAME)
  then PotentialTemperature
  else if bool_decide (scalar_name ∈ HUMIDITY_VARNAME) then Humidity
  else if bool_decide (scalar_name = "e_t") then TotalEnergy
  else ScalarGeneric.

Definition __init__ (params : SwirlLMParameters)
    (ib : option ImmersedBoundaryMethod) (dbg : option ComponentsDebug)
  : Scalars :=
  {| _params := params;
     _halo_dims := [0; 1; 2]%nat;
     _replica_dims := [0; 1; 2]%nat;
     _use_sgs := use_sgs params;
     _bc := filter (fun kv => kv.1 ∈ transport_scalars_names params)
                   (bc params);
     _source :=
       list_to_map
         ((fun sc => (name sc, None)) <$>
            filter (fun sc => solve_scalar sc = true) (scalars params));
     _ib := match ib with
            | Some _ => ib
            | None => immersed_boundary_method_factory params
            end;
     _dbg := dbg;
     _scalar_model :=
       foldl (fun acc scalar_name =>
                <[scalar_name :=
                    {| model_kind := select_scalar_model scalar_name;
                       model_scalar_name := scalar_name |}]> acc)
             ∅ (transport_scalars_names params) |}.

(** The field that the exchange primitive returns for [f] under the
    boundary condition [bc_f], with the run's halo width, periodicity and
    axes: the value of [_exchange_halos], whose call is logged below. *)
Definition exchanged (self : Scalars) (f : FlowFieldVal) (bc_f : BCVal)
    (replica_id : ReplicaId) (replicas : Replicas) : FlowFieldVal :=
  inplace_halo_exchange f (_halo_dims self) replica_id replicas
    (_replica_dims self) (periodic_dims (_params self)) bc_f
    (halo_width (_params self)).

Definition _exchange_halos (self : Scalars) (f : FlowFieldVal)
    (bc_f : BCVal) (replica_id : ReplicaId) (replicas : Replicas)
  : M FlowFieldVal :=
  call (HaloExchangeCall f bc_f);;
  mret (exchanged self f bc_f replica_id replicas).

Definition exchange_scalar_halos (self : Scalars) (f : FlowFieldVal)
    (name : string) (replica_id : ReplicaId) (replicas : Replicas)
  : M FlowFieldVal :=
  let bc := _bc self in
  bc_f ← lift (getitem bc name);
  _exchange_halos self f bc_f replica_id replicas.

(** *** Right-hand-side assembly *)

Definition scalar_transport_equation
    (conv_x conv_y conv_z diff_x diff_y diff_z src : Qc) : Qc :=
  (- (conv_x + conv_y + conv_z) + (diff_x + diff_y + diff_z) + src)%Qc.

(** The field that [tf.nest.map_structure] builds from
    [scalar_transport_equation] and seven fields of one shape: the
    right-hand side before any immersed-boundary correction. *)
Definition tentative_rhs
    (conv_x conv_y conv_z diff_x diff_y diff_z source_all : FlowFieldVal)
  : FlowFieldVal :=
  ap_structure (ap_structure (ap_structure (ap_structure (ap_structure
    (zip_with scalar_transport_equation conv_x conv_y) conv_z) diff_x)
    diff_y) diff_z) source_all.

(** What [scalar_function] returns: the dict of the seven intermediate
    terms in debug mode, the right-hand side otherwise. *)
Definition rhs_type (dbg : bool) : Type :=
  if dbg then FlowFieldMap else FlowFieldVal.

(** The first statement of [_scalar_update] (lines 200-204): the external
    source of a scalar is the registered field, or zeros shaped like the
    density when the registry holds [None]. *)
Definition external_source (self : Scalars) (scalar_name : string)
    (states : FlowFieldMap) : result FlowFieldVal :=
  match getitem (_source self) scalar_name with
  | inl e => Err e
  | inr (Some source) => Ok source
  | inr None =>
      match getitem states _KEY_RHO with
      | inl e => Err e
      | inr rho => Ok (zeros_like rho)
      end
  end.

(** The helper states that [scalar_function] hands to [update_forcing]
    (lines 261-266): the tentative right-hand side under [rhs_name], and the
    two masks when [additional_states] has them. *)
Definition ib_helper_states (rhs_name : string) (rhs : FlowFieldVal)
    (additional_states : FlowFieldMap) : FlowFieldMap :=
  foldl (fun helper_states helper_var_name =>
           match additional_states !! helper_var_name with
           | Some v => <[helper_var_name := v]> helper_states
           | None => helper_states
           end)
        {[ rhs_name := rhs ]} ["ib_interior_mask"; "ib_boundary"].

(** The function that [_scalar_update] returns (lines 206-276), with the
    variables it captures as arguments. *)
Definition scalar_function (self : Scalars) (replica_id : ReplicaId)
    (replicas : Replicas) (scalar_name : string)
    (states additional_states : FlowFieldMap) (source : FlowFieldVal)
    (dbg : bool) (phi : FlowFieldVal) : M (rhs_type dbg) :=
  model ← lift (getitem (_scalar_model self) scalar_name);
  let conv :=
    convection_fn model replica_id replicas phi states additional_states in
  let diff :=
    diffusion_fn model replica_id replicas phi states additional_states in
  let source_additional :=
    source_fn model replica_id replicas phi states additional_states in
  source_all ← lift (map_structure2 Qcplus source source_additional);
  match dbg return M (rhs_type dbg) with
  | true =>
      mret (<["conv_x" := conv.1.1]> (<["conv_y" := conv.1.2]>
           (<["conv_z" := conv.2]> (<["diff_x" := diff.1.1]>
           (<["diff_y" := diff.1.2]> (<["diff_z" := diff.2]>
           (<["source" := source_all]> (∅ : FlowFieldMap))))))))
  | false =>
      rhs ← lift (map_structure7 scalar_transport_equation
                    conv.1.1 conv.1.2 conv.2 diff.1.1 diff.1.2 diff.2
                    source_all);
      match _ib self with
      | Some ib =>
          let rho_sc_name := rho_ scalar_name in
          let rhs_name := ib_rhs_name ib rho_sc_name in
          let helper_states :=
            ib_helper_states rhs_name rhs additional_states in
          rho ← lift (getitem states _KEY_RHO);
          rho_phi ← lift (map_structure2 Qcmult rho phi);
          let ib_states : FlowFieldMap := {[ rho_sc_name := rho_phi ]} in
          call (IbUpdateForcingCall ib_states helper_states);;
          let rhs_ib_updated :=
            update_forcing ib replica_id replicas ib_states helper_states in
          lift (getitem rhs_ib_updated rhs_name)
      | None => mret rhs
      end
  end.

Definition _scalar_update (self : Scalars) (replica_id : ReplicaId)
    (replicas : Replicas) (scalar_name : string)
    (states additional_states : FlowFieldMap) (dbg : bool)
  : M (FlowFieldVal -> M (rhs_type dbg)) :=
  source ← lift (external_source self scalar_name states);
  mret (scalar_function self replica_id replicas scalar_name states
          additional_states source dbg).

(** *** The step functions *)

(** [prestep] returns nothing and replaces the two registries of the
    object; here it returns the object it leaves. *)
Definition prestep (self : Scalars) (replica_id : ReplicaId)
    (replicas : Replicas) (additional_states : FlowFieldMap) : Scalars :=
  {| _params := _params self;
     _halo_dims := _halo_dims self;
     _replica_dims := _replica_dims self;
     _use_sgs := _use_sgs self;
     _bc :=
       BoundaryConditionKeysHelper.update_helper_variable_from_additional_states
         bc_generate_variable_key additional_states
         (halo_width (_params self)) (_bc self);
     _source :=
       src_update_helper_variable_from_additional_states additional_states
         ∪ _source self;
     _ib := _ib self;
     _dbg := _dbg self;
     _scalar_model := _scalar_model self |}.

(** The function nested in the loop of [prediction_step] (lines 367-391),
    with the variables it captures as arguments. *)
Definition time_advance_cn_explicit (self : Scalars)
    (replica_id : ReplicaId) (replicas : Replicas)
    (states states_0 : FlowFieldMap) (rhs : FlowFieldVal)
    (sc_name : string) : M FlowFieldMap :=
  let dt := dt (_params self) in
  if bool_decide (solver_mode (_params self) = ANELASTIC) then
    rho ← lift (getitem states _KEY_RHO);
    let alpha := map_structure1 Qcinv rho in
    sc_0 ← lift (getitem states_0 sc_name);
    new_sc ← lift (map_structure3 (fun sc b a => (sc + dt * b * a)%Qc)
                     sc_0 rhs alpha);
    new_sc ← exchange_scalar_halos self new_sc sc_name replica_id replicas;
    mret ({[ sc_name := new_sc ]} : FlowFieldMap)
  else
    rho_sc_0 ← lift (getitem states_0 (rho_ sc_name));
    new_sc ← lift (map_structure2 (fun a b => (a + dt * b)%Qc) rho_sc_0 rhs);
    let updated_vars : FlowFieldMap := {[ rho_ sc_name := new_sc ]} in
    rho_sc ← lift (getitem updated_vars (rho_ sc_name));
    rho ← lift (getitem states _KEY_RHO);
    sc ← lift (map_structure2 Qcdiv rho_sc rho);
    sc ← exchange_scalar_halos self sc sc_name replica_id replicas;
    mret (<[sc_name := sc]> updated_vars).

(** The mid-point states of [prediction_step] (lines 335-345): a copy of
    [states] in which the density, the thermal density and every
    transported scalar are replaced by their average with the previous
    step. *)
Definition mid_point_states (self : Scalars)
    (states states_0 : FlowFieldMap) : M FlowFieldMap :=
  let states_mid := states in
  rho ← lift (getitem states _KEY_RHO);
  rho_0 ← lift (getitem states_0 _KEY_RHO);
  rho_mid ← lift (average rho rho_0);
  let states_mid := <[_KEY_RHO := rho_mid]> states_mid in
  rho_thermal ← lift (getitem states "rho_thermal");
  rho_thermal_0 ← lift (getitem states_0 "rho_thermal");
  rho_thermal_mid ← lift (average rho_thermal rho_thermal_0);
  let states_mid := <["rho_thermal" := rho_thermal_mid]> states_mid in
  foldM (fun states_mid sc_name =>
           sc ← lift (getitem states sc_name);
           sc_0 ← lift (getitem states_0 sc_name);
           sc_mid ← lift (average sc sc_0);
           mret (<[sc_name := sc_mid]> states_mid))
        (transport_scalars_names (_params self)) states_mid.

(** The diffusivity handed to the closure (lines 350-361), with the
    turbulent part [diff_t] when the sub-grid-scale model is in use. *)
Definition scalar_diffusivity (self : Scalars) (replicas : Replicas)
    (states additional_states : FlowFieldMap) (sc_name : string)
    (sc_mid : FlowFieldVal) : M (FlowFieldVal * option FlowFieldVal) :=
  if _use_sgs self then
    u ← lift (getitem states _KEY_U);
    v ← lift (getitem states _KEY_V);
    w ← lift (getitem states _KEY_W);
    call (SgsCall sc_mid);;
    let diff_t :=
      turbulent_diffusivity [sc_mid] (u, v, w) replicas additional_states in
    mret (map_structure1
            (fun diff_t_i => (diffusivity (_params self) sc_name + diff_t_i)%Qc)
            diff_t,
          Some diff_t)
  else
    mret (map_structure1
            (fun sc => (diffusivity (_params self) sc_name * 1)%Qc) sc_mid,
          None).

(** The body of the loop of [prediction_step] over the transported
    scalars (lines 349-410); [updated_scalars] is the dict the loop
    fills. *)
Definition prediction_step_scalar (self : Scalars)
    (replica_id : ReplicaId) (replicas : Replicas)
    (states states_0 additional_states states_mid : FlowFieldMap)
    (updated_scalars : FlowFieldMap) (sc_name : string) : M FlowFieldMap :=
  sc_mid ← lift (getitem states_mid sc_name);
  '(diffusivity, diff_t) ←
    scalar_diffusivity self replicas states additional_states sc_name sc_mid;
  let helper_states : FlowFieldMap :=
    additional_states ∪ {[ "diffusivity" := diffusivity ]} in
  scalar_rhs_fn ← _scalar_update self replica_id replicas sc_name states_mid
                    helper_states false;
  let time_scheme :=
    scalar_time_integration_scheme (_params self) sc_name in
  updated_scalars ←
    (if bool_decide (time_scheme = TIME_SCHEME_CN_EXPLICIT_ITERATION) then
       rhs ← scalar_rhs_fn sc_mid;
       updated_vars ← time_advance_cn_explicit self replica_id replicas
                        states states_0 rhs sc_name;
       mret (updated_vars ∪ updated_scalars)
     else raise (ValueError time_scheme));
  match _dbg self with
  | Some dbg =>
      terms_fn ← _scalar_update self replica_id replicas sc_name states_mid
                   helper_states true;
      terms ← terms_fn sc_mid;
      call (DbgCall sc_name);;
      mret (update_scalar_terms dbg sc_name terms diff_t ∪ updated_scalars)
  | None => mret updated_scalars
  end.

Definition prediction_step (self : Scalars) (replica_id : ReplicaId)
    (replicas : Replicas) (states states_0 additional_states : FlowFieldMap)
  : M FlowFieldMap :=
  states_mid ← mid_point_states self states states_0;
  updated_scalars ←
    foldM (prediction_step_scalar self replica_id replicas states states_0
             additional_states states_mid)
          (transport_scalars_names (_params self)) ∅;
  match _ib self with
  | Some ib =>
      call (IbUpdateStatesCall updated_scalars);;
      mret (update_states ib replica_id replicas updated_scalars
              additional_states (_bc self))
  | None => mret updated_scalars
  end.

(** The body of the loop of [correction_step] (lines 452-464). *)
Definition correction_step_scalar (self : Scalars)
    (replica_id : ReplicaId) (replicas : Replicas)
    (states additional_states : FlowFieldMap)
    (scalars : FlowFieldMap) (sc_name : string) : M FlowFieldMap :=
  rho_sc ← lift (getitem states (rho_ sc_name));
  rho ← lift (getitem states _KEY_RHO);
  sc_buf ← lift (map_structure2 Qcdiv rho_sc rho);
  sc_buf ←
    match _ib self with
    | Some ib =>
        let ib_states : FlowFieldMap := {[ sc_name := sc_buf ]} in
        call (IbUpdateStatesCall ib_states);;
        lift (getitem (update_states ib replica_id replicas ib_states
                         additional_states (_bc self)) sc_name)
    | None => mret sc_buf
    end;
  sc ← exchange_scalar_halos self sc_buf sc_name replica_id replicas;
  mret (<[sc_name := sc]> scalars).

Definition correction_step (self : Scalars) (replica_id : ReplicaId)
    (replicas : Replicas) (states states_0 additional_states : FlowFieldMap)
  : M FlowFieldMap :=
  foldM (correction_step_scalar self replica_id replicas states
           additional_states)
        (transport_scalars_names (_params self)) ∅.

End scalars.

(** ** A one-axis, one-replica instance *)

Module Example.

(** Modelled from the spec: the condition of face [face] of axis [dim] in
    the boundary condition of a variable. *)
Definition bc_face_at (bc_f : BCVal) (dim face : nat) : BCFace :=
  match bc_f !! dim with
  | Some faces => default None (faces !! face)
  | None => None
  end.

(** Modelled from the spec: the value that a face condition puts in the
    [i]-th halo cell of the face; only a Dirichlet condition imposes
    one. *)
Definition imposed (slot : BCFace) (i : nat) (old : Qc) : Qc :=
  match slot with
  | Some (DIRICHLET, BCConst v) => v
  | Some (DIRICHLET, BCPlanes planes) => default old (planes !! i)
  | _ => old
  end.

(** Modelled from the spec: the ghost-cell exchange primitive is an
    external collaborator.  It "must return a field of identical shape
    with the outer [haloWidth] layers on each face replaced per
    [boundaryConditions]".  This instance has one axis and one replica:
    the [width] outermost cells of each end take the Dirichlet value of
    the face; faces of another kind, and the interior, are left as they
    are. *)
Definition halo_exchange_1d (f : FlowFieldVal) (halo_dims : list nat)
    (replica_id : ReplicaId) (replicas : Replicas)
    (replica_dims : list nat) (periodic : list bool) (bc_f : BCVal)
    (width : nat) : FlowFieldVal :=
  imap (fun i x =>
          if bool_decide (i < width)%nat
          then imposed (bc_face_at bc_f 0 0) i x
          else if bool_decide (length f - width ≤ i)%nat
               then imposed (bc_face_at bc_f 0 1) (i - (length f - width)) x
               else x)
       f.

(** Collaborators for the instance: no convection, no diffusion, a unit
    source in the closure, no turbulent diffusivity, no immersed boundary
    unless one is passed to the constructor. *)
#[export] Instance stub : Collaborators := {|
  POTENTIAL_TEMPERATURE_VARNAME := ["theta"; "theta_li"];
  HUMIDITY_VARNAME := ["q_t"];
  immersed_boundary_method_factory := fun _ => None;
  inplace_halo_exchange := halo_exchange_1d;
  convection_fn := fun _ _ _ phi _ _ =>
    (zeros_like phi, zeros_like phi, zeros_like phi);
  diffusion_fn := fun _ _ _ phi _ _ =>
    (zeros_like phi, zeros_like phi, zeros_like phi);
  source_fn := fun _ _ _ phi _ _ => ones_like phi;
  turbulent_diffusivity := fun _ uvw _ _ => zeros_like uvw.1.1;
  bc_generate_variable_key := fun varname dim face =>
    "bc_" +:+ varname +:+ "_" +:+ pretty dim +:+ "_" +:+ pretty face;
  src_update_helper_variable_from_additional_states := fun additional_states =>
    match additional_states !! "src_T" with
    | Some f => {[ "T" := Some f ]}
    | None => ∅
    end;
|}.

Abbreviation CN := TIME_SCHEME_CN_EXPLICIT_ITERATION.

Definition q (n : Z) : Qc := Q2Qc (inject_Z n).

Definition dirichlet (v : Z) : BCFace := Some (DIRICHLET, BCConst (q v)).

(** One transported scalar [T] with Dirichlet value 300 on both ends of
    the axis, a halo of width one, and a time step of one half. *)
Definition params (mode : SolverMode) (scheme : TimeIntegrationScheme)
  : SwirlLMParameters :=
  {| scalars := [ {| name := "T"; solve_scalar := true |} ];
     transport_scalars_names := ["T"];
     bc := {[ "T" := [[dirichlet 300; dirichlet 300]; [None; None]; [None; None]] ]};
     halo_width := 1;
     periodic_dims := [false; false; false];
     dt := Q2Qc (1 # 2);
     solver_mode := mode;
     scalar_time_integration_scheme := fun _ => scheme;
     diffusivity := fun _ => Q2Qc (1 # 100);
     use_sgs := false |}.

Definition field (l : list Z) : FlowFieldVal := q <$> l.

Definition states : FlowFieldMap :=
  {[ "rho" := field [1; 2; 2; 1]%Z;
     "rho_thermal" := field [1; 2; 2; 1]%Z;
     "u" := field [0; 0; 0; 0]%Z;
     "v" := field [0; 0; 0; 0]%Z;
     "w" := field [0; 0; 0; 0]%Z;
     "T" := field [300; 3; 3; 300]%Z;
     "rho_T" := field [300; 6; 6; 300]%Z ]}.

Definition replicas : Replicas := [[[0%Z]]].

Definition scalars_obj (mode : SolverMode) (scheme : TimeIntegrationScheme)
    (ib : option ImmersedBoundaryMethod) (dbg : option ComponentsDebug)
  : Scalars :=
  __init__ (params mode scheme) ib dbg.

(** An immersed-boundary stub that returns what it is given. *)
Definition ib_stub : ImmersedBoundaryMethod :=
  {| ib_rhs_name := fun varname => "ib_rhs_" +:+ varname;
     update_forcing := fun _ _ _ helper_states => helper_states;
     update_states := fun _ _ fields _ _ => fields |}.

(** A debug hook that reports the convection term along the first axis. *)
Definition dbg_stub : ComponentsDebug :=
  {| update_scalar_terms := fun sc_name terms _ =>
       match terms !! "conv_x" with
       | Some f => {[ "dbg_" +:+ sc_name +:+ "_conv_x" := f ]}
       | None => ∅
       end |}.

(** Two transported scalars, [T] and [Y], with the boundary conditions
    [bc_dict] and the time scheme [scheme_Y] for [Y]; [T] is advanced with
    the Crank-Nicolson scheme. *)
Definition params_two (bc_dict : BCDict) (scheme_Y : TimeIntegrationScheme)
  : SwirlLMParameters :=
  {| scalars := [ {| name := "T"; solve_scalar := true |};
                  {| name := "Y"; solve_scalar := true |} ];
     transport_scalars_names := ["T"; "Y"];
     bc := bc_dict;
     halo_width := 1;
     periodic_dims := [false; false; false];
     dt := Q2Qc (1 # 2);
     solver_mode := LOW_MACH;
     scalar_time_integration_scheme := fun sc_name =>
       if bool_decide (sc_name = "Y") then scheme_Y else CN;
     diffusivity := fun _ => Q2Qc (1 # 100);
     use_sgs := false |}.

(** Boundary conditions for [T] alone, and for [T] and [Y]. *)
Definition bc_T : BCDict :=
  {[ "T" := [[dirichlet 300; dirichlet 300]; [None; None]; [None; None]] ]}.

Definition bc_T_Y : BCDict :=
  <["Y" := [[dirichlet 0; dirichlet 0]; [None; None]; [None; None]]]> bc_T.

Definition states_two : FlowFieldMap :=
  <["Y" := field [0; 1; 1; 0]%Z]>
    (<["rho_Y" := field [0; 2; 2; 0]%Z]> states).

(** Two transported scalars of which the second is named like the
    conservative variable of the first. *)
Definition params_clash : SwirlLMParameters :=
  {| scalars := [ {| name := "T"; solve_scalar := true |};
                  {| name := "rho_T"; solve_scalar := true |} ];
     transport_scalars_names := ["T"; "rho_T"];
     bc := <["rho_T" := [[dirichlet 0; dirichlet 0]; [None; None];
                         [None; None]]]> bc_T;
     halo_width := 1;
     periodic_dims := [false; false; false];
     dt := Q2Qc (1 # 2);
     solver_mode := LOW_MACH;
     scalar_time_integration_scheme := fun _ => CN;
     diffusivity := fun _ => Q2Qc (1 # 100);
     use_sgs := false |}.

Definition states_clash : FlowFieldMap :=
  <["rho_rho_T" := field [0; 4; 4; 0]%Z]> states.

(** An immersed-boundary corrector that sets the scalar [T] to zero and
    leaves everything else as it is. *)
Definition ib_clobber : ImmersedBoundaryMethod :=
  {| ib_rhs_name := fun varname => "ib_rhs_" +:+ varname;
     update_forcing := fun _ _ _ helper_states => helper_states;
     update_states := fun _ _ fields _ _ =>
       match fields !! "T" with
       | Some f => <["T" := zeros_like f]> fields
       | None => fields
       end |}.

(** A debug hook that reports the source term under the name of the
    scalar. *)
Definition dbg_clobber : ComponentsDebug :=
  {| update_scalar_terms := fun sc_name terms _ =>
       match terms !! "source" with
       | Some f => {[ sc_name := f ]}
       | None => ∅
       end |}.

(** Collaborators whose closures return terms that differ from one another:
    the convection terms are [phi], one and zero, the diffusion terms
    zero, [2 * phi] and one, and the source of the closure is one. *)
Definition closures : Collaborators := {|
  POTENTIAL_TEMPERATURE_VARNAME := ["theta"; "theta_li"];
  HUMIDITY_VARNAME := ["q_t"];
  immersed_boundary_method_factory := fun _ => None;
  inplace_halo_exchange := halo_exchange_1d;
  convection_fn := fun _ _ _ phi _ _ => (phi, ones_like phi, zeros_like phi);
  diffusion_fn := fun _ _ _ phi _ _ =>
    (zeros_like phi, map_structure1 (fun x => (2 * x)%Qc) phi, ones_like phi);
  source_fn := fun _ _ _ phi _ _ => ones_like phi;
  turbulent_diffusivity := fun _ uvw _ _ => zeros_like uvw.1.1;
  bc_generate_variable_key := fun varname dim face =>
    "bc_" +:+ varname +:+ "_" +:+ pretty dim +:+ "_" +:+ pretty face;
  src_update_helper_variable_from_additional_states := fun additional_states =>
    match additional_states !! "src_T" with
    | Some f => {[ "T" := Some f ]}
    | None => ∅
    end;
|}.

(** The object for [T] after a [prestep] that registers an external source
    for it, with the collaborators [closures]. *)
Definition scalars_obj_with_source : Scalars :=
  @prestep closures (@__init__ closures (params LOW_MACH CN) None None) 0%Z
    replicas {[ "src_T" := field [10; 20; 30; 40]%Z ]}.

End Example.

(** ** Life cycle of the orchestrator *)

(** The objects a run can hold: the one the constructor builds from the
    parameters, and every object a [prestep] call leaves behind. *)
Inductive reachable {env : Collaborators} (params : SwirlLMParameters)
    (ib : option ImmersedBoundaryMethod) (dbg : option ComponentsDebug)
  : Scalars -> Prop :=
| reachable_init : reachable params ib dbg (__init__ params ib dbg)
| reachable_prestep self replica_id replicas additional_states :
    reachable params ib dbg self ->
    reachable params ib dbg
      (prestep self replica_id replicas additional_states).

(** ** Reading the call log *)

(** The calls to the state-correction operation of the immersed-boundary
    corrector ([update_states]). *)
Definition is_update_states (ev : event) : bool :=
  match ev with
  | IbUpdateStatesCall _ => true
  | _ => false
  end.

(** The calls that hand a field to the ghost-cell exchange primitive. *)
Definition is_halo_exchange (ev : event) : bool :=
  match ev with
  | HaloExchangeCall _ _ => true
  | _ => false
  end.

(** The calls that produce a new value of a transported field: an exchange
    or an immersed-boundary correction of the states. *)
Definition updates_field (ev : event) : bool :=
  is_update_states ev || is_halo_exchange ev.

(** Every call of the computation [m] satisfies [P]. *)
Definition calls_satisfy {A} (P : event -> Prop) (m : M A) : Prop :=
  Forall P (calls m).

(** ** Valid inputs of a step *)

(** The dict [m] holds under [k] a field of [n] cells. *)
Definition has_field (m : FlowFieldMap) (k : string) (n : nat) : Prop :=
  ∃ f, m !! k = Some f ∧ length f = n.

(** The collaborators return fields shaped like the scalar they are given
    ("all shaped like [phi]"). *)
Record shape_preserving {env : Collaborators} : Prop := {
  convection_shape model replica_id replicas phi states helper_states :
    let conv := convection_fn model replica_id replicas phi states
                  helper_states in
    length conv.1.1 = length phi ∧ length conv.1.2 = length phi ∧
    length conv.2 = length phi;
  diffusion_shape model replica_id replicas phi states helper_states :
    let diff := diffusion_fn model replica_id replicas phi states
                  helper_states in
    length diff.1.1 = length phi ∧ length diff.1.2 = length phi ∧
    length diff.2 = length phi;
  source_shape model replica_id replicas phi states helper_states :
    length (source_fn model replica_id replicas phi states helper_states) =
    length phi;
}.

(** What a step requires of its arguments and of the object: the state maps
    hold the density, the thermal density, the velocity components (when
    the sub-grid-scale model reads them) and, for every transported scalar,
    its primitive and (outside anelastic mode) conservative fields, all of
    [n] cells; the registries and the closure table have an entry for every
    transported scalar; the immersed-boundary corrector, when there is one,
    returns the corrected right-hand side, of [n] cells, under the name it
    announced, when it is handed what the step hands it: the conservative
    variable of a transported scalar, of [n] cells, and the helper states
    that [scalar_function] builds from a tentative right-hand side of [n]
    cells and the additional states of the step with their diffusivity. *)
Record valid_inputs {env : Collaborators} (self : Scalars)
    (replica_id : ReplicaId) (replicas : Replicas)
    (states states_0 additional_states : FlowFieldMap) (n : nat) : Prop := {
  valid_rho : has_field states _KEY_RHO n;
  valid_rho_0 : has_field states_0 _KEY_RHO n;
  valid_rho_thermal : has_field states "rho_thermal" n;
  valid_rho_thermal_0 : has_field states_0 "rho_thermal" n;
  valid_velocity :
    _use_sgs self = true ->
    is_Some (states !! _KEY_U) ∧ is_Some (states !! _KEY_V) ∧
    is_Some (states !! _KEY_W);
  valid_scalars sc_name :
    sc_name ∈ transport_scalars_names (_params self) ->
    has_field states sc_name n ∧ has_field states_0 sc_name n ∧
    (solver_mode (_params self) ≠ ANELASTIC ->
     has_field states_0 (rho_ sc_name) n);
  valid_bc sc_name :
    sc_name ∈ transport_scalars_names (_params self) ->
    is_Some (_bc self !! sc_name);
  valid_source sc_name :
    sc_name ∈ transport_scalars_names (_params self) ->
    ∃ src, _source self !! sc_name = Some src ∧
           ∀ f, src = Some f -> length f = n;
  valid_model sc_name :
    sc_name ∈ transport_scalars_names (_params self) ->
    is_Some (_scalar_model self !! sc_name);
  valid_shapes : shape_preserving;
  valid_ib ib sc_name (rho_phi rhs diffusivity : FlowFieldVal) :
    _ib self = Some ib ->
    sc_name ∈ transport_scalars_names (_params self) ->
    length rho_phi = n -> length rhs = n ->
    has_field
      (update_forcing ib replica_id replicas {[ rho_ sc_name := rho_phi ]}
         (ib_helper_states (ib_rhs_name ib (rho_ sc_name)) rhs
            (additional_states ∪ {[ "diffusivity" := diffusivity ]})))
      (ib_rhs_name ib (rho_ sc_name)) n;
}.

(** ** What the steps return *)

(** The keys that the time advance of one scalar writes. *)
Definition advanced_keys (self : Scalars) (sc_name : string) : gset string :=
  if bool_decide (solver_mode (_params self) = ANELASTIC)
  then {[ sc_name ]}
  else {[ sc_name; rho_ sc_name ]}.

(** No transported scalar bears the name of the conservative variable of
    another one. *)
Definition separated_names (names : list string) : Prop :=
  ∀ a b, a ∈ names -> b ∈ names -> a ≠ rho_ b.

(** Two values agree within the tolerance [tol]. *)
Definition within_tolerance (tol a b : Qc) : Prop :=
  (- tol <= a - b)%Qc ∧ (a - b <= tol)%Qc.

(** ** The order of the collaborator calls *)

Inductive call_kind : Type :=
| HALO_EXCHANGE
| IB_UPDATE_FORCING
| IB_UPDATE_STATES
| SGS
| DBG.

Definition kind_of (ev : event) : call_kind :=
  match ev with
  | HaloExchangeCall _ _ => HALO_EXCHANGE
  | IbUpdateForcingCall _ _ => IB_UPDATE_FORCING
  | IbUpdateStatesCall _ => IB_UPDATE_STATES
  | SgsCall _ => SGS
  | DbgCall _ => DBG
  end.

(** An optional collaborator is configured ([x is not None]). *)
Definition configured {A} (x : option A) : bool :=
  match x with
  | Some _ => true
  | None => false
  end.

(** The kinds of the calls that one iteration of the loop of
    [prediction_step] makes, read off lines 349-410: the turbulence closure
    when the sub-grid-scale model is in use, the forcing of the immersed
    boundary when there is one, the halo exchange, the debug hook when one
    is attached. *)
Definition prediction_scalar_kinds (self : Scalars) : list call_kind :=
  (if _use_sgs self then [SGS] else []) ++
  (if configured (_ib self) then [IB_UPDATE_FORCING] else []) ++
  [HALO_EXCHANGE] ++
  (if configured (_dbg self) then [DBG] else []).

Definition prediction_step_kinds (self : Scalars) : list call_kind :=
  concat ((fun _ => prediction_scalar_kinds self) <$>
            transport_scalars_names (_params self)) ++
  (if configured (_ib self) then [IB_UPDATE_STATES] else []).

(** The kinds of the calls of one iteration of the loop of
    [correction_step] (lines 452-464). *)
Definition correction_scalar_kinds (self : Scalars) : list call_kind :=
  (if configured (_ib self) then [IB_UPDATE_STATES] else []) ++ [HALO_EXCHANGE].

Definition correction_step_kinds (self : Scalars) : list call_kind :=
  concat ((fun _ => correction_scalar_kinds self) <$>
            transport_scalars_names (_params self)).

(** What [correction_step] requires for the scalar [sc_name]: the
    conservative variable and the density in [states], of one shape, a
    registered boundary condition, and a corrector, when there is one, that
    returns the scalar it is given. *)
Definition correctable {env : Collaborators} (self : Scalars)
    (replica_id : ReplicaId) (replicas : Replicas)
    (states additional_states : FlowFieldMap) (sc_name : string) : Prop :=
  ∃ rho_sc rho,
    states !! rho_ sc_name = Some rho_sc ∧
    states !! _KEY_RHO = Some rho ∧
    length rho_sc = length rho ∧
    is_Some (_bc self !! sc_name) ∧
    ∀ ib, _ib self = Some ib ->
      is_Some (update_states ib replica_id replicas
                 {[ sc_name := zip_with Qcdiv rho_sc rho ]} additional_states
                 (_bc self) !! sc_name).

(** ** What the loop of the prediction step does for one scalar *)

(** [rhs] is what the loop of [prediction_step] obtains for the scalar
    [sc_name] from the function that [_scalar_update] returns (lines
    349-365, 394-396 and 405-408): the function is built for the mid-point
    states, with the diffusivity of the scalar among the helper states, and
    evaluated at the mid-point value of the scalar.  With [dbg = false] it
    is the right-hand side, with [dbg = true] the dict of its terms;
    [diff_t] is the turbulent diffusivity of the iteration. *)
Definition mid_point_rhs {env : Collaborators} (self : Scalars)
    (replica_id : ReplicaId) (replicas : Replicas)
    (states additional_states states_mid : FlowFieldMap) (sc_name : string)
    (dbg : bool) (diff_t : option FlowFieldVal) (rhs : rhs_type dbg) : Prop :=
  ∃ sc_mid l_sgs diffusivity l_fn scalar_rhs_fn l_rhs,
    states_mid !! sc_name = Some sc_mid ∧
    scalar_diffusivity self replicas states additional_states sc_name sc_mid =
      (l_sgs, Ok (diffusivity, diff_t)) ∧
    _scalar_update self replica_id replicas sc_name states_mid
      (additional_states ∪ {[ "diffusivity" := diffusivity ]}) dbg =
      (l_fn, Ok scalar_rhs_fn) ∧
    scalar_rhs_fn sc_mid = (l_rhs, Ok rhs).

(** [terms] is what the debug hook contributes to the iteration of
    [sc_name] (lines 404-410): the dict it makes of the terms of the
    right-hand side, and nothing when no hook is attached. *)
Definition debug_terms {env : Collaborators} (self : Scalars)
    (replica_id : ReplicaId) (replicas : Replicas)
    (states additional_states states_mid : FlowFieldMap) (sc_name : string)
    (terms : FlowFieldMap) : Prop :=
  match _dbg self with
  | Some dbg =>
      ∃ diff_t rhs_terms,
        mid_point_rhs self replica_id replicas states additional_states
          states_mid sc_name true diff_t rhs_terms ∧
        terms = update_scalar_terms dbg sc_name rhs_terms diff_t
  | None => terms = ∅
  end.

(** One iteration of the loop of [prediction_step], for the scalar
    [sc_name]: the time advance of the scalar from its mid-point
    right-hand side makes the one exchange [run.1.1] and returns the
    variables [run.1.2]; the debug hook contributes the terms [run.2]. *)
Definition iteration {env : Collaborators} (self : Scalars)
    (replica_id : ReplicaId) (replicas : Replicas)
    (states states_0 additional_states states_mid : FlowFieldMap)
    (sc_name : string) (run : event * FlowFieldMap * FlowFieldMap) : Prop :=
  (∃ diff_t rhs,
     mid_point_rhs self replica_id replicas states additional_states
       states_mid sc_name false diff_t rhs ∧
     time_advance_cn_explicit self replica_id replicas states states_0 rhs
       sc_name = ([run.1.1], Ok run.1.2)) ∧
  debug_terms self replica_id replicas states additional_states states_mid
    sc_name run.2.

(** The dict that the loop has filled after the iterations [runs], from
    the dict [updated_scalars]: each iteration puts its variables, and then
    its debug terms, on top of what is there ([dict.update], lines 394-396
    and 409). *)
Definition updated_by (runs : list (event * FlowFieldMap * FlowFieldMap))
    (updated_scalars : FlowFieldMap) : FlowFieldMap :=
  foldl (fun updated_scalars run => run.2 ∪ (run.1.2 ∪ updated_scalars))
        updated_scalars runs.

(** The debug hook, when there is one, writes under names of its own:
    never under the name of a transported scalar or of the conservative
    variable of one. *)
Definition debug_keys_apart (self : Scalars) : Prop :=
  ∀ dbg sc_name rhs_terms diff_t s,
    _dbg self = Some dbg ->
    s ∈ transport_scalars_names (_params self) ->
    dom (update_scalar_terms dbg sc_name rhs_terms diff_t) ##
    advanced_keys self s.

(** Modelled from the spec: the exchange primitive "must return a field of
    identical shape with the outer [haloWidth] layers on each face replaced
    per [boundaryConditions]".  The cell [i] of a field of [n] cells is
    outside those layers: whatever the field and the boundary condition,
    the primitive, called as [_exchange_halos] calls it, returns at [i] the
    value it is given there. *)
Definition kept_by_exchange {env : Collaborators} (self : Scalars)
    (replica_id : ReplicaId) (replicas : Replicas) (n i : nat) : Prop :=
  ∀ (f : FlowFieldVal) (bc_f : BCVal),
    length f = n ->
    inplace_halo_exchange f (_halo_dims self) replica_id replicas
      (_replica_dims self) (periodic_dims (_params self)) bc_f
      (halo_width (_params self)) !! i = f !! i.

(** * The uncertainty-quantification sampler ([fire_uq.py])

    The sampler draws the uncertain parameters of the fire example.  As
    for the fields, floating-point numbers are rationals here, and the
    arithmetic on them is exact: the rounding of the products, sums and
    quotients is outside the model.  The conversion [np.float32] of the
    values read from a file is a collaborator, [np_float32].  The random
    generator of [numpy] is a collaborator too: a fixed sequence of
    numbers and a position in it, which every draw moves on. *)

Module FireUQ.

(** The command-line flags of the module, with the types of their
    definitions ([DEFINE_integer], [DEFINE_float], [DEFINE_bool],
    [DEFINE_string]). *)
Record Flags : Type := {
  _RANDOM_SEED_UQ : Z;
  _N_SAMPLES_UQ : Z;
  _FUEL_LOAD_LB : Qc;
  _FUEL_LOAD_UB : Qc;
  _LARGE_SCALE_FUEL_BED_HEIGHT : Qc;
  _MOISTURE_CONTENT_LB : Qc;
  _MOISTURE_CONTENT_UB : Qc;
  _WIND_SPEED_LB : Qc;
  _WIND_SPEED_UB : Qc;
  _MODIFY_INDIVIDUAL : bool;
  _READ_UQ_FILE : bool;
  _UQ_FILENAME : string;
  _UQ_START_ID : Z;
}.

Inductive uq_error : Type :=
| NegativeDimensions
| IndexError
| FileError (filename : string).

(** A [numpy] random generator: the sequence of numbers it will draw, and
    how many of them have been drawn. *)
Record Generator : Type := {
  stream : nat -> Qc;
  drawn : nat;
}.

(** [sampler.random(size=(n,))]: the next [n] numbers of the generator,
    which moves on by [n]; a negative [n] is refused. *)
Definition random (g : Generator) (n : Z)
  : uq_error + (list Qc * Generator) :=
  if bool_decide (n < 0)%Z then inl NegativeDimensions
  else inr (stream g <$> seq (drawn g) (Z.to_nat n),
            {| stream := stream g; drawn := drawn g + Z.to_nat n |}).

Record FireUQSampler : Type := {
  sampler : Generator;
  start_id : Z;
}.

(** A two-dimensional array: the length of its second axis and its rows,
    each of that length. *)
Record Array2 : Type := {
  n_columns : nat;
  rows : list (list Qc);
}.

(** [a[:, k]]: column [k] of the array, with the index checked against
    the second axis. *)
Definition column (k : nat) (a : Array2) : uq_error + list Qc :=
  if bool_decide (k < n_columns a)%nat
  then inr ((fun row => default 0%Qc (row !! k)) <$> rows a)
  else inl IndexError.

(** [s[:-1]]: the string without its last character. *)
Fixpoint drop_last (s : string) : string :=
  match s with
  | EmptyString => EmptyString
  | String c EmptyString => EmptyString
  | String c s' => String c (drop_last s')
  end.

Section sampler.
Variable flags : Flags.
(** [np.random.default_rng] and [np.load]. *)
Variable default_rng : Z -> Generator.
Variable np_load : string -> uq_error + Array2.
(** [np.float32] on one number: the nearest number of single precision. *)
Variable np_float32 : Qc -> Qc.

Definition __init__ : FireUQSampler :=
  {| sampler := default_rng (_RANDOM_SEED_UQ flags);
     start_id := _UQ_START_ID flags |}.

(** The methods that draw numbers return the sampler they leave with
    their value. *)
Definition _uniform (self : FireUQSampler) (lower_bound upper_bound : Qc)
    (n_samples : Z) : uq_error + (list Qc * FireUQSampler) :=
  match random (sampler self) n_samples with
  | inl e => inl e
  | inr (norm_samples, g) =>
      inr ((fun x => ((upper_bound - lower_bound) * x + lower_bound)%Qc)
             <$> norm_samples,
           {| sampler := g; start_id := start_id self |})
  end.

Definition number_of_samples (self : FireUQSampler) : Z :=
  if _MODIFY_INDIVIDUAL flags then 4
  else if _READ_UQ_FILE flags then 20
  else _N_SAMPLES_UQ flags.

Definition generate_samples (self : FireUQSampler)
  : uq_error + (list Qc * list Qc * list Qc * FireUQSampler) :=
  if _READ_UQ_FILE flags then
    match np_load (_UQ_FILENAME flags) with
    | inl e => inl e
    | inr uq_values =>
        match column 0 uq_values, column 1 uq_values, column 2 uq_values with
        | inr fuel_density_samples, inr moisture_density_samples,
          inr wind_speed_samples =>
            inr (np_float32 <$> fuel_density_samples,
                 np_float32 <$> moisture_density_samples,
                 np_float32 <$> wind_speed_samples, self)
        | inl e, _, _ | _, inl e, _ | _, _, inl e => inl e
        end
    end
  else if _MODIFY_INDIVIDUAL flags then
    let fuel_load_samples :=
      <[1%nat := _FUEL_LOAD_UB flags]> (replicate 4 (_FUEL_LOAD_LB flags)) in
    let fuel_density_samples :=
      (fun x => (x / _LARGE_SCALE_FUEL_BED_HEIGHT flags)%Qc)
        <$> fuel_load_samples in
    let moisture_content_samples :=
      <[2%nat := _MOISTURE_CONTENT_UB flags]>
        (replicate 4 (_MOISTURE_CONTENT_LB flags)) in
    let moisture_density_samples :=
      zip_with Qcmult moisture_content_samples fuel_density_samples in
    let wind_speed_samples :=
      <[3%nat := _WIND_SPEED_UB flags]>
        (replicate 4 (_WIND_SPEED_LB flags)) in
    inr (fuel_density_samples, moisture_density_samples, wind_speed_samples,
         self)
  else
    match _uniform self (_FUEL_LOAD_LB flags) (_FUEL_LOAD_UB flags)
            (_N_SAMPLES_UQ flags) with
    | inl e => inl e
    | inr (fuel_load_samples, self) =>
        let fuel_density_samples :=
          (fun x => (x / _LARGE_SCALE_FUEL_BED_HEIGHT flags)%Qc)
            <$> fuel_load_samples in
        match _uniform self (_MOISTURE_CONTENT_LB flags)
                (_MOISTURE_CONTENT_UB flags) (_N_SAMPLES_UQ flags) with
        | inl e => inl e
        | inr (moisture_content_samples, self) =>
            let moisture_density_samples :=
              zip_with Qcmult moisture_content_samples
                fuel_density_samples in
            match _uniform self (_WIND_SPEED_LB flags)
                    (_WIND_SPEED_UB flags) (_N_SAMPLES_UQ flags) with
            | inl e => inl e
            | inr (wind_speed_samples, self) =>
                inr (fuel_density_samples, moisture_density_samples,
                     wind_speed_samples, self)
            end
        end
    end.

Definition generate_data_dump_prefixes (self : FireUQSampler)
    (data_dump_prefix : string) : list string :=
  let data_dump_prefix_base := drop_last data_dump_prefix +:+ "_" in
  let data_dump_prefix_base :=
    if _MODIFY_INDIVIDUAL flags
    then data_dump_prefix_base +:+ "testrun_"
    else data_dump_prefix_base in
  (fun i : Z => data_dump_prefix_base +:+ (pretty i +:+ "/"))
    <$> seqZ 0 (number_of_samples self).
End sampler.

End FireUQ.

(** * The lookup-table utilities ([optics_utils.py])

    The functions act position by position on the tensor [f] of values; a
    tensor of values, of indices or of weights is the sequence of its
    entries and its shape is the length of that sequence, so that
    operands of one shape are sequences of one length (the broadcasting
    of operands of different shapes is outside the model and is an
    error here).  Values are exact rationals. *)

Module OpticsUtils.

(** The errors of the tensor back end and of Python that the module can
    meet: a failed assertion, an index outside an axis, operands whose
    shapes do not agree, and the [ValueError] of [interpolate] and of the
    conversion of a Python integer to a tensor. *)
Inductive tf_error : Type :=
| InvalidArgument (message : string)
| OutOfRange
| ShapeMismatch
| ValueError (message : string).

(** The platform of the tensor back end.  [tf.cast] to [int32] is exact on
    the numbers of that range; what it returns for another value (a
    number outside the range, or the infinity or not-a-number of a
    quotient by zero) is left to the platform.
    [int32_of_unrepresentable x y] is what it returns for the floor
    quotient of [x] by [y] in that case. *)
Class Platform : Type := {
  int32_of_unrepresentable : Qc -> Qc -> Z;
}.

Abbreviation result := (sum tf_error).

#[export] Instance result_ret : MRet result := fun A a => inr a.
#[export] Instance result_bind : MBind result := fun A B k m =>
  match m with
  | inl e => inl e
  | inr a => k a
  end.

Fixpoint traverse {A B} (fn : A -> result B) (l : list A) : result (list B) :=
  match l with
  | [] => mret []
  | a :: l' => b ← fn a; bs ← traverse fn l'; mret (b :: bs)
  end.

(** A tensor of values is given by the sequence of its entries, position
    by position (its shape is the length of the sequence); a table of
    coefficients by its slices along the first axis. *)
#[warnings="-register-all"] Inductive Tensor : Type :=
| Scalar (x : Qc)
| Axis (slices : list Tensor).

Definition vector (values : list Qc) : Tensor := Axis (Scalar <$> values).

Record IndexAndWeight : Type := {
  idx : list Z;
  weight : list Qc;
}.

Record Interpolant : Type := {
  interp_low : IndexAndWeight;
  interp_high : IndexAndWeight;
}.

(** [tf.math.reduce_min] and [tf.math.reduce_max]; [None] is the value of
    the reduction of an empty tensor, above (below) every number. *)
Definition reduce_min (t : list Qc) : option Qc :=
  foldr (fun x acc =>
           Some (match acc with
                 | Some m => if Qclt_le_dec m x then m else x
                 | None => x
                 end))
        None t.

Definition reduce_max (t : list Qc) : option Qc :=
  foldr (fun x acc =>
           Some (match acc with
                 | Some m => if Qclt_le_dec x m then m else x
                 | None => x
                 end))
        None t.

Definition assert_greater_equal (x y : option Qc) (message : string)
  : result unit :=
  match x, y with
  | None, _ => mret tt
  | Some a, Some b =>
      if Qclt_le_dec a b then inl (InvalidArgument message) else mret tt
  | Some _, None => inl (InvalidArgument message)
  end.

Definition assert_less_equal (x y : option Qc) (message : string)
  : result unit :=
  match x, y with
  | None, _ => mret tt
  | Some a, Some b =>
      if Qclt_le_dec b a then inl (InvalidArgument message) else mret tt
  | Some _, None => inl (InvalidArgument message)
  end.

Definition validate_range (f reference_values : list Qc) : result unit :=
  let min_t_ref := reduce_min reference_values in
  let max_t_ref := reduce_max reference_values in
  let min_t := reduce_min f in
  let max_t := reduce_max f in
  assert_greater_equal min_t min_t_ref
    "At least one value is below the reference range.";;
  assert_less_equal max_t max_t_ref
    "At least one value is above the reference range.".

(** [tf.gather_nd] at one position: the entry of [vals] under one index
    per axis, as the docstring of [lookup_values] asks for ("a list of
    length equal to the rank of [vals]"); an index outside its axis is an
    error, and so is, here, a list of another length. *)
Fixpoint gather (index : list Z) (vals : Tensor) : result Qc :=
  match index, vals with
  | [], Scalar x => mret x
  | i :: index', Axis slices =>
      if bool_decide (0 <= i)%Z then
        match slices !! Z.to_nat i with
        | Some slice => gather index' slice
        | None => inl OutOfRange
        end
      else inl OutOfRange
  | _, _ => inl ShapeMismatch
  end.

Definition same_shape {A B} (a : list A) (b : list B) : bool :=
  bool_decide (length a = length b).

(** [tf.concat] of the expanded index tensors along the last axis: the
    index tuples, position by position. *)
Definition index_tuples (idx_list : list (list Z)) : result (list (list Z)) :=
  match idx_list with
  | [] => inl (InvalidArgument "concat of an empty list")
  | idx0 :: _ =>
      if forallb (same_shape idx0) idx_list
      then mret (foldr (zip_with cons) (replicate (length idx0) []) idx_list)
      else inl ShapeMismatch
  end.

Definition lookup_values (vals : Tensor) (idx_list : list (list Z))
  : result (list Qc) :=
  idx ← index_tuples idx_list;
  traverse (fun index => gather index vals) idx.

(** [tf.math.reduce_prod(tf.stack(weights), axis=0)] *)
Definition reduce_prod_stack (weights : list (list Qc)) : result (list Qc) :=
  match weights with
  | [] => inl (InvalidArgument "stack of an empty list")
  | w0 :: _ =>
      if forallb (same_shape w0) weights
      then mret (foldr (zip_with Qcmult) (replicate (length w0) 1%Qc) weights)
      else inl ShapeMismatch
  end.

Definition elementwise (op : Qc -> Qc -> Qc) (a b : list Qc)
  : result (list Qc) :=
  if same_shape a b then mret (zip_with op a b) else inl ShapeMismatch.

Definition evaluate_weighted_lookup (coeffs : Tensor)
    (weight_idx_list : list IndexAndWeight) : result (list Qc) :=
  vals ← lookup_values coeffs (idx <$> weight_idx_list);
  scale ← reduce_prod_stack (weight <$> weight_idx_list);
  elementwise Qcmult vals scale.

(** [reference_values[i]] *)
Definition getitem (reference_values : list Qc) (i : nat) : result Qc :=
  match reference_values !! i with
  | Some x => mret x
  | None => inl OutOfRange
  end.

(** The values of [int32]. *)
Definition int32 (z : Z) : bool := bool_decide (- 2 ^ 31 <= z < 2 ^ 31)%Z.

Section cast.
Context {platform : Platform}.

(** [tf.math.floordiv] followed by [tf.cast] to [int32]: the floor of the
    quotient, when the quotient is a number and its floor has 32 bits;
    what the platform makes of it otherwise. *)
Definition floordiv_int32 (x y : Qc) : Z :=
  let q := Qround.Qfloor (x / y)%Qc in
  if bool_decide (y ≠ 0%Qc) && int32 q then q
  else int32_of_unrepresentable x y.

(** [tf.clip_by_value] on a tensor of [int32]: the two bounds, Python
    integers, are converted to [int32], which fails for an integer
    outside that range. *)
Definition clip_by_value (t : list Z) (clip_value_min clip_value_max : Z)
  : result (list Z) :=
  if int32 clip_value_min && int32 clip_value_max
  then mret ((fun x => Z.max (Z.min x clip_value_max) clip_value_min) <$> t)
  else inl (ValueError "Cannot convert the clip value to int32.").

Definition floor_idx (f reference_values : list Qc) : result (list Z) :=
  r1 ← getitem reference_values 1;
  r0 ← getitem reference_values 0;
  let delta := (r1 - r0)%Qc in
  let size := Z.of_nat (length reference_values) in
  let truncated_div := (fun x => floordiv_int32 (x - r0)%Qc delta) <$> f in
  clip_by_value truncated_div 0 (size - 1).

(** [idx += offset] *)
Definition add_offset (indices : list Z) (offset : option (list Z))
  : result (list Z) :=
  match offset with
  | None => mret indices
  | Some offset =>
      if same_shape indices offset then mret (zip_with Z.add indices offset)
      else inl ShapeMismatch
  end.

Definition create_linear_interpolant (f f_ref : list Qc)
    (offset : option (list Z)) : result Interpolant :=
  validate_range f f_ref;;
  let size := Z.of_nat (length f_ref) in
  r1 ← getitem f_ref 1;
  r0 ← getitem f_ref 0;
  let delta := (r1 - r0)%Qc in
  idx_low ← floor_idx f f_ref;
  let idx_high :=
    (fun i => Z.min (i + 1) (size - 1)) <$> (idx_low : list Z) in
  lower_reference_vals ← lookup_values (vector f_ref) [idx_low];
  weight2 ← elementwise (fun x l => Qcabs.Qcabs ((x - l) / delta)%Qc)
              f lower_reference_vals;
  let weight1 := (fun w => (1 - w)%Qc) <$> (weight2 : list Qc) in
  idx_low ← add_offset idx_low offset;
  idx_high ← add_offset idx_high offset;
  let idx_weight_low := {| idx := idx_low; weight := weight1 |} in
  let idx_weight_high := {| idx := idx_high; weight := weight2 |} in
  mret {| interp_low := idx_weight_low; interp_high := idx_weight_high |}.
End cast.

(** An ordered dict from variable names to index and weight. *)
Abbreviation IndexAndWeightDict := (list (string * IndexAndWeight)).

(** [d.update({k: v})]: the value of an existing key is replaced where it
    stands, a new key goes to the end. *)
Fixpoint update (d : IndexAndWeightDict) (k : string) (v : IndexAndWeight)
  : IndexAndWeightDict :=
  match d with
  | [] => [(k, v)]
  | (k', v') :: d' =>
      if bool_decide (k' = k) then (k, v) :: d' else (k', v') :: update d' k v
  end.

(** [interpolant_fns] is the ordered dict of the interpolant functions,
    first axis first; [idx_weight_by_varname] is empty where the source
    passes [None]. *)
Fixpoint interpolate (coeffs : Tensor)
    (interpolant_fns :
       list (string * (IndexAndWeightDict -> result Interpolant)))
    (idx_weight_by_varname : IndexAndWeightDict) : result (list Qc) :=
  match interpolant_fns with
  | [] =>
      match idx_weight_by_varname with
      | [] =>
          inl (ValueError
            "The number of interpolant functions must equal the rank of `coeffs`.")
      | _ => evaluate_weighted_lookup coeffs (snd <$> idx_weight_by_varname)
      end
  | (varname, interpolant_fn) :: interpolant_fns =>
      interpolant ← interpolant_fn idx_weight_by_varname;
      let lower_idx_weight_dict :=
        update idx_weight_by_varname varname (interp_low interpolant) in
      lower ← interpolate coeffs interpolant_fns lower_idx_weight_dict;
      let higher_idx_weight_dict :=
        update idx_weight_by_varname varname (interp_high interpolant) in
      higher ← interpolate coeffs interpolant_fns higher_idx_weight_dict;
      elementwise Qcplus lower higher
  end.

(** The integer [z] as a value of a tensor. *)
Definition of_Z (z : Z) : Qc := Q2Qc (inject_Z z).

(** The reference values are evenly spaced and increasing: the value at
    index [k] is the first one plus [k] times the spacing. *)
Definition evenly_spaced (reference_values : list Qc) : Prop :=
  ∃ r0 delta : Qc,
    (0 < delta)%Qc ∧
    ∀ k : nat, (k < length reference_values)%nat ->
      reference_values !! k = Some (r0 + of_Z (Z.of_nat k) * delta)%Qc.

(** Every entry of the table of coefficients is [c]. *)
Definition constant_table (c : Qc) (coeffs : Tensor) : Prop :=
  ∀ index v, gather index coeffs = inr v -> v = c.

(** The two weights of the interpolant are given at [m] positions and sum
    to one at each of them. *)
Definition normalized (m : nat) (interpolant : Interpolant) : Prop :=
  length (weight (interp_low interpolant)) = m ∧
  length (weight (interp_high interpolant)) = m ∧
  ∀ p w_lo w_hi,
    weight (interp_low interpolant) !! p = Some w_lo ->
    weight (interp_high interpolant) !! p = Some w_hi ->
    (w_lo + w_hi = 1)%Qc.

(** The product, at position [p], of the weights that the dict holds. *)
Definition weights_at (p : nat) (d : IndexAndWeightDict) : Qc :=
  foldr (fun w acc => (default 1%Qc (w !! p) * acc)%Qc) 1%Qc
        (weight <$> (snd <$> d)).

End OpticsUtils.

(** * Instances of the sampler and of the lookup tables *)

Module Instances.

(** The one-axis configuration without any transported scalar. *)
Definition params_without_scalars : SwirlLMParameters :=
  {| scalars := [];
     transport_scalars_names := [];
     bc := ∅;
     halo_width := 1;
     periodic_dims := [false; false; false];
     dt := Q2Qc (1 # 2);
     solver_mode := LOW_MACH;
     scalar_time_integration_scheme :=
       fun _ => TIME_SCHEME_CN_EXPLICIT_ITERATION;
     diffusivity := fun _ => Q2Qc (1 # 100);
     use_sgs := false |}.

(** The flags of [fire_uq.py] at their defaults, but for the two modes and
    the number of samples. *)
Definition flags (modify_individual read_uq_file : bool) (n_samples : Z)
  : FireUQ.Flags :=
  {| FireUQ._RANDOM_SEED_UQ := 0;
     FireUQ._N_SAMPLES_UQ := n_samples;
     FireUQ._FUEL_LOAD_LB := Q2Qc (9 # 100);
     FireUQ._FUEL_LOAD_UB := Q2Qc (225 # 100);
     FireUQ._LARGE_SCALE_FUEL_BED_HEIGHT := Q2Qc (9785 # 1000);
     FireUQ._MOISTURE_CONTENT_LB := Q2Qc (3 # 100);
     FireUQ._MOISTURE_CONTENT_UB := Q2Qc (12 # 100);
     FireUQ._WIND_SPEED_LB := Q2Qc 5;
     FireUQ._WIND_SPEED_UB := Q2Qc 12;
     FireUQ._MODIFY_INDIVIDUAL := modify_individual;
     FireUQ._READ_UQ_FILE := read_uq_file;
     FireUQ._UQ_FILENAME := "./large_scale_uq_params.npy";
     FireUQ._UQ_START_ID := 0 |}.

(** A generator that draws one half, one third, one quarter, ... *)
Definition default_rng (seed : Z) : FireUQ.Generator :=
  {| FireUQ.stream := fun i => Q2Qc (1 # Pos.of_nat (i + 2));
     FireUQ.drawn := 0 |}.

(** A file with two rows of three parameters. *)
Definition np_load (filename : string) : FireUQ.uq_error + FireUQ.Array2 :=
  inr {| FireUQ.n_columns := 3;
         FireUQ.rows := [ [Q2Qc (1 # 10); Q2Qc (1 # 100); Q2Qc 6];
                          [Q2Qc (2 # 10); Q2Qc (2 # 100); Q2Qc 8] ] |}.

Definition sampler_obj (n_samples : Z) : FireUQ.FireUQSampler :=
  FireUQ.__init__ (flags false false n_samples) default_rng.

(** Rounding to the nearest integer, ties to the even one. *)
Definition round_half_even (x : Q) : Z :=
  let f := Qround.Qfloor x in
  match (x - inject_Z f ?= 1 # 2)%Q with
  | Lt => f
  | Gt => (f + 1)%Z
  | Eq => if Z.even f then f else (f + 1)%Z
  end.

(** The exponent of a positive rational: the largest [e] with
    [2 ^ e <= x]. *)
Definition binade (x : Q) : Z :=
  let e := (Z.log2 (Qnum x) - Z.log2 (Zpos (Qden x)))%Z in
  if Qle_bool (Qpower 2 e) x then e else (e - 1)%Z.

(** [np.float32] on a rational: the nearest number with a significand of
    24 bits, ties to the even significand, with the gradual underflow of
    single precision below [2 ^ -126].  The infinities of an overflow are
    outside the model: the exponent is not bounded above. *)
Definition np_float32 (x : Qc) : Qc :=
  let a := Qabs.Qabs x in
  if Qeq_bool a 0 then 0%Qc
  else
    let e := Z.max (binade a) (-126) in
    let ulp := Qpower 2 (e - 23) in
    let m := round_half_even (a / ulp) in
    Q2Qc ((if Qle_bool 0 x then 1 else -1) * inject_Z m * ulp).

(** Four reference values with spacing one half, starting at one, and a
    table that is linear in them. *)
Definition f_ref : list Qc :=
  [Q2Qc 1; Q2Qc (3 # 2); Q2Qc 2; Q2Qc (5 # 2)].

Definition table : list Qc :=
  [Q2Qc 5; Q2Qc 6; Q2Qc 7; Q2Qc 8].

Definition f_inside : list Qc := [Q2Qc (7 # 4); Q2Qc (5 # 2); Q2Qc 1].

Definition f_any : list Qc := [Q2Qc (- 3); Q2Qc (7 # 4); Q2Qc 40].

(** [tf.zeros_like(dep.idx)]: an offset of zeros, shaped like the indices
    chosen for another variable. *)
Definition zeros_like_idx (dep : OpticsUtils.IndexAndWeight) : list Z :=
  (fun _ => 0%Z) <$> OpticsUtils.idx dep.

(** The conversion of the x86 processors, which returns the smallest
    number of [int32] for every value outside the range. *)
#[export] Instance x86 : OpticsUtils.Platform :=
  {| OpticsUtils.int32_of_unrepresentable := fun _ _ => (- 2 ^ 31)%Z |}.

(** [tf.fill(dims, value)]: the table of shape [dims] with [value] in
    every entry. *)
Fixpoint fill (dims : list nat) (value : Qc) : OpticsUtils.Tensor :=
  match dims with
  | [] => OpticsUtils.Scalar value
  | n :: dims' => OpticsUtils.Axis (replicate n (fill dims' value))
  end.

End Instances.

(** * Properties *)

(** ** The monad and the structure-preserving maps *)

Section monad_facts.
Context {A B : Type}.

Lemma bind_lift_ok (a : A) (k : A -> M B) : (lift (Ok a) ≫= k) = k a.
Proof. unfold mbind, M_bind, lift. by destruct (k a). Qed.

Lemma bind_nil_ok (a : A) (k : A -> M B) : (([], Ok a) ≫= k) = k a.
Proof. unfold mbind, M_bind. by destruct (k a). Qed.

Lemma bind_ret (a : A) (k : A -> M B) : (mret a ≫= k) = k a.
Proof. unfold mbind, M_bind, mret, M_ret. by destruct (k a). Qed.

Lemma bind_ok (l : list event) (a : A) (k : A -> M B) :
  ((l, Ok a) ≫= k) = (l ++ calls (k a), outcome (k a)).
Proof. unfold mbind, M_bind, calls, outcome. by destruct (k a). Qed.

Lemma bind_inv_ok (m : M A) (k : A -> M B) (l : list event) (b : B) :
  (m ≫= k) = (l, Ok b) ->
  ∃ a l1 l2, m = (l1, Ok a) ∧ k a = (l2, Ok b) ∧ l = l1 ++ l2.
Proof.
  destruct m as [l1 [e | a]]; [discriminate |].
  rewrite bind_ok. destruct (k a) as [l2 r] eqn:Hk. simpl.
  intros [= <- ->]. by exists a, l1, l2.
Qed.
End monad_facts.

Lemma bind_call {B} (ev : event) (k : unit -> M B) :
  (call ev ≫= k) = (ev :: calls (k tt), outcome (k tt)).
Proof. unfold call. by rewrite bind_ok. Qed.

Lemma getitem_Some {V} (d : gmap string V) (k : string) (v : V) :
  d !! k = Some v -> getitem d k = Ok v.
Proof. unfold getitem. by intros ->. Qed.

Lemma getitem_None {V} (d : gmap string V) (k : string) :
  d !! k = None -> getitem d k = Err (KeyError k).
Proof. unfold getitem. by intros ->. Qed.

Lemma getitem_inv {V} (d : gmap string V) (k : string) (v : V) :
  getitem d k = Ok v -> d !! k = Some v.
Proof. unfold getitem. destruct (d !! k); naive_solver. Qed.

Lemma same_structure_true (a b : FlowFieldVal) :
  length a = length b -> same_structure a b = true.
Proof. intros. unfold same_structure. by apply bool_decide_eq_true. Qed.

Lemma map_structure2_ok fn (a b : FlowFieldVal) :
  length a = length b -> map_structure2 fn a b = Ok (zip_with fn a b).
Proof. intros. unfold map_structure2. by rewrite same_structure_true. Qed.

Lemma map_structure2_inv fn (a b r : FlowFieldVal) :
  map_structure2 fn a b = Ok r -> length a = length b ∧ r = zip_with fn a b.
Proof.
  unfold map_structure2, same_structure. case_bool_decide; [|discriminate].
  by intros [= <-].
Qed.

Lemma map_structure3_ok fn (a b c : FlowFieldVal) :
  length a = length b -> length a = length c ->
  map_structure3 fn a b c = Ok (ap_structure (zip_with fn a b) c).
Proof.
  intros. unfold map_structure3. by rewrite !same_structure_true.
Qed.

Lemma map_structure7_ok fn (a b c d e f g : FlowFieldVal) :
  length a = length b -> length a = length c -> length a = length d ->
  length a = length e -> length a = length f -> length a = length g ->
  map_structure7 fn a b c d e f g =
  Ok (ap_structure (ap_structure (ap_structure (ap_structure
        (ap_structure (zip_with fn a b) c) d) e) f) g).
Proof.
  intros. unfold map_structure7. by rewrite !same_structure_true.
Qed.

Lemma length_ap_structure {X Y} (fs : list (X -> Y)) (xs : list X) :
  length fs = length xs -> length (ap_structure fs xs) = length fs.
Proof. intros. unfold ap_structure. rewrite length_zip_with. lia. Qed.

Lemma lookup_ap_structure {X Y} (fs : list (X -> Y)) (xs : list X) i g x :
  fs !! i = Some g -> xs !! i = Some x -> ap_structure fs xs !! i = Some (g x).
Proof.
  intros Hg Hx. unfold ap_structure. by rewrite lookup_zip_with, Hg, Hx.
Qed.

(** ** Halo synchronisation adapter *)

Section halo_adapter.
Context {env : Collaborators}.
Variables (self : Scalars) (replica_id : ReplicaId) (replicas : Replicas).

Lemma exchange_scalar_halos_ok (f : FlowFieldVal) (name : string)
    (bc_f : BCVal) :
  _bc self !! name = Some bc_f ->
  exchange_scalar_halos self f name replica_id replicas =
  ([HaloExchangeCall f bc_f], Ok (exchanged self f bc_f replica_id replicas)).
Proof.
  intros Hbc. unfold exchange_scalar_halos.
  by rewrite (getitem_Some _ _ _ Hbc), bind_lift_ok.
Qed.

Lemma exchange_scalar_halos_missing (f : FlowFieldVal) (name : string) :
  _bc self !! name = None ->
  exchange_scalar_halos self f name replica_id replicas =
  ([], Err (KeyError name)).
Proof.
  intros Hbc. unfold exchange_scalar_halos.
  by rewrite (getitem_None _ _ Hbc).
Qed.

Lemma exchange_scalar_halos_inv (f : FlowFieldVal) (name : string)
    (l : list event) (g : FlowFieldVal) :
  exchange_scalar_halos self f name replica_id replicas = (l, Ok g) ->
  ∃ bc_f, _bc self !! name = Some bc_f ∧ l = [HaloExchangeCall f bc_f] ∧
          g = exchanged self f bc_f replica_id replicas.
Proof.
  destruct (_bc self !! name) as [bc_f|] eqn:Hbc.
  - rewrite (exchange_scalar_halos_ok _ _ _ Hbc). intros [= <- <-]. eauto.
  - by rewrite (exchange_scalar_halos_missing _ _ Hbc).
Qed.
End halo_adapter.

(** ** Time advance *)

Section time_advance.
Context {env : Collaborators}.
Variables (self : Scalars) (replica_id : ReplicaId) (replicas : Replicas).
Variables (states states_0 : FlowFieldMap).

Lemma time_advance_anelastic (rhs : FlowFieldVal) (sc_name : string)
    (rho phi_old : FlowFieldVal) (bc_f : BCVal) :
  solver_mode (_params self) = ANELASTIC ->
  states !! _KEY_RHO = Some rho ->
  states_0 !! sc_name = Some phi_old ->
  _bc self !! sc_name = Some bc_f ->
  length phi_old = length rhs -> length rho = length rhs ->
  let phi_new :=
    ap_structure
      (zip_with (fun sc b a => (sc + dt (_params self) * b * a)%Qc)
                phi_old rhs)
      (Qcinv <$> rho) in
  time_advance_cn_explicit self replica_id replicas states states_0 rhs
    sc_name =
  ([HaloExchangeCall phi_new bc_f],
   Ok {[ sc_name := exchanged self phi_new bc_f replica_id replicas ]}).
Proof.
  intros Hmode Hrho Hphi Hbc Hl1 Hl2 phi_new.
  unfold time_advance_cn_explicit.
  rewrite (bool_decide_eq_true_2 _ Hmode).
  rewrite (getitem_Some _ _ _ Hrho), bind_lift_ok.
  rewrite (getitem_Some _ _ _ Hphi), bind_lift_ok.
  rewrite map_structure3_ok, bind_lift_ok;
    [| done | unfold map_structure1; rewrite length_fmap; lia].
  by rewrite (exchange_scalar_halos_ok _ _ _ _ _ _ Hbc), bind_ok.
Qed.

Lemma time_advance_conservative (rhs : FlowFieldVal) (sc_name : string)
    (rho rho_phi_old : FlowFieldVal) (bc_f : BCVal) :
  solver_mode (_params self) ≠ ANELASTIC ->
  states !! _KEY_RHO = Some rho ->
  states_0 !! rho_ sc_name = Some rho_phi_old ->
  _bc self !! sc_name = Some bc_f ->
  length rho_phi_old = length rhs -> length rho = length rhs ->
  let rho_phi_new :=
    zip_with (fun a b => (a + dt (_params self) * b)%Qc) rho_phi_old rhs in
  let phi_new := zip_with Qcdiv rho_phi_new rho in
  time_advance_cn_explicit self replica_id replicas states states_0 rhs
    sc_name =
  ([HaloExchangeCall phi_new bc_f],
   Ok (<[sc_name := exchanged self phi_new bc_f replica_id replicas]>
         {[ rho_ sc_name := rho_phi_new ]})).
Proof.
  intros Hmode Hrho Hphi Hbc Hl1 Hl2 rho_phi_new phi_new.
  unfold time_advance_cn_explicit.
  rewrite (bool_decide_eq_false_2 _ Hmode).
  rewrite (getitem_Some _ _ _ Hphi), bind_lift_ok.
  rewrite map_structure2_ok, bind_lift_ok by done.
  rewrite (getitem_Some _ (rho_ sc_name) rho_phi_new), bind_lift_ok
    by apply lookup_singleton_eq.
  rewrite (getitem_Some _ _ _ Hrho), bind_lift_ok.
  rewrite map_structure2_ok, bind_lift_ok
    by (unfold rho_phi_new; rewrite length_zip_with; lia).
  by rewrite (exchange_scalar_halos_ok _ _ _ _ _ _ Hbc), bind_ok.
Qed.
End time_advance.

(** ** Right-hand-side assembly *)

Lemma lookup_map_structure7 (fn : Qc -> Qc -> Qc -> Qc -> Qc -> Qc -> Qc -> Qc)
    (a b c d e f g : FlowFieldVal) i
    x1 x2 x3 x4 x5 x6 x7 :
  a !! i = Some x1 -> b !! i = Some x2 -> c !! i = Some x3 ->
  d !! i = Some x4 -> e !! i = Some x5 -> f !! i = Some x6 ->
  g !! i = Some x7 ->
  ap_structure (ap_structure (ap_structure (ap_structure
    (ap_structure (zip_with fn a b) c) d) e) f) g !! i =
  Some (fn x1 x2 x3 x4 x5 x6 x7).
Proof.
  intros H1 H2 H3 H4 H5 H6 H7.
  repeat (eapply lookup_ap_structure; [| eassumption]).
  apply lookup_zip_with_Some. by exists x1, x2.
Qed.

Lemma length_map_structure7 (fn : Qc -> Qc -> Qc -> Qc -> Qc -> Qc -> Qc -> Qc)
    (a b c d e f g : FlowFieldVal) n :
  length a = n -> length b = n -> length c = n -> length d = n ->
  length e = n -> length f = n -> length g = n ->
  length (ap_structure (ap_structure (ap_structure (ap_structure
    (ap_structure (zip_with fn a b) c) d) e) f) g) = n.
Proof.
  intros. unfold ap_structure. rewrite !length_zip_with. lia.
Qed.

Section rhs_assembly.
Context {env : Collaborators}.
Variables (self : Scalars) (replica_id : ReplicaId) (replicas : Replicas).
Variables (scalar_name : string) (states additional_states : FlowFieldMap).

Lemma scalar_update_ok (source : FlowFieldVal) (dbg : bool) :
  external_source self scalar_name states = Ok source ->
  _scalar_update self replica_id replicas scalar_name states
    additional_states dbg =
  ([], Ok (scalar_function self replica_id replicas scalar_name states
             additional_states source dbg)).
Proof.
  intros Hsrc. unfold _scalar_update. by rewrite Hsrc, bind_lift_ok.
Qed.

Lemma scalar_update_err (e : error) (dbg : bool) :
  external_source self scalar_name states = Err e ->
  _scalar_update self replica_id replicas scalar_name states
    additional_states dbg = ([], Err e).
Proof. intros Hsrc. unfold _scalar_update. by rewrite Hsrc. Qed.

Lemma scalar_update_outcome (dbg : bool) fn :
  outcome (_scalar_update self replica_id replicas scalar_name states
             additional_states dbg) = Ok fn ->
  ∃ source,
    external_source self scalar_name states = Ok source ∧
    fn = scalar_function self replica_id replicas scalar_name states
           additional_states source dbg.
Proof.
  destruct (external_source self scalar_name states) as [e | src] eqn:Hsrc.
  - by rewrite (scalar_update_err _ _ Hsrc).
  - rewrite (scalar_update_ok _ _ Hsrc). simpl. intros [= <-]. eauto.
Qed.

Section closure_outputs.
Variables (model : ScalarModel) (source phi : FlowFieldVal).
Variables (conv_x conv_y conv_z diff_x diff_y diff_z : FlowFieldVal).
Variable source_additional : FlowFieldVal.
Hypothesis Hmodel : _scalar_model self !! scalar_name = Some model.
Hypothesis Hconv :
  convection_fn model replica_id replicas phi states additional_states =
  (conv_x, conv_y, conv_z).
Hypothesis Hdiff :
  diffusion_fn model replica_id replicas phi states additional_states =
  (diff_x, diff_y, diff_z).
Hypothesis Hsrc_add :
  source_fn model replica_id replicas phi states additional_states =
  source_additional.
Hypothesis Hlen_src : length source = length phi.
Hypothesis Hlen_add : length source_additional = length phi.
Hypothesis Hlen_conv :
  length conv_x = length phi ∧ length conv_y = length phi ∧
  length conv_z = length phi.
Hypothesis Hlen_diff :
  length diff_x = length phi ∧ length diff_y = length phi ∧
  length diff_z = length phi.

#[local] Abbreviation source_all := (zip_with Qcplus source source_additional).
#[local] Abbreviation rhs :=
  (tentative_rhs conv_x conv_y conv_z diff_x diff_y diff_z source_all).

Lemma scalar_function_terms :
  scalar_function self replica_id replicas scalar_name states
    additional_states source true phi =
  ([], Ok (<["conv_x" := conv_x]> (<["conv_y" := conv_y]>
          (<["conv_z" := conv_z]> (<["diff_x" := diff_x]>
          (<["diff_y" := diff_y]> (<["diff_z" := diff_z]>
          (<["source" := source_all]> ∅)))))))).
Proof using All.
  unfold scalar_function.
  rewrite (getitem_Some _ _ _ Hmodel), bind_lift_ok.
  rewrite Hconv, Hdiff, Hsrc_add. cbn [fst snd].
  rewrite map_structure2_ok, bind_lift_ok by lia.
  reflexivity.
Qed.

Lemma scalar_function_no_ib :
  _ib self = None ->
  scalar_function self replica_id replicas scalar_name states
    additional_states source false phi = ([], Ok rhs).
Proof using All.
  intros Hib. unfold scalar_function.
  rewrite (getitem_Some _ _ _ Hmodel), bind_lift_ok.
  rewrite Hconv, Hdiff, Hsrc_add. cbn [fst snd].
  rewrite map_structure2_ok, bind_lift_ok by lia.
  destruct Hlen_conv as (? & ? & ?), Hlen_diff as (? & ? & ?).
  rewrite map_structure7_ok, bind_lift_ok, Hib;
    rewrite ?length_zip_with; try lia.
  reflexivity.
Qed.

Lemma scalar_function_ib (ib : ImmersedBoundaryMethod) (rho : FlowFieldVal) :
  _ib self = Some ib ->
  states !! _KEY_RHO = Some rho ->
  length rho = length phi ->
  let rho_sc_name := rho_ scalar_name in
  let rhs_name := ib_rhs_name ib rho_sc_name in
  let helper_states := ib_helper_states rhs_name rhs additional_states in
  let ib_states : FlowFieldMap :=
    {[ rho_sc_name := zip_with Qcmult rho phi ]} in
  scalar_function self replica_id replicas scalar_name states
    additional_states source false phi =
  ([IbUpdateForcingCall ib_states helper_states],
   getitem (update_forcing ib replica_id replicas ib_states helper_states)
     rhs_name).
Proof using All.
  intros Hib Hrho Hlen. unfold scalar_function.
  rewrite (getitem_Some _ _ _ Hmodel), bind_lift_ok.
  rewrite Hconv, Hdiff, Hsrc_add. cbn [fst snd].
  rewrite map_structure2_ok, bind_lift_ok by lia.
  destruct Hlen_conv as (? & ? & ?), Hlen_diff as (? & ? & ?).
  rewrite map_structure7_ok, bind_lift_ok, Hib;
    rewrite ?length_zip_with; try lia.
  rewrite (getitem_Some _ _ _ Hrho), bind_lift_ok.
  rewrite map_structure2_ok, bind_lift_ok by done.
  by rewrite bind_call.
Qed.

Lemma length_rhs : length rhs = length phi.
Proof using Hlen_src Hlen_add Hlen_conv Hlen_diff.
  destruct Hlen_conv as (? & ? & ?), Hlen_diff as (? & ? & ?).
  apply length_map_structure7; try done.
  rewrite length_zip_with. lia.
Qed.
End closure_outputs.
End rhs_assembly.

Section rhs_claims.
Context {env : Collaborators}.
Variables (self : Scalars) (replica_id : ReplicaId) (replicas : Replicas).
Variables (scalar_name : string) (states additional_states : FlowFieldMap).

(** C4.  For a transported scalar, the right-hand side that the function
    returned by [_scalar_update] assembles is, cell by cell, minus the sum
    of the three convection components plus the sum of the three
    diffusion components plus the combined source:
    [rhs = -(conv_x + conv_y + conv_z) + (diff_x + diff_y + diff_z)
    + source].  The combined source is the source of the closure added to
    the external source that the source registry holds for the scalar,
    the latter being zero when the registry holds [None].  Without an
    immersed-boundary corrector this is what the function returns; with
    one, it is the tentative right-hand side handed to the corrector. *)
Theorem rhs_sign_convention (model : ScalarModel)
    (registered : option FlowFieldVal)
    (rho phi conv_x conv_y conv_z diff_x diff_y diff_z
       source_additional : FlowFieldVal) :
  _scalar_model self !! scalar_name = Some model ->
  _source self !! scalar_name = Some registered ->
  states !! _KEY_RHO = Some rho ->
  convection_fn model replica_id replicas phi states additional_states =
    (conv_x, conv_y, conv_z) ->
  diffusion_fn model replica_id replicas phi states additional_states =
    (diff_x, diff_y, diff_z) ->
  source_fn model replica_id replicas phi states additional_states =
    source_additional ->
  length rho = length phi ->
  (∀ source, registered = Some source -> length source = length phi) ->
  length source_additional = length phi ->
  length conv_x = length phi ∧ length conv_y = length phi ∧
    length conv_z = length phi ->
  length diff_x = length phi ∧ length diff_y = length phi ∧
    length diff_z = length phi ->
  ∃ rhs : FlowFieldVal,
    length rhs = length phi ∧
    (∀ i cx cy cz dx dy dz s sa,
       conv_x !! i = Some cx -> conv_y !! i = Some cy ->
       conv_z !! i = Some cz -> diff_x !! i = Some dx ->
       diff_y !! i = Some dy -> diff_z !! i = Some dz ->
       match registered with
       | Some source => source !! i = Some s
       | None => s = 0%Qc
       end ->
       source_additional !! i = Some sa ->
       rhs !! i = Some (- (cx + cy + cz) + (dx + dy + dz) + (s + sa))%Qc) ∧
    (scalar_rhs_fn ← _scalar_update self replica_id replicas scalar_name
                       states additional_states false;
     scalar_rhs_fn phi) =
    match _ib self with
    | None => ([], Ok rhs)
    | Some ib =>
        let rhs_name := ib_rhs_name ib (rho_ scalar_name) in
        let helper_states :=
          ib_helper_states rhs_name rhs additional_states in
        let ib_states : FlowFieldMap :=
          {[ rho_ scalar_name := zip_with Qcmult rho phi ]} in
        ([IbUpdateForcingCall ib_states helper_states],
         getitem (update_forcing ib replica_id replicas ib_states
                    helper_states) rhs_name)
    end.
Proof.
  intros Hmodel Hreg Hrho Hconv Hdiff Hadd Hlrho Hlreg Hl2 Hl3 Hl4.
  set (source := match registered with
                 | Some source => source
                 | None => zeros_like rho
                 end).
  assert (external_source self scalar_name states = Ok source) as Hsrc.
  { unfold external_source, source.
    rewrite (getitem_Some _ _ _ Hreg). destruct registered; [done|].
    by rewrite (getitem_Some _ _ _ Hrho). }
  assert (length source = length phi) as Hl1.
  { unfold source. destruct registered; [by apply Hlreg|].
    unfold zeros_like, map_structure1. by rewrite length_fmap. }
  eexists. split; [|split].
  - by apply (length_rhs source phi conv_x conv_y conv_z diff_x diff_y
                diff_z source_additional).
  - intros i cx cy cz dx dy dz s sa ?????? Hs Hsa.
    apply (lookup_map_structure7 scalar_transport_equation
             _ _ _ _ _ _ _ i cx cy cz dx dy dz (s + sa)%Qc); try done.
    apply lookup_zip_with_Some. exists s, sa. split; [done|].
    split; [|done]. unfold source. destruct registered; [done|].
    subst s. unfold zeros_like, map_structure1.
    rewrite list_lookup_fmap.
    destruct (rho !! i) eqn:Hi; [done|].
    apply lookup_ge_None in Hi. apply lookup_lt_Some in Hsa. lia.
  - rewrite (scalar_update_ok _ _ _ _ _ _ _ false Hsrc), bind_nil_ok.
    destruct (_ib self) as [ib|] eqn:Hib.
    + by eapply scalar_function_ib.
    + by eapply scalar_function_no_ib.
Qed.

(** C8.  When the source registry holds no field for a scalar (its entry
    is [None]), the assembly of the right-hand side does not fail: the
    external source it uses is a field with the shape of the density and
    the value zero in every cell. *)
Theorem absent_source_is_zero_field (rho : FlowFieldVal) (dbg : bool) :
  _source self !! scalar_name = Some None ->
  states !! _KEY_RHO = Some rho ->
  ∃ source : FlowFieldVal,
    length source = length rho ∧
    (∀ i x, source !! i = Some x -> x = 0%Qc) ∧
    external_source self scalar_name states = Ok source ∧
    _scalar_update self replica_id replicas scalar_name states
      additional_states dbg =
    ([], Ok (scalar_function self replica_id replicas scalar_name states
               additional_states source dbg)).
Proof.
  intros Hsrc Hrho.
  assert (external_source self scalar_name states = Ok (zeros_like rho))
    as Hext.
  { unfold external_source.
    by rewrite (getitem_Some _ _ _ Hsrc), (getitem_Some _ _ _ Hrho). }
  exists (zeros_like rho). split; [|split; [|split]].
  - unfold zeros_like, map_structure1. by rewrite length_fmap.
  - intros i x. unfold zeros_like, map_structure1.
    rewrite list_lookup_fmap. destruct (rho !! i); naive_solver.
  - done.
  - by apply scalar_update_ok.
Qed.
End rhs_claims.

(** ** Boundary and source registries *)

Section keys_helper.
Import BoundaryConditionKeysHelper.
Variable generate_variable_key : string -> nat -> nat -> string.
Variables (additional_states : FlowFieldMap) (halo_width : nat).

Lemma refresh_face_idemp varname dim face (slot : BCFace) :
  refresh_face generate_variable_key additional_states varname dim face
    (refresh_face generate_variable_key additional_states varname dim face
       slot) =
  refresh_face generate_variable_key additional_states varname dim face slot.
Proof.
  unfold refresh_face. destruct slot as [[[] v]|]; try done.
  destruct (additional_states !! _) eqn:Hk; by rewrite ?Hk.
Qed.

Lemma refresh_variable_idemp varname (bc_val : BCVal) :
  refresh_variable generate_variable_key additional_states varname
    (refresh_variable generate_variable_key additional_states varname
       bc_val) =
  refresh_variable generate_variable_key additional_states varname bc_val.
Proof.
  unfold refresh_variable. apply list_eq. intros dim.
  rewrite !list_lookup_imap. destruct (bc_val !! dim) as [faces|]; [|done].
  simpl. f_equal. apply list_eq. intros face.
  rewrite !list_lookup_imap. destruct (faces !! face) as [slot|]; [|done].
  simpl. f_equal. apply refresh_face_idemp.
Qed.

Lemma lookup_update_helper (bc : BCDict) varname :
  update_helper_variable_from_additional_states generate_variable_key
    additional_states halo_width bc !! varname =
  refresh_variable generate_variable_key additional_states varname
    <$> bc !! varname.
Proof.
  unfold update_helper_variable_from_additional_states.
  rewrite map_lookup_imap. by destruct (bc !! varname).
Qed.

Lemma update_helper_idemp (bc : BCDict) :
  update_helper_variable_from_additional_states generate_variable_key
    additional_states halo_width
    (update_helper_variable_from_additional_states generate_variable_key
       additional_states halo_width bc) =
  update_helper_variable_from_additional_states generate_variable_key
    additional_states halo_width bc.
Proof.
  apply map_eq. intros varname. rewrite !lookup_update_helper.
  destruct (bc !! varname); [|done]. simpl.
  by rewrite refresh_variable_idemp.
Qed.
End keys_helper.

Section registries.
Context {env : Collaborators}.

Lemma init_bc_lookup params ib dbg name :
  is_Some (_bc (__init__ params ib dbg) !! name) ↔
  name ∈ transport_scalars_names params ∧ is_Some (bc params !! name).
Proof.
  simpl. split.
  - intros [v Hv]. apply map_lookup_filter_Some in Hv as [Hv Hin].
    split; [done | by exists v].
  - intros [Hin [v Hv]]. exists v. by apply map_lookup_filter_Some.
Qed.

Lemma prestep_bc_lookup self replica_id replicas additional_states name :
  is_Some (_bc (prestep self replica_id replicas additional_states) !! name)
  ↔ is_Some (_bc self !! name).
Proof. simpl. rewrite lookup_update_helper. apply fmap_is_Some. Qed.

Lemma reachable_bc_lookup params ib dbg self name :
  reachable params ib dbg self ->
  is_Some (_bc self !! name) ↔
  name ∈ transport_scalars_names params ∧ is_Some (bc params !! name).
Proof.
  induction 1 as [|self rid reps additional_states _ IH].
  - apply init_bc_lookup.
  - by rewrite prestep_bc_lookup.
Qed.

Lemma reachable_params params ib dbg self :
  reachable params ib dbg self -> _params self = params.
Proof. by induction 1. Qed.

(** C6.  A second [prestep] with the same additional states leaves the
    object, hence its boundary-condition and source registries, as the
    first one left it: nothing accumulates. *)
Theorem prestep_idempotent self replica_id replicas replica_id' replicas'
    (additional_states : FlowFieldMap) :
  prestep (prestep self replica_id replicas additional_states)
    replica_id' replicas' additional_states =
  prestep self replica_id replicas additional_states.
Proof.
  unfold prestep. simpl. f_equal.
  - apply update_helper_idemp.
  - by rewrite (assoc_L (∪)), (idemp_L (∪)).
Qed.

(** C7 (as amended).  After the constructor and any number of [prestep]
    calls, the registry that [prestep] leaves has an entry for a name
    exactly when the name is in the list of transported scalars and the
    configured boundary conditions have an entry for it.  Hence, when the
    configured boundary conditions cover the transported scalars, it has
    an entry for every transported scalar and for no other name. *)
Theorem prestep_registry_names params ib dbg self replica_id replicas
    (additional_states : FlowFieldMap) (name : string) :
  reachable params ib dbg self ->
  (is_Some (_bc (prestep self replica_id replicas additional_states) !! name)
   ↔ name ∈ transport_scalars_names (_params self) ∧
     is_Some (bc (_params self) !! name))
  ∧
  ((∀ n, n ∈ transport_scalars_names params -> is_Some (bc params !! n)) ->
   (is_Some (_bc (prestep self replica_id replicas additional_states) !! name)
    ↔ name ∈ transport_scalars_names (_params self))).
Proof.
  intros Hreach.
  rewrite prestep_bc_lookup, (reachable_bc_lookup _ _ _ _ _ Hreach).
  rewrite (reachable_params _ _ _ _ Hreach).
  split; [done|]. intros Hcover.
  split; [by intros [Hin _] | intros Hin; split; [done | by apply Hcover]].
Qed.

(** C10 (as amended).  [exchange_scalar_halos] raises the key error of
    the failed lookup for a name without an entry in the
    boundary-condition registry, before any exchange takes place; for a
    name with an entry it makes exactly one call of the exchange
    primitive, under the registered boundary condition, and returns its
    result.  In the registry that the constructor builds, a transported
    scalar has an entry, and the call succeeds, exactly when the
    configured boundary conditions have an entry for it: for a transported
    scalar without one the key error is raised. *)
Theorem exchange_scalar_halos_lookup self (f : FlowFieldVal)
    (name : string) replica_id replicas :
  (_bc self !! name = None ->
   exchange_scalar_halos self f name replica_id replicas =
   ([], Err (KeyError name)))
  ∧
  (∀ bc_f, _bc self !! name = Some bc_f ->
     exchange_scalar_halos self f name replica_id replicas =
     ([HaloExchangeCall f bc_f],
      Ok (inplace_halo_exchange f (_halo_dims self) replica_id replicas
            (_replica_dims self) (periodic_dims (_params self)) bc_f
            (halo_width (_params self)))))
  ∧
  (∀ params ib dbg,
     self = __init__ params ib dbg ->
     name ∈ transport_scalars_names params ->
     (∀ bc_f, bc params !! name = Some bc_f ->
        exchange_scalar_halos self f name replica_id replicas =
        ([HaloExchangeCall f bc_f],
         Ok (inplace_halo_exchange f [0; 1; 2]%nat replica_id replicas
               [0; 1; 2]%nat (periodic_dims params) bc_f
               (halo_width params))))
     ∧
     (bc params !! name = None ->
      exchange_scalar_halos self f name replica_id replicas =
      ([], Err (KeyError name)))).
Proof.
  split; [apply exchange_scalar_halos_missing|].
  split; [intros bc_f Hbc; by apply exchange_scalar_halos_ok|].
  intros params ib dbg -> Hname. split.
  - intros bc_f Hbc.
    apply (exchange_scalar_halos_ok (__init__ params ib dbg)).
    simpl. by apply map_lookup_filter_Some.
  - intros Hmissing. apply exchange_scalar_halos_missing. simpl.
    apply map_lookup_filter_None. left. done.
Qed.
End registries.

(** ** Call logs of composed computations *)

Section calls_facts.
Context {A B : Type}.

Lemma calls_bind (m : M A) (k : A -> M B) :
  calls (m ≫= k) =
  calls m ++ match outcome m with inr a => calls (k a) | inl _ => [] end.
Proof.
  destruct m as [l [e | a]]; simpl.
  - by rewrite app_nil_r.
  - unfold mbind, M_bind. by destruct (k a).
Qed.

Variable P : event -> Prop.

Lemma calls_satisfy_bind_outcome (m : M A) (k : A -> M B) :
  calls_satisfy P m -> (∀ a, outcome m = Ok a -> calls_satisfy P (k a)) ->
  calls_satisfy P (m ≫= k).
Proof.
  unfold calls_satisfy. intros Hm Hk. rewrite calls_bind.
  apply Forall_app. split; [done|].
  destruct (outcome m); [done | by apply Hk].
Qed.

Lemma calls_satisfy_bind (m : M A) (k : A -> M B) :
  calls_satisfy P m -> (∀ a, calls_satisfy P (k a)) ->
  calls_satisfy P (m ≫= k).
Proof. intros Hm Hk. apply calls_satisfy_bind_outcome; auto. Qed.

End calls_facts.

Lemma calls_satisfy_ret {A} (P : event -> Prop) (a : A) :
  calls_satisfy P (mret a : M A).
Proof. constructor. Qed.

Lemma calls_satisfy_lift {A} (P : event -> Prop) (r : result A) :
  calls_satisfy P (lift r).
Proof. constructor. Qed.

Lemma calls_satisfy_raise {A} (P : event -> Prop) (e : error) :
  calls_satisfy P (raise e : M A).
Proof. constructor. Qed.

Lemma calls_satisfy_foldM {A B} (P : event -> Prop) (f : B -> A -> M B)
    (l : list A) (b : B) :
  (∀ b a, calls_satisfy P (f b a)) -> calls_satisfy P (foldM f l b).
Proof.
  intros Hf. revert b.
  induction l as [|a l IH]; intros b; simpl.
  - apply calls_satisfy_ret.
  - apply calls_satisfy_bind; [apply Hf | apply IH].
Qed.

Lemma calls_satisfy_call (P : event -> Prop) (ev : event) :
  P ev -> calls_satisfy P (call ev).
Proof. intros. by repeat constructor. Qed.

(** ** The loop combinator *)

Section foldM_facts.
Context {A B : Type} (f : B -> A -> M B).

Lemma foldM_app (l1 l2 : list A) (b : B) :
  foldM f (l1 ++ l2) b = (foldM f l1 b ≫= foldM f l2).
Proof.
  revert b. induction l1 as [|a l1 IH]; intros b.
  - symmetry. apply bind_ret.
  - simpl. destruct (f b a) as [l [e | b']]; [done|].
    cbv [mbind M_bind]. rewrite IH. cbv [mbind M_bind].
    destruct (foldM f l1 b') as [l' [e | b'']]; [done|].
    destruct (foldM f l2 b'') as [l'' r]. by rewrite (assoc_L (++)).
Qed.

Lemma foldM_ext (g : B -> A -> M B) (l : list A) (b : B) :
  (∀ b a, f b a = g b a) -> foldM f l b = foldM g l b.
Proof.
  intros Hfg. revert b. induction l as [|a l IH]; intros b; [done|].
  simpl. rewrite Hfg. destruct (g b a) as [l1 [e | b']]; [done|].
  simpl. by rewrite IH.
Qed.

Lemma foldM_cons_inv_ok (a : A) (l : list A) (b r : B) (log : list event) :
  foldM f (a :: l) b = (log, Ok r) ->
  ∃ b' l1 l2, f b a = (l1, Ok b') ∧ foldM f l b' = (l2, Ok r) ∧
              log = l1 ++ l2.
Proof. simpl. intros Hf. by apply bind_inv_ok in Hf. Qed.

(** An invariant of the accumulator that every successful iteration
    preserves holds of the result of a successful loop. *)
Lemma foldM_invariant (I : B -> Prop) (l : list A) (b r : B)
    (log : list event) :
  (∀ b a l1 b', a ∈ l -> I b -> f b a = (l1, Ok b') -> I b') ->
  I b -> foldM f l b = (log, Ok r) -> I r.
Proof.
  revert b log. induction l as [|a l IH]; intros b log Hstep Hb.
  - by intros [= _ <-].
  - intros (b' & l1 & l2 & Hf & Hrest & _)%foldM_cons_inv_ok.
    eapply IH; [| |done].
    + intros b0 a0 l0 b0' Hin Hb0 Hf0.
      eapply Hstep; [by right | exact Hb0 | exact Hf0].
    + eapply Hstep; [by left | exact Hb | exact Hf].
Qed.

(** A loop all of whose iterations succeed succeeds. *)
Lemma foldM_total (I : B -> Prop) (l : list A) (b : B) :
  (∀ b a, a ∈ l -> I b -> ∃ l1 b', f b a = (l1, Ok b') ∧ I b') ->
  I b -> ∃ log r, foldM f l b = (log, Ok r) ∧ I r.
Proof.
  revert b. induction l as [|a l IH]; intros b Hstep Hb.
  - by exists [], b.
  - destruct (Hstep b a) as (l1 & b' & Hf & Hb'); [by left | done |].
    destruct (IH b') as (l2 & r & Hrest & Hr); [|done|].
    { intros ????. apply Hstep; [by right | done]. }
    exists (l1 ++ l2), r. split; [|done].
    simpl. by rewrite Hf, bind_ok, Hrest.
Qed.
End foldM_facts.

(** ** The prediction step, scalar by scalar *)

Lemma calls_nil {A} (m : M A) : calls_satisfy (fun _ => False) m -> calls m = [].
Proof.
  unfold calls_satisfy. destruct (calls m) as [|ev l]; [done|].
  by intros [[] _]%Forall_cons.
Qed.

Lemma average_ok (a b : FlowFieldVal) n :
  length a = n -> length b = n ->
  ∃ r, average a b = Ok r ∧ length r = n.
Proof.
  intros Ha Hb. eexists. unfold average.
  rewrite map_structure2_ok by lia. split; [done|].
  rewrite length_zip_with. lia.
Qed.

Lemma has_field_insert (m : FlowFieldMap) k k' (f : FlowFieldVal) n :
  length f = n -> (k' ≠ k -> has_field m k' n) ->
  has_field (<[k := f]> m) k' n.
Proof.
  intros Hf Hm. unfold has_field. destruct (decide (k = k')) as [<-|Hne].
  - exists f. by rewrite lookup_insert_eq.
  - rewrite lookup_insert_ne by done. by apply Hm.
Qed.

Section mid_point.
Context {env : Collaborators}.
Variables (self : Scalars) (states states_0 : FlowFieldMap).

Lemma mid_point_states_calls : calls (mid_point_states self states states_0) = [].
Proof.
  apply calls_nil. unfold mid_point_states.
  repeat (apply calls_satisfy_bind; [apply calls_satisfy_lift | intros ?]).
  apply calls_satisfy_foldM. intros sm sc.
  repeat (apply calls_satisfy_bind; [apply calls_satisfy_lift | intros ?]).
  apply calls_satisfy_ret.
Qed.

Lemma mid_point_states_ok replica_id replicas additional_states n :
  valid_inputs self replica_id replicas states states_0 additional_states n ->
  ∃ states_mid,
    mid_point_states self states states_0 = ([], Ok states_mid) ∧
    has_field states_mid _KEY_RHO n ∧
    ∀ sc_name, sc_name ∈ transport_scalars_names (_params self) ->
               has_field states_mid sc_name n.
Proof.
  intros Hvalid.
  destruct (valid_rho _ _ _ _ _ _ _ Hvalid) as (rho & Hrho & Hlrho).
  destruct (valid_rho_0 _ _ _ _ _ _ _ Hvalid) as (rho0 & Hrho0 & Hlrho0).
  destruct (valid_rho_thermal _ _ _ _ _ _ _ Hvalid) as (rt & Hrt & Hlrt).
  destruct (valid_rho_thermal_0 _ _ _ _ _ _ _ Hvalid) as (rt0 & Hrt0 & Hlrt0).
  destruct (average_ok rho rho0 n) as (rho_mid & Hrho_mid & Hlmid); [done..|].
  destruct (average_ok rt rt0 n) as (rt_mid & Hrt_mid & Hltmid); [done..|].
  pose (I := fun sm : FlowFieldMap =>
               ∀ k, k = _KEY_RHO ∨ k ∈ transport_scalars_names (_params self)
                    -> has_field sm k n).
  destruct (foldM_total
              (fun states_mid sc_name =>
                 sc ← lift (getitem states sc_name);
                 sc_0 ← lift (getitem states_0 sc_name);
                 sc_mid ← lift (average sc sc_0);
                 mret (<[sc_name := sc_mid]> states_mid))
              I (transport_scalars_names (_params self))
              (<["rho_thermal" := rt_mid]> (<[_KEY_RHO := rho_mid]> states)))
    as (log & sm & Hfold & Hsm).
  - intros sm sc Hin Hsm.
    destruct (valid_scalars _ _ _ _ _ _ _ Hvalid sc Hin)
      as ((f & Hf & Hlf) & (f0 & Hf0 & Hlf0) & _).
    destruct (average_ok f f0 n) as (f_mid & Hf_mid & Hlf_mid); [done..|].
    exists [], (<[sc := f_mid]> sm). split.
    + by rewrite (getitem_Some _ _ _ Hf), bind_lift_ok,
        (getitem_Some _ _ _ Hf0), bind_lift_ok, Hf_mid, bind_lift_ok.
    + intros k Hk. apply has_field_insert; [done|]. intros _. by apply Hsm.
  - intros k Hk. apply has_field_insert; [done|]. intros _.
    apply has_field_insert; [done|]. intros Hne.
    destruct Hk as [->|Hin]; [done|].
    by destruct (valid_scalars _ _ _ _ _ _ _ Hvalid k Hin) as (? & _).
  - exists sm.
    assert (mid_point_states self states states_0 = (log, Ok sm)) as Hrun.
    { unfold mid_point_states.
      by rewrite (getitem_Some _ _ _ Hrho), bind_lift_ok,
        (getitem_Some _ _ _ Hrho0), bind_lift_ok, Hrho_mid, bind_lift_ok,
        (getitem_Some _ _ _ Hrt), bind_lift_ok,
        (getitem_Some _ _ _ Hrt0), bind_lift_ok, Hrt_mid, bind_lift_ok. }
    pose proof mid_point_states_calls as Hcalls.
    rewrite Hrun in Hcalls. simpl in Hcalls. subst log.
    split; [done|]. split; [apply Hsm; by left | intros; apply Hsm; by right].
Qed.
End mid_point.

Lemma bind_ok_run {A B} (m : M A) (k : A -> M B) l a l' r :
  m = (l, Ok a) -> k a = (l', r) -> (m ≫= k) = (l ++ l', r).
Proof. intros -> Hk. by rewrite bind_ok, Hk. Qed.

Section prediction_scalar.
Context {env : Collaborators}.
Variables (self : Scalars) (replica_id : ReplicaId) (replicas : Replicas).
Variables (states states_0 additional_states states_mid : FlowFieldMap).
Variable n : nat.
Hypothesis Hvalid :
  valid_inputs self replica_id replicas states states_0 additional_states n.
Hypothesis Hmid_rho : has_field states_mid _KEY_RHO n.
Hypothesis Hmid_sc :
  ∀ sc_name, sc_name ∈ transport_scalars_names (_params self) ->
             has_field states_mid sc_name n.

Lemma scalar_diffusivity_ok (sc_name : string) (sc_mid : FlowFieldVal) :
  ∃ l diffusivity diff_t,
    scalar_diffusivity self replicas states additional_states sc_name
      sc_mid = (l, Ok (diffusivity, diff_t)) ∧
    l = if _use_sgs self then [SgsCall sc_mid] else [].
Proof using Hvalid.
  unfold scalar_diffusivity. destruct (_use_sgs self) eqn:Hsgs.
  - destruct (valid_velocity _ _ _ _ _ _ _ Hvalid Hsgs)
      as ((u & Hu) & (v & Hv) & (w & Hw)).
    eexists _, _, _.
    rewrite (getitem_Some _ _ _ Hu), bind_lift_ok,
      (getitem_Some _ _ _ Hv), bind_lift_ok,
      (getitem_Some _ _ _ Hw), bind_lift_ok, bind_call.
    split; reflexivity.
  - eexists _, _, _. split; reflexivity.
Qed.

Lemma external_source_ok (sc_name : string) :
  sc_name ∈ transport_scalars_names (_params self) ->
  ∃ source, external_source self sc_name states_mid = Ok source ∧
            length source = n.
Proof using Hvalid Hmid_rho.
  intros Hin. unfold external_source.
  destruct (valid_source _ _ _ _ _ _ _ Hvalid sc_name Hin)
    as (src & Hsrc & Hlen).
  rewrite (getitem_Some _ _ _ Hsrc). destruct src as [f|].
  - exists f. split; [done | by apply Hlen].
  - destruct Hmid_rho as (rho & Hrho & Hlrho).
    rewrite (getitem_Some _ _ _ Hrho). eexists. split; [done|].
    unfold zeros_like, map_structure1. by rewrite length_fmap.
Qed.

Lemma scalar_function_ok (sc_name : string)
    (diffusivity source phi : FlowFieldVal) :
  sc_name ∈ transport_scalars_names (_params self) ->
  length phi = n -> length source = n ->
  ∃ l rhs,
    scalar_function self replica_id replicas sc_name states_mid
      (additional_states ∪ {[ "diffusivity" := diffusivity ]}) source false
      phi = (l, Ok rhs) ∧
    length rhs = n ∧ Forall (fun ev => updates_field ev = false) l.
Proof using Hvalid Hmid_rho.
  intros Hin Hphi Hsrc.
  set (helper_states := additional_states ∪ {[ "diffusivity" := diffusivity ]}).
  destruct (valid_model _ _ _ _ _ _ _ Hvalid sc_name Hin) as (model & Hmodel).
  pose proof (valid_shapes _ _ _ _ _ _ _ Hvalid) as Hshapes.
  pose proof (convection_shape Hshapes model replica_id replicas phi
                states_mid helper_states) as Hconv.
  pose proof (diffusion_shape Hshapes model replica_id replicas phi
                states_mid helper_states) as Hdiff.
  pose proof (source_shape Hshapes model replica_id replicas phi
                states_mid helper_states) as Hadd.
  destruct (convection_fn _ _ _ _ _ _) as [[conv_x conv_y] conv_z] eqn:Econv.
  destruct (diffusion_fn _ _ _ _ _ _) as [[diff_x diff_y] diff_z] eqn:Ediff.
  simpl in Hconv, Hdiff.
  pose (rhs := tentative_rhs conv_x conv_y conv_z diff_x diff_y diff_z
                 (zip_with Qcplus source
                    (source_fn model replica_id replicas phi states_mid
                       helper_states))).
  destruct (_ib self) as [ib|] eqn:Hib.
  - destruct Hmid_rho as (rho & Hrho & Hlrho).
    assert (length rhs = n) as Hlrhs.
    { rewrite <- Hphi.
      apply (length_rhs source phi conv_x conv_y conv_z diff_x diff_y
               diff_z); try done; lia. }
    assert (length (zip_with Qcmult rho phi) = n) as Hlrp
      by (rewrite length_zip_with; lia).
    destruct (valid_ib _ _ _ _ _ _ _ Hvalid ib sc_name
                (zip_with Qcmult rho phi) rhs diffusivity Hib Hin Hlrp Hlrhs)
      as (f & Hf & Hlf).
    pose proof (scalar_function_ib self replica_id replicas sc_name
                  states_mid helper_states model source phi conv_x conv_y
                  conv_z diff_x diff_y diff_z _ Hmodel Econv Ediff eq_refl
                  ltac:(lia) ltac:(lia) Hconv Hdiff ib rho Hib Hrho
                  ltac:(lia)) as Hrun.
    cbv zeta in Hrun. fold rhs in Hrun. fold helper_states in Hf.
    rewrite (getitem_Some _ _ _ Hf) in Hrun.
    eexists _, f. split; [exact Hrun | split; [done|]].
    by repeat constructor.
  - exists [], rhs. split; [|split; [|constructor]].
    + eapply scalar_function_no_ib; try done; lia.
    + rewrite <- Hphi.
      apply (length_rhs source phi conv_x conv_y conv_z diff_x diff_y
               diff_z); try done; lia.
Qed.

Lemma scalar_function_terms_ok (sc_name : string)
    (helper_states : FlowFieldMap) (source phi : FlowFieldVal) :
  sc_name ∈ transport_scalars_names (_params self) ->
  length phi = n -> length source = n ->
  ∃ terms,
    scalar_function self replica_id replicas sc_name states_mid
      helper_states source true phi = ([], Ok terms).
Proof using Hvalid.
  intros Hin Hphi Hsrc.
  destruct (valid_model _ _ _ _ _ _ _ Hvalid sc_name Hin) as (model & Hmodel).
  pose proof (valid_shapes _ _ _ _ _ _ _ Hvalid) as Hshapes.
  pose proof (convection_shape Hshapes model replica_id replicas phi
                states_mid helper_states) as Hconv.
  pose proof (diffusion_shape Hshapes model replica_id replicas phi
                states_mid helper_states) as Hdiff.
  pose proof (source_shape Hshapes model replica_id replicas phi
                states_mid helper_states) as Hadd.
  destruct (convection_fn model replica_id replicas phi states_mid
              helper_states) as [[conv_x conv_y] conv_z] eqn:Econv.
  destruct (diffusion_fn model replica_id replicas phi states_mid
              helper_states) as [[diff_x diff_y] diff_z] eqn:Ediff.
  simpl in Hconv, Hdiff. eexists.
  eapply (scalar_function_terms self replica_id replicas sc_name states_mid
            helper_states model source phi conv_x conv_y conv_z
            diff_x diff_y diff_z); try done; lia.
Qed.

Lemma time_advance_ok (sc_name : string) (rhs : FlowFieldVal) :
  sc_name ∈ transport_scalars_names (_params self) ->
  length rhs = n ->
  ∃ l updated_vars,
    time_advance_cn_explicit self replica_id replicas states states_0 rhs
      sc_name = (l, Ok updated_vars).
Proof using Hvalid.
  intros Hin Hrhs.
  destruct (valid_rho _ _ _ _ _ _ _ Hvalid) as (rho & Hrho & Hlrho).
  destruct (valid_bc _ _ _ _ _ _ _ Hvalid sc_name Hin) as (bc_f & Hbc).
  destruct (valid_scalars _ _ _ _ _ _ _ Hvalid sc_name Hin)
    as (_ & (phi_old & Hphi & Hlphi) & Hcons).
  destruct (decide (solver_mode (_params self) = ANELASTIC)) as [Hmode|Hmode].
  - eexists _, _. eapply time_advance_anelastic; try done; lia.
  - destruct (Hcons Hmode) as (rho_phi & Hrho_phi & Hlrho_phi).
    eexists _, _. eapply time_advance_conservative; try done; lia.
Qed.

Lemma prediction_step_scalar_ok (updated_scalars : FlowFieldMap)
    (sc_name : string) :
  sc_name ∈ transport_scalars_names (_params self) ->
  scalar_time_integration_scheme (_params self) sc_name =
    TIME_SCHEME_CN_EXPLICIT_ITERATION ->
  ∃ l updated_scalars',
    prediction_step_scalar self replica_id replicas states states_0
      additional_states states_mid updated_scalars sc_name =
    (l, Ok updated_scalars').
Proof using All.
  intros Hin Hcn.
  destruct (Hmid_sc sc_name Hin) as (sc_mid & Hsc_mid & Hlmid).
  destruct (scalar_diffusivity_ok sc_name sc_mid)
    as (l1 & diffusivity & diff_t & Hdiffusivity & _).
  destruct (external_source_ok sc_name Hin) as (source & Hsource & Hlsrc).
  destruct (scalar_function_ok sc_name diffusivity source sc_mid Hin Hlmid
              Hlsrc) as (l2 & rhs & Hrhs & Hlrhs & _).
  destruct (time_advance_ok sc_name rhs Hin Hlrhs) as (l3 & upd & Hupd).
  destruct (scalar_function_terms_ok sc_name
              (additional_states ∪ {[ "diffusivity" := diffusivity ]})
              source sc_mid Hin Hlmid Hlsrc) as (terms & Hterms).
  unfold prediction_step_scalar.
  destruct (_dbg self) as [dbg|]; eexists _, _;
    (rewrite (getitem_Some _ _ _ Hsc_mid), bind_lift_ok;
     eapply bind_ok_run; [exact Hdiffusivity|]; cbn beta iota zeta;
     rewrite (scalar_update_ok self replica_id replicas sc_name states_mid
                _ source false Hsource), bind_nil_ok;
     rewrite (bool_decide_eq_true_2 _ Hcn);
     eapply bind_ok_run;
     [ eapply bind_ok_run; [exact Hrhs|];
       eapply bind_ok_run; [exact Hupd | reflexivity] |]);
    cbn beta; [|reflexivity].
  rewrite (scalar_update_ok self replica_id replicas sc_name states_mid _
             source true Hsource), bind_nil_ok.
  eapply bind_ok_run; [exact Hterms|].
  rewrite bind_call. reflexivity.
Qed.

Lemma prediction_step_scalar_raises (updated_scalars : FlowFieldMap)
    (sc_name : string) :
  sc_name ∈ transport_scalars_names (_params self) ->
  scalar_time_integration_scheme (_params self) sc_name ≠
    TIME_SCHEME_CN_EXPLICIT_ITERATION ->
  ∃ l,
    prediction_step_scalar self replica_id replicas states states_0
      additional_states states_mid updated_scalars sc_name =
    (l, Err (ValueError
               (scalar_time_integration_scheme (_params self) sc_name))) ∧
    kind_of <$> l = if _use_sgs self then [SGS] else [].
Proof using All.
  intros Hin Hcn.
  destruct (Hmid_sc sc_name Hin) as (sc_mid & Hsc_mid & Hlmid).
  destruct (scalar_diffusivity_ok sc_name sc_mid)
    as (l1 & diffusivity & diff_t & Hdiffusivity & Hl1).
  destruct (external_source_ok sc_name Hin) as (source & Hsource & Hlsrc).
  exists (l1 ++ ([] ++ [])).
  split; [|rewrite !app_nil_r, Hl1; by destruct (_use_sgs self)].
  unfold prediction_step_scalar.
  rewrite (getitem_Some _ _ _ Hsc_mid), bind_lift_ok.
  eapply bind_ok_run; [exact Hdiffusivity|]. cbn beta iota zeta.
  rewrite (scalar_update_ok self replica_id replicas sc_name states_mid _
             source false Hsource), bind_nil_ok.
  by rewrite (bool_decide_eq_false_2 _ Hcn).
Qed.
End prediction_scalar.

(** ** Which collaborator calls a step makes *)

Create HintDb calls.
#[global] Hint Resolve calls_satisfy_ret calls_satisfy_lift
  calls_satisfy_raise : calls.
#[global] Hint Extern 1 (calls_satisfy _ (call _)) =>
  apply calls_satisfy_call; reflexivity : calls.

Ltac calls_bind :=
  first [ solve [auto with calls]
        | apply calls_satisfy_bind; [solve [auto with calls] | intros ?] ].

Section step_calls.
Context {env : Collaborators}.
Variables (self : Scalars) (replica_id : ReplicaId) (replicas : Replicas).

(** No call of [update_states] by the corrector. *)
#[local] Abbreviation quiet := (fun ev : event => is_update_states ev = false).

Lemma exchange_scalar_halos_quiet f name :
  calls_satisfy quiet
    (exchange_scalar_halos self f name replica_id replicas).
Proof.
  unfold exchange_scalar_halos, _exchange_halos.
  repeat calls_bind; auto with calls.
Qed.

Lemma scalar_function_quiet scalar_name states additional_states source
    dbg phi :
  calls_satisfy quiet
    (scalar_function self replica_id replicas scalar_name states
       additional_states source dbg phi).
Proof.
  unfold scalar_function. do 2 calls_bind.
  destruct dbg; [auto with calls|]. calls_bind.
  destruct (_ib self); cbn zeta; repeat calls_bind; auto with calls.
Qed.

#[local] Hint Resolve exchange_scalar_halos_quiet scalar_function_quiet
  : calls.

Lemma time_advance_quiet states states_0 rhs sc_name :
  calls_satisfy quiet
    (time_advance_cn_explicit self replica_id replicas states states_0 rhs
       sc_name).
Proof.
  unfold time_advance_cn_explicit.
  case_bool_decide; cbn zeta; repeat calls_bind; auto with calls.
Qed.

Lemma scalar_update_quiet scalar_name states additional_states dbg :
  calls_satisfy quiet
    (_scalar_update self replica_id replicas scalar_name states
       additional_states dbg).
Proof. unfold _scalar_update. repeat calls_bind; auto with calls. Qed.

Lemma scalar_diffusivity_quiet states additional_states sc_name sc_mid :
  calls_satisfy quiet
    (scalar_diffusivity self replicas states additional_states sc_name
       sc_mid).
Proof.
  unfold scalar_diffusivity.
  destruct (_use_sgs self); cbn zeta; repeat calls_bind; auto with calls.
Qed.

#[local] Hint Resolve time_advance_quiet scalar_diffusivity_quiet : calls.

Lemma prediction_step_scalar_quiet states states_0 additional_states
    states_mid updated_scalars sc_name :
  calls_satisfy quiet
    (prediction_step_scalar self replica_id replicas states states_0
       additional_states states_mid updated_scalars sc_name).
Proof.
  unfold prediction_step_scalar. do 2 calls_bind.
  destruct a0 as [diffusivity diff_t]. cbn zeta.
  apply calls_satisfy_bind_outcome;
    [apply (scalar_update_quiet _ _ _ false)|].
  intros scalar_rhs_fn Hfn.
  apply (scalar_update_outcome _ _ _ _ _ _ false) in Hfn
    as (source & _ & ->).
  apply calls_satisfy_bind.
  - destruct (bool_decide _); [|auto with calls].
    apply calls_satisfy_bind;
      [apply (scalar_function_quiet _ _ _ _ false) | intros rhs].
    repeat calls_bind.
  - intros ?. destruct (_dbg self); [|auto with calls].
    apply calls_satisfy_bind_outcome;
      [apply (scalar_update_quiet _ _ _ true)|].
    intros terms_fn Hfn.
    apply (scalar_update_outcome _ _ _ _ _ _ true) in Hfn
      as (source' & _ & ->).
    apply calls_satisfy_bind;
      [apply (scalar_function_quiet _ _ _ _ true) | intros terms].
    repeat calls_bind.
Qed.

Lemma prediction_loop_quiet states states_0 additional_states states_mid
    names updated_scalars :
  calls_satisfy quiet
    (foldM (prediction_step_scalar self replica_id replicas states states_0
              additional_states states_mid) names updated_scalars).
Proof.
  apply calls_satisfy_foldM. intros. apply prediction_step_scalar_quiet.
Qed.
End step_calls.

(** ** What a successful step has done *)

Lemma bind_lift_inv_ok {A B} (r : result A) (k : A -> M B) l b :
  (lift r ≫= k) = (l, Ok b) -> ∃ a, r = Ok a ∧ k a = (l, Ok b).
Proof.
  destruct r as [e | a]; [done|]. rewrite bind_lift_ok. eauto.
Qed.

Lemma bind_call_inv_ok {B} (ev : event) (k : unit -> M B) l b :
  (call ev ≫= k) = (l, Ok b) -> ∃ l', k tt = (l', Ok b) ∧ l = ev :: l'.
Proof.
  rewrite bind_call. destruct (k tt) as [l' r]. simpl. intros [= <- ->]. eauto.
Qed.

Lemma ret_inv_ok {A} (a b : A) l : (mret a : M A) = (l, Ok b) -> l = [] ∧ a = b.
Proof. by intros [= <- <-]. Qed.

Lemma map_structure3_inv fn (a b c r : FlowFieldVal) :
  map_structure3 fn a b c = Ok r ->
  length a = length b ∧ length a = length c ∧
  r = ap_structure (zip_with fn a b) c.
Proof.
  unfold map_structure3, same_structure.
  do 2 (case_bool_decide; simpl; [|discriminate]). by intros [= <-].
Qed.

Section time_advance_inversion.
Context {env : Collaborators}.
Variables (self : Scalars) (replica_id : ReplicaId) (replicas : Replicas).
Variables (states states_0 : FlowFieldMap).

Lemma time_advance_anelastic_inv rhs sc_name l updated_vars :
  solver_mode (_params self) = ANELASTIC ->
  time_advance_cn_explicit self replica_id replicas states states_0 rhs
    sc_name = (l, Ok updated_vars) ->
  ∃ new_sc, updated_vars = {[ sc_name := new_sc ]}.
Proof.
  intros Hmode. unfold time_advance_cn_explicit.
  rewrite (bool_decide_eq_true_2 _ Hmode).
  intros (rho & _ & Hrun)%bind_lift_inv_ok.
  apply bind_lift_inv_ok in Hrun as (sc_0 & _ & Hrun).
  apply bind_lift_inv_ok in Hrun as (new_sc & _ & Hrun).
  apply bind_inv_ok in Hrun as (new_sc' & l1 & l2 & _ & Hret & _).
  apply ret_inv_ok in Hret as [_ <-]. eauto.
Qed.

Lemma time_advance_conservative_inv rhs sc_name l updated_vars :
  solver_mode (_params self) ≠ ANELASTIC ->
  time_advance_cn_explicit self replica_id replicas states states_0 rhs
    sc_name = (l, Ok updated_vars) ->
  ∃ rho rho_phi_old bc_f,
    states !! _KEY_RHO = Some rho ∧
    states_0 !! rho_ sc_name = Some rho_phi_old ∧
    _bc self !! sc_name = Some bc_f ∧
    length rho_phi_old = length rhs ∧ length rho = length rhs ∧
    let rho_phi_new :=
      zip_with (fun a b => (a + dt (_params self) * b)%Qc) rho_phi_old rhs in
    let phi_new := zip_with Qcdiv rho_phi_new rho in
    l = [HaloExchangeCall phi_new bc_f] ∧
    updated_vars =
      <[sc_name := exchanged self phi_new bc_f replica_id replicas]>
        {[ rho_ sc_name := rho_phi_new ]}.
Proof.
  intros Hmode Hrun.
  assert (∃ rho rho_phi_old bc_f,
            states !! _KEY_RHO = Some rho ∧
            states_0 !! rho_ sc_name = Some rho_phi_old ∧
            _bc self !! sc_name = Some bc_f ∧
            length rho_phi_old = length rhs ∧ length rho = length rhs)
    as (rho & rho_phi_old & bc_f & Hrho & Hold & Hbc & Hl1 & Hl2).
  { revert Hrun. unfold time_advance_cn_explicit.
    rewrite (bool_decide_eq_false_2 _ Hmode).
    intros (rho_sc_0 & Hold%getitem_inv & Hrun)%bind_lift_inv_ok.
    apply bind_lift_inv_ok in Hrun
      as (new_sc & [Hl1 ->]%map_structure2_inv & Hrun).
    apply bind_lift_inv_ok in Hrun as (rho_sc & Hrho_sc%getitem_inv & Hrun).
    rewrite lookup_singleton_eq in Hrho_sc. injection Hrho_sc as <-.
    apply bind_lift_inv_ok in Hrun as (rho & Hrho%getitem_inv & Hrun).
    apply bind_lift_inv_ok in Hrun
      as (sc & [Hl2 ->]%map_structure2_inv & Hrun).
    apply bind_inv_ok in Hrun as (sc' & l1 & l2 & Hex & _ & _).
    apply exchange_scalar_halos_inv in Hex as (bc_f & Hbc & _ & _).
    exists rho, rho_sc_0, bc_f. rewrite length_zip_with in Hl2.
    repeat split; try done. lia. }
  exists rho, rho_phi_old, bc_f. repeat (split; [done|]).
  rewrite (time_advance_conservative _ _ _ _ _ _ _ _ _ bc_f Hmode Hrho Hold
             Hbc Hl1 Hl2) in Hrun.
  by injection Hrun as <- <-.
Qed.
End time_advance_inversion.

Section prediction_inversion.
Context {env : Collaborators}.
Variables (self : Scalars) (replica_id : ReplicaId) (replicas : Replicas).
Variables (states states_0 additional_states states_mid : FlowFieldMap).

(** A successful iteration ran under the Crank-Nicolson scheme, and put
    the variables of one time advance, and the debug terms when a debug
    hook is attached, on top of the dict it was given. *)
Lemma prediction_step_scalar_inv updated_scalars sc_name l out :
  prediction_step_scalar self replica_id replicas states states_0
    additional_states states_mid updated_scalars sc_name = (l, Ok out) ->
  scalar_time_integration_scheme (_params self) sc_name =
    TIME_SCHEME_CN_EXPLICIT_ITERATION ∧
  ∃ rhs l' updated_vars extra,
    time_advance_cn_explicit self replica_id replicas states states_0 rhs
      sc_name = (l', Ok updated_vars) ∧
    out = extra ∪ (updated_vars ∪ updated_scalars) ∧
    (_dbg self = None -> extra = ∅).
Proof.
  unfold prediction_step_scalar.
  intros (sc_mid & _ & Hrun)%bind_lift_inv_ok.
  apply bind_inv_ok in Hrun as ([d diff_t] & l1 & l2 & _ & Hrun & ->).
  cbn beta iota zeta in Hrun.
  apply bind_inv_ok in Hrun as (fn & l3 & l4 & _ & Hrun & ->).
  apply bind_inv_ok in Hrun as (upd_sc & l5 & l6 & Hadv & Hdbg & ->).
  case_bool_decide as Hcn; [|discriminate].
  apply bind_inv_ok in Hadv as (rhs & l7 & l8 & _ & Hadv & ->).
  apply bind_inv_ok in Hadv as (upd & l9 & l10 & Hupd & Hret & ->).
  apply ret_inv_ok in Hret as [-> <-].
  split; [done|]. exists rhs, l9, upd.
  destruct (_dbg self) as [dbg|].
  - apply bind_inv_ok in Hdbg as (terms_fn & l11 & l12 & _ & Hdbg & ->).
    apply bind_inv_ok in Hdbg as (terms & l13 & l14 & _ & Hdbg & ->).
    apply bind_call_inv_ok in Hdbg as (l15 & Hret & ->).
    apply ret_inv_ok in Hret as [-> <-].
    eexists. by repeat split.
  - apply ret_inv_ok in Hdbg as [-> <-].
    exists ∅. by rewrite (left_id_L ∅ (∪)).
Qed.
End prediction_inversion.

(** ** The prediction step as a whole *)

Section prediction_step_facts.
Context {env : Collaborators}.
Variables (self : Scalars) (replica_id : ReplicaId) (replicas : Replicas).
Variables (states states_0 additional_states : FlowFieldMap).

Lemma prediction_loop_ok n states_mid names updated_scalars :
  valid_inputs self replica_id replicas states states_0 additional_states n ->
  has_field states_mid _KEY_RHO n ->
  (∀ sc_name, sc_name ∈ transport_scalars_names (_params self) ->
              has_field states_mid sc_name n) ->
  (∀ sc_name, sc_name ∈ names ->
     sc_name ∈ transport_scalars_names (_params self) ∧
     scalar_time_integration_scheme (_params self) sc_name =
       TIME_SCHEME_CN_EXPLICIT_ITERATION) ->
  ∃ l out,
    foldM (prediction_step_scalar self replica_id replicas states states_0
             additional_states states_mid) names updated_scalars =
    (l, Ok out).
Proof.
  intros Hvalid Hrho Hsc Hnames.
  destruct (foldM_total
              (prediction_step_scalar self replica_id replicas states
                 states_0 additional_states states_mid)
              (fun _ => True) names updated_scalars)
    as (l & out & Hrun & _); [|done|by eauto].
  intros acc sc_name [Hin Hcn]%Hnames _.
  destruct (prediction_step_scalar_ok self replica_id replicas states
              states_0 additional_states states_mid n Hvalid Hrho Hsc acc
              sc_name Hin Hcn) as (l & out & Hrun).
  by exists l, out.
Qed.

(** With valid inputs and the Crank-Nicolson scheme configured for every
    transported scalar, the prediction step returns a state map. *)
Lemma prediction_step_ok n :
  valid_inputs self replica_id replicas states states_0 additional_states n ->
  (∀ sc_name, sc_name ∈ transport_scalars_names (_params self) ->
     scalar_time_integration_scheme (_params self) sc_name =
       TIME_SCHEME_CN_EXPLICIT_ITERATION) ->
  ∃ l out,
    prediction_step self replica_id replicas states states_0
      additional_states = (l, Ok out).
Proof.
  intros Hvalid Hcn.
  destruct (mid_point_states_ok self states states_0 replica_id replicas
              additional_states n Hvalid) as (states_mid & Hmid & Hrho & Hsc).
  destruct (prediction_loop_ok n states_mid
              (transport_scalars_names (_params self)) ∅ Hvalid Hrho Hsc)
    as (l & upd & Hloop); [by auto|].
  unfold prediction_step. rewrite Hmid, bind_nil_ok.
  destruct (_ib self) as [ib|]; eexists _, _.
  - eapply bind_ok_run; [exact Hloop|]. by rewrite bind_call.
  - eapply bind_ok_run; [exact Hloop|]. reflexivity.
Qed.

Lemma prediction_loop_schemes states_mid names updated_scalars l out :
  foldM (prediction_step_scalar self replica_id replicas states states_0
           additional_states states_mid) names updated_scalars = (l, Ok out) ->
  ∀ s, s ∈ names ->
    scalar_time_integration_scheme (_params self) s =
      TIME_SCHEME_CN_EXPLICIT_ITERATION.
Proof.
  revert updated_scalars l.
  induction names as [|a names IH]; intros acc l Hrun s Hs;
    [by apply not_elem_of_nil in Hs|].
  apply foldM_cons_inv_ok in Hrun as (acc' & l1 & l2 & Hstep & Hrest & _).
  apply elem_of_cons in Hs as [->|Hs]; [|by eapply IH].
  by apply prediction_step_scalar_inv in Hstep as [Hcn _].
Qed.

End prediction_step_facts.

(** ** The correction step *)

Section correction_step_facts.
Context {env : Collaborators}.
Variables (self : Scalars) (replica_id : ReplicaId) (replicas : Replicas).
Variables (states additional_states : FlowFieldMap).

Lemma correction_step_scalar_inv scalars sc_name l out :
  correction_step_scalar self replica_id replicas states additional_states
    scalars sc_name = (l, Ok out) ->
  ∃ rho_sc rho bc_f sc_buf,
    states !! rho_ sc_name = Some rho_sc ∧
    states !! _KEY_RHO = Some rho ∧
    _bc self !! sc_name = Some bc_f ∧
    length rho_sc = length rho ∧
    out = <[sc_name := exchanged self sc_buf bc_f replica_id replicas]>
            scalars ∧
    match _ib self with
    | None =>
        sc_buf = zip_with Qcdiv rho_sc rho ∧
        l = [HaloExchangeCall sc_buf bc_f]
    | Some ib =>
        update_states ib replica_id replicas
          {[ sc_name := zip_with Qcdiv rho_sc rho ]} additional_states
          (_bc self) !! sc_name = Some sc_buf ∧
        l = [IbUpdateStatesCall {[ sc_name := zip_with Qcdiv rho_sc rho ]};
             HaloExchangeCall sc_buf bc_f]
    end.
Proof.
  unfold correction_step_scalar.
  intros (rho_sc & Hrho_sc%getitem_inv & Hrun)%bind_lift_inv_ok.
  apply bind_lift_inv_ok in Hrun as (rho & Hrho%getitem_inv & Hrun).
  apply bind_lift_inv_ok in Hrun as (q & [Hlen ->]%map_structure2_inv & Hrun).
  apply bind_inv_ok in Hrun as (sc_buf & l1 & l2 & Hib & Hrun & ->).
  apply bind_inv_ok in Hrun as (sc & l3 & l4 & Hex & Hret & ->).
  apply ret_inv_ok in Hret as [-> <-].
  apply exchange_scalar_halos_inv in Hex as (bc_f & Hbc & -> & ->).
  exists rho_sc, rho, bc_f, sc_buf. repeat (split; [done|]).
  destruct (_ib self) as [ib|].
  - cbn zeta in Hib. apply bind_call_inv_ok in Hib as (l5 & Hget & ->).
    injection Hget as <- Hget%getitem_inv. by split.
  - apply ret_inv_ok in Hib as [-> <-]. by split.
Qed.


Lemma correction_loop_frame names scalars l out k :
  k ∉ names ->
  foldM (correction_step_scalar self replica_id replicas states
           additional_states) names scalars = (l, Ok out) ->
  out !! k = scalars !! k.
Proof.
  revert scalars l. induction names as [|sc_name names IH]; intros scalars l.
  - by intros _ [= _ <-].
  - intros [Hne Hk]%not_elem_of_cons.
    intros (acc & l1 & l2 & Hstep & Hrest & _)%foldM_cons_inv_ok.
    apply correction_step_scalar_inv in Hstep
      as (? & ? & ? & ? & _ & _ & _ & _ & -> & _).
    rewrite (IH _ _ Hk Hrest). by rewrite lookup_insert_ne.
Qed.

End correction_step_facts.

(** ** The keys and values of the predicted state *)

Lemma rho_inj (a b : string) : rho_ a = rho_ b -> a = b.
Proof. unfold rho_. cbn. intros Heq. by simplify_eq. Qed.

Section prediction_loop_facts.
Context {env : Collaborators}.
Variables (self : Scalars) (replica_id : ReplicaId) (replicas : Replicas).
Variables (states states_0 additional_states states_mid : FlowFieldMap).

Lemma time_advance_dom rhs sc_name l updated_vars :
  time_advance_cn_explicit self replica_id replicas states states_0 rhs
    sc_name = (l, Ok updated_vars) ->
  dom updated_vars = advanced_keys self sc_name.
Proof.
  intros Hrun. unfold advanced_keys. case_bool_decide as Hmode.
  - apply time_advance_anelastic_inv in Hrun as (new_sc & ->); [|done].
    by rewrite dom_singleton_L.
  - apply time_advance_conservative_inv in Hrun
      as (? & ? & ? & _ & _ & _ & _ & _ & _ & ->); [|done].
    rewrite dom_insert_L, dom_singleton_L. set_solver.
Qed.

End prediction_loop_facts.

(** ** The prediction step, from its result *)

Section step_claims.
Context {env : Collaborators}.
Variables (self : Scalars) (replica_id : ReplicaId) (replicas : Replicas).
Variables (states states_0 additional_states : FlowFieldMap).

(** A successful prediction step is a successful loop over the
    transported scalars, followed by the state correction of the
    immersed boundary when there is one. *)
Lemma prediction_step_inv log out :
  prediction_step self replica_id replicas states states_0
    additional_states = (log, Ok out) ->
  ∃ states_mid l updated_scalars,
    foldM (prediction_step_scalar self replica_id replicas states states_0
             additional_states states_mid)
          (transport_scalars_names (_params self)) ∅ =
      (l, Ok updated_scalars) ∧
    match _ib self with
    | Some ib =>
        log = l ++ [IbUpdateStatesCall updated_scalars] ∧
        out = update_states ib replica_id replicas updated_scalars
                additional_states (_bc self)
    | None => log = l ∧ out = updated_scalars
    end.
Proof.
  unfold prediction_step.
  intros (states_mid & l1 & l2 & Hmid & Hrun & ->)%bind_inv_ok.
  pose proof (mid_point_states_calls self states states_0) as Hcalls.
  rewrite Hmid in Hcalls. simpl in Hcalls. subst l1.
  apply bind_inv_ok in Hrun as (upd & l3 & l4 & Hloop & Hfinal & ->).
  exists states_mid, l3, upd. split; [done|].
  destruct (_ib self) as [ib|].
  - apply bind_call_inv_ok in Hfinal as (l5 & Hret & ->).
    apply ret_inv_ok in Hret as [-> <-]. by split.
  - apply ret_inv_ok in Hfinal as [-> <-]. by rewrite app_nil_r.
Qed.

End step_claims.

(** * Further properties of the orchestrator *)

(** ** The call log of a successful step *)

Section step_logs.
Context {env : Collaborators}.
Variables (self : Scalars) (replica_id : ReplicaId) (replicas : Replicas).

Lemma scalar_diffusivity_log states additional_states sc_name sc_mid l r :
  scalar_diffusivity self replicas states additional_states sc_name sc_mid =
    (l, Ok r) ->
  l = if _use_sgs self then [SgsCall sc_mid] else [].
Proof.
  unfold scalar_diffusivity. destruct (_use_sgs self).
  - intros (u & _ & Hrun)%bind_lift_inv_ok.
    apply bind_lift_inv_ok in Hrun as (v & _ & Hrun).
    apply bind_lift_inv_ok in Hrun as (w & _ & Hrun).
    apply bind_call_inv_ok in Hrun as (l' & Hret & ->).
    by apply ret_inv_ok in Hret as [-> _].
  - by intros [-> _]%ret_inv_ok.
Qed.

Lemma scalar_function_log scalar_name states additional_states source dbg
    phi l r :
  scalar_function self replica_id replicas scalar_name states
    additional_states source dbg phi = (l, Ok r) ->
  kind_of <$> l =
  if negb dbg && configured (_ib self) then [IB_UPDATE_FORCING] else [].
Proof.
  unfold scalar_function.
  intros (model & _ & Hrun)%bind_lift_inv_ok.
  apply bind_lift_inv_ok in Hrun as (source_all & _ & Hrun).
  destruct dbg; simpl.
  - by apply ret_inv_ok in Hrun as [-> _].
  - apply bind_lift_inv_ok in Hrun as (rhs & _ & Hrun).
    destruct (_ib self) as [ib|]; simpl.
    + cbn zeta in Hrun.
      apply bind_lift_inv_ok in Hrun as (rho & _ & Hrun).
      apply bind_lift_inv_ok in Hrun as (rho_phi & _ & Hrun).
      apply bind_call_inv_ok in Hrun as (l' & Hget & ->).
      by injection Hget as <- _.
    + by apply ret_inv_ok in Hrun as [-> _].
Qed.

Lemma scalar_update_inv scalar_name states additional_states dbg l fn :
  _scalar_update self replica_id replicas scalar_name states
    additional_states dbg = (l, Ok fn) ->
  l = [] ∧
  ∃ source,
    external_source self scalar_name states = Ok source ∧
    fn = scalar_function self replica_id replicas scalar_name states
           additional_states source dbg.
Proof.
  destruct (external_source self scalar_name states) as [e | src] eqn:Hsrc.
  - by rewrite (scalar_update_err _ _ _ _ _ _ _ _ Hsrc).
  - rewrite (scalar_update_ok _ _ _ _ _ _ _ _ Hsrc). intros [= <- <-]. eauto.
Qed.

Lemma time_advance_log states states_0 rhs sc_name l updated_vars :
  time_advance_cn_explicit self replica_id replicas states states_0 rhs
    sc_name = (l, Ok updated_vars) ->
  ∃ f bc_f, _bc self !! sc_name = Some bc_f ∧ l = [HaloExchangeCall f bc_f].
Proof.
  destruct (decide (solver_mode (_params self) = ANELASTIC)) as [Hmode|Hmode].
  - unfold time_advance_cn_explicit. rewrite (bool_decide_eq_true_2 _ Hmode).
    intros (rho & _ & Hrun)%bind_lift_inv_ok.
    apply bind_lift_inv_ok in Hrun as (sc_0 & _ & Hrun).
    apply bind_lift_inv_ok in Hrun as (new_sc & _ & Hrun).
    apply bind_inv_ok in Hrun as (new_sc' & l1 & l2 & Hex & Hret & ->).
    apply ret_inv_ok in Hret as [-> _].
    apply exchange_scalar_halos_inv in Hex as (bc_f & Hbc & -> & _).
    by exists new_sc, bc_f.
  - intros (rho & rho_phi_old & bc_f & _ & _ & Hbc & _ & _ & Hl & _)
      %time_advance_conservative_inv; [|done].
    eauto.
Qed.

(** The calls of one successful iteration of the prediction loop. *)
Lemma prediction_step_scalar_log states states_0 additional_states states_mid
    updated_scalars sc_name l out :
  prediction_step_scalar self replica_id replicas states states_0
    additional_states states_mid updated_scalars sc_name = (l, Ok out) ->
  ∃ l_before f bc_f l_after,
    l = l_before ++ [HaloExchangeCall f bc_f] ++ l_after ∧
    _bc self !! sc_name = Some bc_f ∧
    kind_of <$> l_before =
      (if _use_sgs self then [SGS] else []) ++
      (if configured (_ib self) then [IB_UPDATE_FORCING] else []) ∧
    kind_of <$> l_after = (if configured (_dbg self) then [DBG] else []).
Proof.
  unfold prediction_step_scalar.
  intros (sc_mid & _ & Hrun)%bind_lift_inv_ok.
  apply bind_inv_ok in Hrun as ([d diff_t] & l1 & l2 & Hdiff & Hrun & ->).
  cbn beta iota zeta in Hrun.
  apply scalar_diffusivity_log in Hdiff as ->.
  apply bind_inv_ok in Hrun as (fn & l3 & l4 & Hfn & Hrun & ->).
  apply (scalar_update_inv _ _ _ false) in Hfn as (-> & source & _ & ->).
  apply bind_inv_ok in Hrun as (upd_sc & l5 & l6 & Hadv & Hdbg & ->).
  case_bool_decide as Hcn; [|discriminate].
  apply bind_inv_ok in Hadv as (rhs & l7 & l8 & Hrhs & Hadv & ->).
  apply (scalar_function_log _ _ _ _ false) in Hrhs. simpl in Hrhs.
  apply bind_inv_ok in Hadv as (upd & l9 & l10 & Hupd & Hret & ->).
  apply ret_inv_ok in Hret as [-> _].
  apply time_advance_log in Hupd as (f & bc_f & Hbc & ->).
  exists ((if _use_sgs self then [SgsCall sc_mid] else []) ++ l7), f, bc_f, l6.
  split; [by rewrite !app_nil_l, !app_nil_r, <- !(assoc_L (++))|].
  split; [done|]. split.
  - rewrite fmap_app, Hrhs. by destruct (_use_sgs self).
  - destruct (_dbg self) as [dbg|]; simpl.
    + apply bind_inv_ok in Hdbg as (terms_fn & l11 & l12 & Hfn & Hdbg & ->).
      apply (scalar_update_inv _ _ _ true) in Hfn
        as (-> & source' & _ & ->).
      apply bind_inv_ok in Hdbg as (terms & l13 & l14 & Hterms & Hdbg & ->).
      apply (scalar_function_log _ _ _ _ true) in Hterms. simpl in Hterms.
      apply fmap_nil_inv in Hterms as ->.
      apply bind_call_inv_ok in Hdbg as (l15 & Hret & ->).
      by apply ret_inv_ok in Hret as [-> _].
    + by apply ret_inv_ok in Hdbg as [-> _].
Qed.
End step_logs.

Section step_call_order.
Context {env : Collaborators}.
Variables (self : Scalars) (replica_id : ReplicaId) (replicas : Replicas).
Variables (states states_0 additional_states : FlowFieldMap).

(** The exchange [ev] is made under the boundary condition registered for
    the scalar [sc_name]. *)
#[local] Abbreviation exchange_for := (fun (ev : event) (sc_name : string) =>
  ∃ f bc_f, ev = HaloExchangeCall f bc_f ∧ _bc self !! sc_name = Some bc_f).

Lemma filter_halo_of_kinds (l : list event) (ks : list call_kind) :
  kind_of <$> l = ks -> HALO_EXCHANGE ∉ ks -> filter is_halo_exchange l = [].
Proof.
  intros <-. induction l as [|ev l IH]; [done|].
  rewrite fmap_cons, not_elem_of_cons. intros [Hev Hl].
  rewrite filter_cons. destruct ev; simpl in *; auto; done.
Qed.

Lemma prediction_loop_order states_mid names updated_scalars l out :
  foldM (prediction_step_scalar self replica_id replicas states states_0
           additional_states states_mid) names updated_scalars =
    (l, Ok out) ->
  kind_of <$> l =
    concat ((fun _ => prediction_scalar_kinds self) <$> names) ∧
  Forall2 exchange_for (filter is_halo_exchange l) names.
Proof.
  revert updated_scalars l.
  induction names as [|sc_name names IH]; intros acc l Hrun.
  - apply ret_inv_ok in Hrun as [-> _]. by split; [|constructor].
  - apply foldM_cons_inv_ok in Hrun as (acc' & l1 & l2 & Hstep & Hrest & ->).
    apply IH in Hrest as [Hkinds Hhalo].
    apply prediction_step_scalar_log in Hstep
      as (lb & f & bc_f & la & -> & Hbc & Hlb & Hla).
    split.
    + rewrite !fmap_app, Hkinds, Hlb, Hla. simpl.
      unfold prediction_scalar_kinds.
      by rewrite <- !(assoc_L (++)).
    + rewrite !filter_app.
      rewrite (filter_halo_of_kinds lb _ Hlb), (filter_halo_of_kinds la _ Hla).
      * simpl. constructor; [by exists f, bc_f|done].
      * destruct (configured (_dbg self)); set_solver.
      * destruct (_use_sgs self), (configured (_ib self)); set_solver.
Qed.

Lemma correction_step_scalar_log scalars sc_name l out :
  correction_step_scalar self replica_id replicas states additional_states
    scalars sc_name = (l, Ok out) ->
  ∃ l_before f bc_f,
    l = l_before ++ [HaloExchangeCall f bc_f] ∧
    _bc self !! sc_name = Some bc_f ∧
    kind_of <$> l_before =
      (if configured (_ib self) then [IB_UPDATE_STATES] else []).
Proof.
  unfold correction_step_scalar.
  intros (rho_sc & _ & Hrun)%bind_lift_inv_ok.
  apply bind_lift_inv_ok in Hrun as (rho & _ & Hrun).
  apply bind_lift_inv_ok in Hrun as (sc_buf & _ & Hrun).
  apply bind_inv_ok in Hrun as (sc_buf' & l1 & l2 & Hib & Hrun & ->).
  apply bind_inv_ok in Hrun as (sc & l3 & l4 & Hex & Hret & ->).
  apply ret_inv_ok in Hret as [-> _].
  apply exchange_scalar_halos_inv in Hex as (bc_f & Hbc & -> & _).
  exists l1, sc_buf', bc_f. rewrite app_nil_r. split; [done|]. split; [done|].
  destruct (_ib self) as [ib|]; simpl.
  - apply bind_call_inv_ok in Hib as (l' & Hget & ->).
    by injection Hget as <- _.
  - by apply ret_inv_ok in Hib as [-> _].
Qed.

Lemma correction_loop_order names scalars l out :
  foldM (correction_step_scalar self replica_id replicas states
           additional_states) names scalars = (l, Ok out) ->
  kind_of <$> l =
    concat ((fun _ => correction_scalar_kinds self) <$> names) ∧
  Forall2 exchange_for (filter is_halo_exchange l) names.
Proof.
  revert scalars l.
  induction names as [|sc_name names IH]; intros acc l Hrun.
  - apply ret_inv_ok in Hrun as [-> _]. by split; [|constructor].
  - apply foldM_cons_inv_ok in Hrun as (acc' & l1 & l2 & Hstep & Hrest & ->).
    apply IH in Hrest as [Hkinds Hhalo].
    apply correction_step_scalar_log in Hstep
      as (lb & f & bc_f & -> & Hbc & Hlb).
    split.
    + rewrite !fmap_app, Hkinds, Hlb. simpl.
      unfold correction_scalar_kinds.
      by rewrite <- !(assoc_L (++)).
    + rewrite !filter_app. rewrite (filter_halo_of_kinds lb _ Hlb).
      * simpl. constructor; [by exists f, bc_f|done].
      * destruct (configured (_ib self)); set_solver.
Qed.

(** X1.  The collaborator calls of a prediction step that returns follow
    one schedule, fixed by the configuration alone: for each transported
    scalar in the order of the list, the turbulence closure (when the
    sub-grid-scale model is in use), the forcing of the immersed boundary
    (when one is configured), one halo exchange, and the debug hook (when
    one is attached); after the loop, the state correction of the immersed
    boundary (when one is configured).  The fields do not change the
    schedule. *)
Theorem prediction_step_call_order log out :
  prediction_step self replica_id replicas states states_0
    additional_states = (log, Ok out) ->
  kind_of <$> log = prediction_step_kinds self.
Proof.
  intros (states_mid & l & updated_scalars & Hloop & Hib)%prediction_step_inv.
  apply prediction_loop_order in Hloop as [Hkinds _].
  unfold prediction_step_kinds. rewrite <- Hkinds.
  destruct (_ib self) as [ib|]; simpl.
  - destruct Hib as [-> _]. by rewrite fmap_app.
  - destruct Hib as [-> _]. by rewrite app_nil_r.
Qed.

(** X2.  The collaborator calls of a correction step that returns are, for
    each transported scalar in the order of the list, the state correction
    of the immersed boundary (when one is configured) followed by one halo
    exchange, and nothing else: no call of the turbulence model, of the
    forcing of the immersed boundary or of the debug hook.  Nor does the
    correction step depend on a closure: with other collaborators that
    have the same exchange primitive, whatever their convection, diffusion
    and source closures and their turbulence model, it makes the same
    calls and has the same outcome. *)
Theorem correction_step_call_order :
  (∀ log out,
     correction_step self replica_id replicas states states_0
       additional_states = (log, Ok out) ->
     kind_of <$> log = correction_step_kinds self)
  ∧
  (∀ env' : Collaborators,
     @inplace_halo_exchange env' = @inplace_halo_exchange env ->
     @correction_step env' self replica_id replicas states states_0
       additional_states =
     correction_step self replica_id replicas states states_0
       additional_states).
Proof.
  split.
  - intros log out. unfold correction_step.
    by intros [Hkinds _]%correction_loop_order.
  - intros env' Hexchange. unfold correction_step. apply foldM_ext.
    intros scalars sc_name.
    unfold correction_step_scalar, exchange_scalar_halos, _exchange_halos,
      exchanged.
    by rewrite Hexchange.
Qed.

(** X3.  A step that returns exchanges halos exactly once per transported
    scalar, in the order of the list, each time under the boundary
    condition that the registry holds for that scalar; this holds for the
    prediction step and for the correction step alike. *)
Theorem halo_exchange_per_scalar :
  (∀ log out,
     prediction_step self replica_id replicas states states_0
       additional_states = (log, Ok out) ->
     Forall2 exchange_for (filter is_halo_exchange log)
       (transport_scalars_names (_params self)))
  ∧
  (∀ log out,
     correction_step self replica_id replicas states states_0
       additional_states = (log, Ok out) ->
     Forall2 exchange_for (filter is_halo_exchange log)
       (transport_scalars_names (_params self))).
Proof.
  split; intros log out Hrun.
  - apply prediction_step_inv in Hrun
      as (states_mid & l & updated_scalars & Hloop & Hib).
    apply prediction_loop_order in Hloop as [_ Hhalo].
    destruct (_ib self) as [ib|]; destruct Hib as [-> _]; [|done].
    by rewrite filter_app, app_nil_r.
  - unfold correction_step in Hrun.
    by apply correction_loop_order in Hrun as [_ Hhalo].
Qed.
End step_call_order.

(** ** The iterations of a successful prediction step *)

Section prediction_runs.
Context {env : Collaborators}.
Variables (self : Scalars) (replica_id : ReplicaId) (replicas : Replicas).
Variables (states states_0 additional_states : FlowFieldMap).

(** A successful iteration of the loop is an [iteration]: its one halo
    exchange is that of the time advance, and it puts the variables of the
    time advance, then the debug terms, on top of the dict it was given. *)
Lemma prediction_step_scalar_run states_mid updated_scalars sc_name l out :
  prediction_step_scalar self replica_id replicas states states_0
    additional_states states_mid updated_scalars sc_name = (l, Ok out) ->
  ∃ run,
    iteration self replica_id replicas states states_0 additional_states
      states_mid sc_name run ∧
    filter is_halo_exchange l = [run.1.1] ∧
    out = run.2 ∪ (run.1.2 ∪ updated_scalars).
Proof.
  unfold prediction_step_scalar.
  intros (sc_mid & Hmid%getitem_inv & Hrun)%bind_lift_inv_ok.
  apply bind_inv_ok in Hrun as ([d diff_t] & l1 & l2 & Hdiff & Hrun & ->).
  cbn beta iota zeta in Hrun.
  apply bind_inv_ok in Hrun as (fn & l3 & l4 & Hfn & Hrun & ->).
  apply bind_inv_ok in Hrun as (upd_sc & l5 & l6 & Hadv & Hdbg & ->).
  case_bool_decide as Hcn; [|discriminate].
  apply bind_inv_ok in Hadv as (rhs & l7 & l8 & Hrhs & Hadv & ->).
  apply bind_inv_ok in Hadv as (upd & l9 & l10 & Hupd & Hret & ->).
  apply ret_inv_ok in Hret as [-> <-].
  destruct (time_advance_log _ _ _ _ _ _ _ _ _ Hupd) as (f & bc_f & _ & ->).
  assert (filter is_halo_exchange l1 = []) as Hl1.
  { rewrite (scalar_diffusivity_log _ _ _ _ _ _ _ _ Hdiff).
    by destruct (_use_sgs self). }
  assert (l3 = [] ∧ filter is_halo_exchange l7 = []) as [-> Hl7].
  { destruct (scalar_update_inv _ _ _ _ _ _ false _ _ Hfn)
      as (-> & source & _ & ->).
    split; [done|].
    apply (scalar_function_log _ _ _ _ _ _ _ false) in Hrhs.
    apply (filter_halo_of_kinds _ _ Hrhs).
    simpl. destruct (configured (_ib self)); set_solver. }
  assert (∃ terms,
            debug_terms self replica_id replicas states additional_states
              states_mid sc_name terms ∧
            filter is_halo_exchange l6 = [] ∧
            out = terms ∪ (upd ∪ updated_scalars))
    as (terms & Hterms & Hl6 & ->).
  { unfold debug_terms. destruct (_dbg self) as [dbg|].
    - apply bind_inv_ok in Hdbg as (terms_fn & l11 & l12 & Hfn' & Hdbg & ->).
      apply bind_inv_ok in Hdbg as (terms & l13 & l14 & Ht & Hdbg & ->).
      apply bind_call_inv_ok in Hdbg as (l15 & Hret & ->).
      apply ret_inv_ok in Hret as [-> <-].
      exists (update_scalar_terms dbg sc_name terms diff_t).
      split; [|split; [|done]].
      + exists diff_t, terms. split; [|done].
        by exists sc_mid, l1, d, l11, terms_fn, l13.
      + destruct (scalar_update_inv _ _ _ _ _ _ true _ _ Hfn')
          as (-> & source & _ & ->).
        apply (scalar_function_log _ _ _ _ _ _ _ true) in Ht.
        simpl in Ht. by apply fmap_nil_inv in Ht as ->.
    - apply ret_inv_ok in Hdbg as [-> <-]. exists ∅.
      by rewrite (left_id_L ∅ (∪)). }
  exists (HaloExchangeCall f bc_f, upd, terms). split; [split; [|done]|split].
  - exists diff_t, rhs. split; [|done].
    by exists sc_mid, l1, d, [], fn, l7.
  - rewrite !filter_app, Hl1, Hl7, Hl6. reflexivity.
  - reflexivity.
Qed.

Lemma prediction_loop_runs states_mid names updated_scalars l out :
  foldM (prediction_step_scalar self replica_id replicas states states_0
           additional_states states_mid) names updated_scalars =
    (l, Ok out) ->
  ∃ runs,
    Forall2 (iteration self replica_id replicas states states_0
               additional_states states_mid) names runs ∧
    filter is_halo_exchange l = (fun run => run.1.1) <$> runs ∧
    out = updated_by runs updated_scalars.
Proof.
  revert updated_scalars l.
  induction names as [|sc_name names IH]; intros acc l Hrun.
  - apply ret_inv_ok in Hrun as [-> <-]. exists []. by split; [constructor|].
  - apply foldM_cons_inv_ok in Hrun as (acc' & l1 & l2 & Hstep & Hrest & ->).
    apply prediction_step_scalar_run in Hstep as (run & Hit & Hl1 & ->).
    apply IH in Hrest as (runs & Hruns & Hl2 & ->).
    exists (run :: runs). split; [by constructor|].
    split; [|done]. by rewrite filter_app, Hl1, Hl2.
Qed.

(** A successful prediction step: the mid-point states, then the
    iterations of the transported scalars, then the state correction of
    the immersed boundary, when there is one, on the dict that the loop
    has filled. *)
Lemma prediction_step_runs log out :
  prediction_step self replica_id replicas states states_0
    additional_states = (log, Ok out) ->
  ∃ states_mid runs l,
    mid_point_states self states states_0 = ([], Ok states_mid) ∧
    Forall2 (iteration self replica_id replicas states states_0
               additional_states states_mid)
      (transport_scalars_names (_params self)) runs ∧
    filter is_halo_exchange l = (fun run => run.1.1) <$> runs ∧
    Forall (fun ev => is_update_states ev = false) l ∧
    match _ib self with
    | Some ib =>
        log = l ++ [IbUpdateStatesCall (updated_by runs ∅)] ∧
        out = update_states ib replica_id replicas (updated_by runs ∅)
                additional_states (_bc self)
    | None => log = l ∧ out = updated_by runs ∅
    end.
Proof.
  unfold prediction_step.
  intros (states_mid & l1 & l2 & Hmid & Hrun & ->)%bind_inv_ok.
  pose proof (mid_point_states_calls self states states_0) as Hcalls.
  rewrite Hmid in Hcalls. simpl in Hcalls. subst l1.
  apply bind_inv_ok in Hrun as (upd & l3 & l4 & Hloop & Hfinal & ->).
  pose proof (prediction_loop_quiet self replica_id replicas states
                states_0 additional_states states_mid
                (transport_scalars_names (_params self)) ∅) as Hquiet.
  unfold calls_satisfy in Hquiet. rewrite Hloop in Hquiet. simpl in Hquiet.
  apply prediction_loop_runs in Hloop as (runs & Hruns & Hl3 & ->).
  exists states_mid, runs, l3. repeat (split; [done|]).
  destruct (_ib self) as [ib|].
  - apply bind_call_inv_ok in Hfinal as (l5 & Hret & ->).
    apply ret_inv_ok in Hret as [-> <-]. by split.
  - apply ret_inv_ok in Hfinal as [-> <-]. by rewrite app_nil_r.
Qed.

Lemma mid_point_rhs_functional states_mid sc_name dbg diff_t diff_t' rhs rhs' :
  mid_point_rhs self replica_id replicas states additional_states states_mid
    sc_name dbg diff_t rhs ->
  mid_point_rhs self replica_id replicas states additional_states states_mid
    sc_name dbg diff_t' rhs' ->
  diff_t = diff_t' ∧ rhs = rhs'.
Proof.
  intros (sc_mid & l1 & d & l2 & fn & l3 & Hmid & Hdiff & Hfn & Hrhs)
    (sc_mid' & l1' & d' & l2' & fn' & l3' & Hmid' & Hdiff' & Hfn' & Hrhs').
  rewrite Hmid in Hmid'. injection Hmid' as <-.
  rewrite Hdiff in Hdiff'. injection Hdiff' as <- <- <-.
  rewrite Hfn in Hfn'. injection Hfn' as <- <-.
  rewrite Hrhs in Hrhs'. by injection Hrhs' as <- <-.
Qed.

Lemma iteration_functional states_mid sc_name run run' :
  iteration self replica_id replicas states states_0 additional_states
    states_mid sc_name run ->
  iteration self replica_id replicas states states_0 additional_states
    states_mid sc_name run' ->
  run = run'.
Proof.
  destruct run as [[ev upd] terms], run' as [[ev' upd'] terms'].
  intros [(diff_t & rhs & Hrhs & Hadv) Hdbg]
    [(diff_t' & rhs' & Hrhs' & Hadv') Hdbg'].
  simpl in *.
  destruct (mid_point_rhs_functional _ _ _ _ _ _ _ Hrhs Hrhs') as [<- <-].
  rewrite Hadv in Hadv'. injection Hadv' as <- <-.
  unfold debug_terms in Hdbg, Hdbg'. destruct (_dbg self) as [dbg|].
  - destruct Hdbg as (dt1 & t1 & Ht1 & ->), Hdbg' as (dt2 & t2 & Ht2 & ->).
    by destruct (mid_point_rhs_functional _ _ _ _ _ _ _ Ht1 Ht2) as [<- <-].
  - by subst.
Qed.

Lemma iteration_dom states_mid sc_name run :
  iteration self replica_id replicas states states_0 additional_states
    states_mid sc_name run ->
  dom run.1.2 = advanced_keys self sc_name.
Proof.
  intros [(diff_t & rhs & _ & Hadv) _]. by eapply time_advance_dom.
Qed.

Lemma debug_terms_apart states_mid sc_name terms s :
  debug_keys_apart self ->
  debug_terms self replica_id replicas states additional_states states_mid
    sc_name terms ->
  s ∈ transport_scalars_names (_params self) ->
  dom terms ## advanced_keys self s.
Proof.
  intros Hapart Hterms Hs. unfold debug_terms in Hterms.
  destruct (_dbg self) as [dbg|] eqn:Hdbg.
  - destruct Hterms as (diff_t & rhs_terms & _ & ->). by eapply Hapart.
  - subst terms. rewrite dom_empty_L. set_solver.
Qed.

Lemma advanced_keys_apart (s t : string) :
  (solver_mode (_params self) ≠ ANELASTIC ->
   separated_names (transport_scalars_names (_params self))) ->
  s ∈ transport_scalars_names (_params self) ->
  t ∈ transport_scalars_names (_params self) ->
  s ≠ t ->
  advanced_keys self s ## advanced_keys self t.
Proof.
  intros Hsep Hs Ht Hne. unfold advanced_keys. case_bool_decide as Hmode.
  - set_solver.
  - specialize (Hsep Hmode).
    pose proof (Hsep s t Hs Ht). pose proof (Hsep t s Ht Hs).
    assert (rho_ s ≠ rho_ t) by (by intros ?%rho_inj).
    set_solver.
Qed.

Lemma updated_by_snoc runs run (updated_scalars : FlowFieldMap) :
  updated_by (runs ++ [run]) updated_scalars =
  run.2 ∪ (run.1.2 ∪ updated_by runs updated_scalars).
Proof. unfold updated_by. by rewrite foldl_app. Qed.

(** When the names are kept apart, the dict that the loop has filled holds,
    under the names of a scalar, what the time advance of that scalar
    returned. *)
Lemma updated_by_lookup states_mid names runs updated_scalars :
  (solver_mode (_params self) ≠ ANELASTIC ->
   separated_names (transport_scalars_names (_params self))) ->
  debug_keys_apart self ->
  (∀ s, s ∈ names -> s ∈ transport_scalars_names (_params self)) ->
  Forall2 (iteration self replica_id replicas states states_0
             additional_states states_mid) names runs ->
  ∀ i sc_name run k,
    names !! i = Some sc_name -> runs !! i = Some run ->
    k ∈ advanced_keys self sc_name ->
    updated_by runs updated_scalars !! k = run.1.2 !! k.
Proof.
  intros Hsep Hapart. revert runs.
  induction names as [|t names IH] using rev_ind; intros runs Hsub Hruns.
  { intros i sc_name run k Hi. by rewrite lookup_nil in Hi. }
  apply Forall2_app_inv_l in Hruns as (runs' & rs & Hruns' & Hr & ->).
  apply Forall2_cons_inv_l in Hr as (r & rs' & Hr & Hnil & ->).
  apply Forall2_nil_inv_l in Hnil as ->.
  assert (∀ s, s ∈ names -> s ∈ transport_scalars_names (_params self))
    as Hsub'.
  { intros s Hs. apply Hsub, elem_of_app. by left. }
  assert (t ∈ transport_scalars_names (_params self)) as Ht.
  { apply Hsub, elem_of_app. right. by apply list_elem_of_singleton. }
  pose proof (Forall2_length _ _ _ Hruns') as Hlen.
  intros i sc_name run k Hi Hrun Hk.
  assert (sc_name ∈ transport_scalars_names (_params self)) as Hs.
  { apply Hsub. by eapply list_elem_of_lookup_2. }
  rewrite updated_by_snoc.
  rewrite lookup_union_r.
  2:{ apply not_elem_of_dom.
      pose proof (debug_terms_apart _ _ _ sc_name Hapart (proj2 Hr) Hs).
      set_solver. }
  apply lookup_snoc_Some in Hi as [[Hlt Hi] | [-> ->]];
    apply lookup_snoc_Some in Hrun as [[Hlt' Hrun] | [Hi' Hrun]]; try lia.
  - destruct (decide (sc_name = t)) as [->|Hne].
    + assert (run = r) as ->.
      { eapply iteration_functional; [|exact Hr].
        by eapply (Forall2_lookup_lr _ _ _ i). }
      apply lookup_union_l', elem_of_dom. by rewrite (iteration_dom _ _ _ Hr).
    + rewrite lookup_union_r; [by eapply IH|].
      apply not_elem_of_dom. rewrite (iteration_dom _ _ _ Hr).
      pose proof (advanced_keys_apart _ _ Hsep Hs Ht Hne). set_solver.
  - subst run.
    apply lookup_union_l', elem_of_dom. by rewrite (iteration_dom _ _ _ Hr).
Qed.
End prediction_runs.

(** ** When the steps return *)

Section step_totality.
Context {env : Collaborators}.
Variables (self : Scalars) (replica_id : ReplicaId) (replicas : Replicas).
Variables (states states_0 additional_states : FlowFieldMap).

Lemma correction_step_scalar_ok scalars sc_name :
  correctable self replica_id replicas states additional_states sc_name ->
  ∃ l sc,
    correction_step_scalar self replica_id replicas states additional_states
      scalars sc_name = (l, Ok (<[sc_name := sc]> scalars)).
Proof.
  intros (rho_sc & rho & Hrho_sc & Hrho & Hlen & [bc_f Hbc] & Hib).
  unfold correction_step_scalar.
  rewrite (getitem_Some _ _ _ Hrho_sc), bind_lift_ok.
  rewrite (getitem_Some _ _ _ Hrho), bind_lift_ok.
  rewrite (map_structure2_ok _ _ _ Hlen), bind_lift_ok.
  destruct (_ib self) as [ib|].
  - destruct (Hib ib eq_refl) as [sc_buf Hbuf]. cbn zeta.
    rewrite bind_call, (getitem_Some _ _ _ Hbuf). simpl.
    rewrite (exchange_scalar_halos_ok _ _ _ _ _ _ Hbc), bind_ok. simpl. eauto.
  - rewrite bind_ret, (exchange_scalar_halos_ok _ _ _ _ _ _ Hbc), bind_ok.
    simpl. eauto.
Qed.

Lemma correction_step_scalar_correctable scalars sc_name l out :
  correction_step_scalar self replica_id replicas states additional_states
    scalars sc_name = (l, Ok out) ->
  correctable self replica_id replicas states additional_states sc_name.
Proof.
  intros (rho_sc & rho & bc_f & sc_buf & Hrho_sc & Hrho & Hbc & Hlen & _ & Hib)
    %correction_step_scalar_inv.
  exists rho_sc, rho. do 3 (split; [done|]). split; [by exists bc_f|].
  intros ib Heq. rewrite Heq in Hib. destruct Hib as [Hbuf _]. eauto.
Qed.

Lemma correction_loop_correctable names scalars l out sc_name :
  sc_name ∈ names ->
  foldM (correction_step_scalar self replica_id replicas states
           additional_states) names scalars = (l, Ok out) ->
  correctable self replica_id replicas states additional_states sc_name.
Proof.
  revert scalars l.
  induction names as [|a names IH]; intros scalars l Hin; [by inv Hin|].
  intros (acc & l1 & l2 & Hstep & Hrest & _)%foldM_cons_inv_ok.
  apply elem_of_cons in Hin as [->|Hin]; [|by eapply IH].
  by eapply correction_step_scalar_correctable.
Qed.

Lemma correction_loop_ok names scalars :
  (∀ sc_name, sc_name ∈ names ->
     correctable self replica_id replicas states additional_states sc_name) ->
  ∃ l out,
    foldM (correction_step_scalar self replica_id replicas states
             additional_states) names scalars = (l, Ok out).
Proof.
  intros Hnames.
  destruct (foldM_total
              (correction_step_scalar self replica_id replicas states
                 additional_states)
              (fun _ => True) names scalars)
    as (l & out & Hrun & _); [|done|by eauto].
  intros acc sc_name Hin%Hnames _.
  destruct (correction_step_scalar_ok acc sc_name Hin) as (l & sc & Hrun).
  by exists l, (<[sc_name := sc]> acc).
Qed.

(** The value that a successful correction loop leaves for a scalar: the
    exchange of the quotient, corrected by the immersed boundary when one
    is configured.  A scalar listed twice gets the same value twice. *)
Lemma correction_loop_value names scalars l out sc_name :
  sc_name ∈ names ->
  foldM (correction_step_scalar self replica_id replicas states
           additional_states) names scalars = (l, Ok out) ->
  ∃ rho_sc rho bc_f sc_buf,
    states !! rho_ sc_name = Some rho_sc ∧
    states !! _KEY_RHO = Some rho ∧
    _bc self !! sc_name = Some bc_f ∧
    match _ib self with
    | None => sc_buf = zip_with Qcdiv rho_sc rho
    | Some ib =>
        update_states ib replica_id replicas
          {[ sc_name := zip_with Qcdiv rho_sc rho ]} additional_states
          (_bc self) !! sc_name = Some sc_buf
    end ∧
    out !! sc_name = Some (exchanged self sc_buf bc_f replica_id replicas).
Proof.
  revert scalars l.
  induction names as [|a names IH]; intros scalars l Hin; [by inv Hin|].
  intros (acc & l1 & l2 & Hstep & Hrest & _)%foldM_cons_inv_ok.
  destruct (decide (sc_name ∈ names)) as [Hin'|Hnin]; [by eapply IH|].
  apply elem_of_cons in Hin as [->|Hin]; [|done].
  apply correction_step_scalar_inv in Hstep
    as (rho_sc & rho & bc_f & sc_buf & ? & ? & ? & _ & -> & Hbuf).
  exists rho_sc, rho, bc_f, sc_buf. repeat (split; [done|]). split.
  - destruct (_ib self); by destruct Hbuf.
  - rewrite (correction_loop_frame _ _ _ _ _ _ _ _ _ _ Hnin Hrest).
    by rewrite lookup_insert_eq.
Qed.

(** X4.  With valid inputs and the Crank-Nicolson scheme configured for
    every transported scalar, the prediction step returns a state map: it
    raises neither a missing-key nor a shape nor a configuration error. *)
Theorem prediction_step_returns n :
  valid_inputs self replica_id replicas states states_0 additional_states n ->
  (∀ sc_name, sc_name ∈ transport_scalars_names (_params self) ->
     scalar_time_integration_scheme (_params self) sc_name =
       TIME_SCHEME_CN_EXPLICIT_ITERATION) ->
  ∃ log out,
    prediction_step self replica_id replicas states states_0
      additional_states = (log, Ok out).
Proof. apply prediction_step_ok. Qed.

(** X5.  The correction step returns exactly when every transported
    scalar can be corrected: the state map holds its conservative variable
    and the density with one shape, the boundary-condition registry has an
    entry for it, and the immersed-boundary corrector, when one is
    configured, returns the scalar under its name. *)
Theorem correction_step_returns_iff :
  (∃ log out,
     correction_step self replica_id replicas states states_0
       additional_states = (log, Ok out))
  ↔
  (∀ sc_name, sc_name ∈ transport_scalars_names (_params self) ->
     correctable self replica_id replicas states additional_states sc_name).
Proof.
  unfold correction_step. split.
  - intros (log & out & Hrun) sc_name Hin.
    by eapply correction_loop_correctable.
  - apply correction_loop_ok.
Qed.


(** X7.  When the state map lacks the conservative variable of a
    transported scalar, and the scalars before it in the list can be
    corrected, the correction step raises the key error of ['rho_<name>'];
    by then it has exchanged the halos of the scalars before it and of no
    other, and nothing is returned for them. *)
Theorem correction_step_missing_conservative (pre post : list string)
    (sc_name : string) :
  transport_scalars_names (_params self) = pre ++ sc_name :: post ->
  (∀ s, s ∈ pre ->
     correctable self replica_id replicas states additional_states s) ->
  states !! rho_ sc_name = None ->
  ∃ log,
    correction_step self replica_id replicas states states_0
      additional_states = (log, Err (KeyError (rho_ sc_name))) ∧
    kind_of <$> log =
      concat ((fun _ => correction_scalar_kinds self) <$> pre).
Proof.
  intros Hnames Hpre Hmissing. unfold correction_step.
  rewrite Hnames, foldM_app.
  destruct (correction_loop_ok pre ∅ Hpre) as (l & acc & Hrun).
  assert (foldM (correction_step_scalar self replica_id replicas states
                   additional_states) (sc_name :: post) acc =
          ([], Err (KeyError (rho_ sc_name)))) as Hfail.
  { cbn [foldM]. unfold correction_step_scalar.
    by rewrite (getitem_None _ _ Hmissing). }
  exists l. rewrite (bind_ok_run _ _ _ _ _ _ Hrun Hfail), app_nil_r.
  split; [done|].
  by apply correction_loop_order in Hrun as [Hkinds _].
Qed.
End step_totality.

(** ** The time advance at its edges *)

Lemma rho_neq (sc_name : string) : sc_name ≠ rho_ sc_name.
Proof.
  intros Heq. apply (f_equal String.length) in Heq. revert Heq.
  unfold rho_.
  change (String.length sc_name ≠ 4 + String.length sc_name)%nat. lia.
Qed.



Section time_advance_edges.
Context {env : Collaborators}.
Variables (self : Scalars) (replica_id : ReplicaId) (replicas : Replicas).
Variables (states states_0 : FlowFieldMap).

(** X8.  The time advance fails before it exchanges: when
    [time_advance_cn_explicit] raises, for a missing field, a missing
    boundary condition or fields of different shapes, it has made no
    collaborator call, and the error is never the configuration error of
    the scheme check. *)
Theorem time_advance_raises_before_exchange rhs sc_name l e :
  time_advance_cn_explicit self replica_id replicas states states_0 rhs
    sc_name = (l, Err e) ->
  l = [] ∧
  (e = StructureMismatch ∨
   e ∈ [KeyError _KEY_RHO; KeyError sc_name; KeyError (rho_ sc_name)]).
Proof.
  unfold time_advance_cn_explicit, exchange_scalar_halos, _exchange_halos.
  unfold getitem, map_structure2, map_structure3.
  case_bool_decide.
  - destruct (states !! _KEY_RHO) as [rho|]; [|intros [= <- <-]; set_solver].
    rewrite bind_lift_ok.
    destruct (states_0 !! sc_name) as [sc_0|];
      [|intros [= <- <-]; set_solver].
    rewrite bind_lift_ok.
    destruct (same_structure sc_0 rhs && _); [|intros [= <- <-]; set_solver].
    rewrite bind_lift_ok.
    destruct (_bc self !! sc_name) as [bc_f|]; [done|].
    intros [= <- <-]; set_solver.
  - destruct (states_0 !! rho_ sc_name) as [rho_sc_0|];
      [|intros [= <- <-]; set_solver].
    rewrite bind_lift_ok.
    destruct (same_structure rho_sc_0 rhs); [|intros [= <- <-]; set_solver].
    rewrite bind_lift_ok, lookup_singleton_eq, bind_lift_ok.
    destruct (states !! _KEY_RHO) as [rho|]; [|intros [= <- <-]; set_solver].
    rewrite bind_lift_ok.
    destruct (same_structure _ rho); [|intros [= <- <-]; set_solver].
    rewrite bind_lift_ok.
    destruct (_bc self !! sc_name) as [bc_f|]; [done|].
    intros [= <- <-]; set_solver.
Qed.

End time_advance_edges.

(** ** An unsupported time scheme *)

Section unsupported_scheme.
Context {env : Collaborators}.
Variables (self : Scalars) (replica_id : ReplicaId) (replicas : Replicas).
Variables (states states_0 additional_states : FlowFieldMap).

(** The exchange [ev] is made under the boundary condition registered for
    the scalar [sc_name]. *)
#[local] Abbreviation exchange_for := (fun (ev : event) (sc_name : string) =>
  ∃ f bc_f, ev = HaloExchangeCall f bc_f ∧ _bc self !! sc_name = Some bc_f).

Lemma prediction_step_raises n (pre post : list string) (sc_name : string) :
  valid_inputs self replica_id replicas states states_0 additional_states n ->
  transport_scalars_names (_params self) = pre ++ sc_name :: post ->
  (∀ s, s ∈ pre ->
     scalar_time_integration_scheme (_params self) s =
       TIME_SCHEME_CN_EXPLICIT_ITERATION) ->
  scalar_time_integration_scheme (_params self) sc_name ≠
    TIME_SCHEME_CN_EXPLICIT_ITERATION ->
  ∃ log,
    prediction_step self replica_id replicas states states_0
      additional_states =
    (log, Err (ValueError
                 (scalar_time_integration_scheme (_params self) sc_name))) ∧
    kind_of <$> log =
      concat ((fun _ => prediction_scalar_kinds self) <$> pre) ++
      (if _use_sgs self then [SGS] else []) ∧
    Forall2 exchange_for (filter is_halo_exchange log) pre.
Proof.
  intros Hvalid Hnames Hpre Hscheme.
  destruct (mid_point_states_ok self states states_0 replica_id replicas
              additional_states n Hvalid)
    as (states_mid & Hmid & Hrho & Hsc).
  assert (∀ s, s ∈ pre ++ sc_name :: post ->
               s ∈ transport_scalars_names (_params self)) as Hsub.
  { intros s. by rewrite Hnames. }
  destruct (prediction_loop_ok self replica_id replicas states states_0
              additional_states n states_mid pre ∅ Hvalid Hrho Hsc)
    as (l_pre & acc & Hloop).
  { intros s Hin. split; [|by apply Hpre].
    apply Hsub, elem_of_app. by left. }
  destruct (prediction_step_scalar_raises self replica_id replicas states
              states_0 additional_states states_mid n Hvalid Hrho Hsc acc
              sc_name) as (l_sc & Hraise & Hkinds_sc); [|done|].
  { apply Hsub, elem_of_app. right. by left. }
  exists (l_pre ++ l_sc).
  assert (foldM (prediction_step_scalar self replica_id replicas states
                   states_0 additional_states states_mid)
                (pre ++ sc_name :: post) ∅ =
          (l_pre ++ l_sc,
           Err (ValueError
                  (scalar_time_integration_scheme (_params self) sc_name))))
    as Hfold.
  { rewrite foldM_app. eapply bind_ok_run; [exact Hloop|].
    simpl. by rewrite Hraise. }
  apply prediction_loop_order in Hloop as [Hkinds Hhalo].
  split; [|split].
  - unfold prediction_step. rewrite Hmid, bind_nil_ok, Hnames.
    by rewrite Hfold.
  - by rewrite fmap_app, Hkinds, Hkinds_sc.
  - rewrite filter_app, (filter_halo_of_kinds l_sc _ Hkinds_sc).
    + by rewrite app_nil_r.
    + destruct (_use_sgs self); set_solver.
Qed.

(** C3 (as amended).  A prediction step never returns a state map when
    some transported scalar is configured with a scheme other than
    Crank-Nicolson explicit iteration: there is no fall-back to another
    scheme.  With valid inputs it raises the configuration error for the
    first such scalar of the list, when the loop reaches it.  By then the
    loop has made all the collaborator calls of the scalars listed before
    it, and the call of the turbulence closure for the scalar itself when
    the sub-grid-scale model is in use: it has exchanged the halos of
    every scalar listed before it, and of no other.  The state correction
    of the immersed boundary has not been called; and when the scalar is
    the first of the list, no halo exchange has been made either. *)
Theorem unsupported_scheme_raises :
  (∀ log out,
     prediction_step self replica_id replicas states states_0
       additional_states = (log, Ok out) ->
     ∀ s, s ∈ transport_scalars_names (_params self) ->
       scalar_time_integration_scheme (_params self) s =
         TIME_SCHEME_CN_EXPLICIT_ITERATION)
  ∧
  (∀ n (pre post : list string) (sc_name : string),
     valid_inputs self replica_id replicas states states_0
       additional_states n ->
     transport_scalars_names (_params self) = pre ++ sc_name :: post ->
     (∀ s, s ∈ pre ->
        scalar_time_integration_scheme (_params self) s =
          TIME_SCHEME_CN_EXPLICIT_ITERATION) ->
     scalar_time_integration_scheme (_params self) sc_name ≠
       TIME_SCHEME_CN_EXPLICIT_ITERATION ->
     ∃ log,
       prediction_step self replica_id replicas states states_0
         additional_states =
       (log, Err (ValueError
                    (scalar_time_integration_scheme (_params self) sc_name)))
       ∧ kind_of <$> log =
           concat ((fun _ => prediction_scalar_kinds self) <$> pre) ++
           (if _use_sgs self then [SGS] else [])
       ∧ Forall2 exchange_for (filter is_halo_exchange log) pre
       ∧ Forall (fun ev => is_update_states ev = false) log
       ∧ (pre = [] -> Forall (fun ev => updates_field ev = false) log)).
Proof.
  split.
  - intros log out Hrun.
    unfold prediction_step in Hrun.
    apply bind_inv_ok in Hrun as (states_mid & l1 & l2 & _ & Hrun & _).
    apply bind_inv_ok in Hrun as (upd & l3 & l4 & Hloop & _ & _).
    by eapply prediction_loop_schemes.
  - intros n pre post sc_name Hvalid Hnames Hpre Hscheme.
    destruct (prediction_step_raises n pre post sc_name Hvalid Hnames Hpre
                Hscheme) as (log & Hrun & Hkinds & Hhalo).
    exists log. repeat (split; [done|]).
    assert (Forall (fun k => k ≠ IB_UPDATE_STATES) (kind_of <$> log))
      as Hno.
    { rewrite Hkinds. apply Forall_app. split.
      - apply Forall_concat, Forall_fmap, Forall_forall. intros s _.
        unfold prediction_scalar_kinds.
        destruct (_use_sgs self), (configured (_ib self)),
          (configured (_dbg self)); by repeat constructor.
      - destruct (_use_sgs self); by repeat constructor. }
    assert (Forall (fun ev => is_update_states ev = false) log) as Hquiet.
    { apply Forall_forall. intros ev Hev.
      assert (kind_of ev ≠ IB_UPDATE_STATES) as Hk.
      { apply (proj1 (Forall_forall _ _) Hno), list_elem_of_fmap.
        by exists ev. }
      by destruct ev. }
    split; [done|].
    intros ->. apply Forall2_nil_inv_r in Hhalo.
    apply Forall_forall. intros ev Hev.
    unfold updates_field. rewrite (proj1 (Forall_forall _ _) Hquiet ev Hev).
    simpl. destruct (is_halo_exchange ev) eqn:Hex; [|done].
    assert (ev ∈ filter is_halo_exchange log) as Hin.
    { apply list_elem_of_filter. by rewrite Hex. }
    rewrite Hhalo in Hin. by apply not_elem_of_nil in Hin.
Qed.
End unsupported_scheme.

(** ** Claims on the prediction step, scalar by scalar *)

Section prediction_claims.
Context {env : Collaborators}.
Variables (self : Scalars) (replica_id : ReplicaId) (replicas : Replicas).
Variables (states states_0 : FlowFieldMap).

(** The call of the exchange primitive that [_exchange_halos] makes for
    the field [f] under the boundary condition [bc_f]. *)
#[local] Abbreviation halo_exchange := (fun (f : FlowFieldVal) (bc_f : BCVal) =>
  inplace_halo_exchange f (_halo_dims self) replica_id replicas
    (_replica_dims self) (periodic_dims (_params self)) bc_f
    (halo_width (_params self))).

(** What a time advance that returns has read: the density, the boundary
    condition of the scalar, and the previous value of the variable that
    the solver mode selects, all shaped like the right-hand side. *)
Lemma time_advance_inputs rhs sc_name l updated_vars :
  time_advance_cn_explicit self replica_id replicas states states_0 rhs
    sc_name = (l, Ok updated_vars) ->
  ∃ rho bc_f old,
    states !! _KEY_RHO = Some rho ∧ _bc self !! sc_name = Some bc_f ∧
    length rho = length rhs ∧ length old = length rhs ∧
    states_0 !! (if bool_decide (solver_mode (_params self) = ANELASTIC)
                 then sc_name else rho_ sc_name) = Some old.
Proof.
  case_bool_decide as Hmode.
  - unfold time_advance_cn_explicit. rewrite (bool_decide_eq_true_2 _ Hmode).
    intros (rho & Hrho%getitem_inv & Hrun)%bind_lift_inv_ok.
    apply bind_lift_inv_ok in Hrun as (sc_0 & Hold%getitem_inv & Hrun).
    apply bind_lift_inv_ok in Hrun
      as (new_sc & (Hl1 & Hl2 & _)%map_structure3_inv & Hrun).
    apply bind_inv_ok in Hrun as (new_sc' & l1 & l2 & Hex & _ & _).
    apply exchange_scalar_halos_inv in Hex as (bc_f & Hbc & _ & _).
    exists rho, bc_f, sc_0. repeat (split; [done|]).
    unfold map_structure1 in Hl2. rewrite length_fmap in Hl2.
    split; [lia|]. split; [lia | done].
  - intros (rho & rho_phi_old & bc_f & Hrho & Hold & Hbc & Hl1 & Hl2 & _)
      %time_advance_conservative_inv; [|done].
    by exists rho, bc_f, rho_phi_old.
Qed.

(** C1.  In the prediction step, the Crank-Nicolson explicit advance of
    every transported scalar is selected by the solver mode.

    The time advance of a scalar [sc_name] with right-hand side [rhs]: in
    anelastic mode the scalar itself is advanced, cell by cell
    [phi_new = phi_old + dt * rhs / rho], and the call is one call of the
    exchange primitive, on [phi_new] under the boundary condition
    registered for the scalar, whose result is returned under the name of
    the scalar.  In any other mode the conservative variable is advanced,
    [rho_phi_new = rho_phi_old + dt * rhs], the primitive is recomputed as
    [phi_new = rho_phi_new / rho], and the call is one call of the
    exchange primitive, on [phi_new]: the conservative buffer is returned
    as computed, without an exchange.

    The step: the halo exchanges of a prediction step that returns are, in
    the order of the list and one for each transported scalar, the
    exchanges of the time advances of the scalars, each from the
    right-hand side of the scalar at the mid-point states, with the
    density, the boundary condition and the previous value that the
    advance above reads. *)
Theorem time_advance_cn_explicit_by_mode :
  (∀ (rhs : FlowFieldVal) (sc_name : string) (rho : FlowFieldVal)
     (bc_f : BCVal),
     states !! _KEY_RHO = Some rho ->
     _bc self !! sc_name = Some bc_f ->
     length rho = length rhs ->
     (solver_mode (_params self) = ANELASTIC ->
      ∀ phi_old, states_0 !! sc_name = Some phi_old ->
        length phi_old = length rhs ->
        ∃ phi_new,
          length phi_new = length rhs ∧
          (∀ i p b d, phi_old !! i = Some p -> rhs !! i = Some b ->
                      rho !! i = Some d ->
                      phi_new !! i =
                        Some (p + dt (_params self) * b / d)%Qc) ∧
          time_advance_cn_explicit self replica_id replicas states states_0
            rhs sc_name =
          ([HaloExchangeCall phi_new bc_f],
           Ok {[ sc_name := halo_exchange phi_new bc_f ]}))
     ∧
     (solver_mode (_params self) ≠ ANELASTIC ->
      ∀ rho_phi_old, states_0 !! rho_ sc_name = Some rho_phi_old ->
        length rho_phi_old = length rhs ->
        ∃ rho_phi_new phi_new,
          length rho_phi_new = length rhs ∧ length phi_new = length rhs ∧
          (∀ i a b, rho_phi_old !! i = Some a -> rhs !! i = Some b ->
                    rho_phi_new !! i =
                      Some (a + dt (_params self) * b)%Qc) ∧
          (∀ i c d, rho_phi_new !! i = Some c -> rho !! i = Some d ->
                    phi_new !! i = Some (c / d)%Qc) ∧
          time_advance_cn_explicit self replica_id replicas states states_0
            rhs sc_name =
          ([HaloExchangeCall phi_new bc_f],
           Ok (<[sc_name := halo_exchange phi_new bc_f]>
                 {[ rho_ sc_name := rho_phi_new ]}))))
  ∧
  (∀ additional_states log out,
     prediction_step self replica_id replicas states states_0
       additional_states = (log, Ok out) ->
     ∃ states_mid,
       mid_point_states self states states_0 = ([], Ok states_mid) ∧
       Forall2
         (fun ev sc_name =>
            ∃ diff_t rhs updated_vars rho bc_f old,
              mid_point_rhs self replica_id replicas states additional_states
                states_mid sc_name false diff_t rhs ∧
              time_advance_cn_explicit self replica_id replicas states
                states_0 rhs sc_name = ([ev], Ok updated_vars) ∧
              states !! _KEY_RHO = Some rho ∧
              _bc self !! sc_name = Some bc_f ∧
              length rho = length rhs ∧ length old = length rhs ∧
              states_0 !! (if bool_decide
                                (solver_mode (_params self) = ANELASTIC)
                           then sc_name else rho_ sc_name) = Some old)
         (filter is_halo_exchange log)
         (transport_scalars_names (_params self))).
Proof.
  split.
  - intros rhs sc_name rho bc_f Hrho Hbc Hlen. split.
    + intros Hmode phi_old Hphi Hl.
      eexists. split; [|split].
      3: by apply time_advance_anelastic.
      * rewrite length_ap_structure; rewrite length_zip_with;
          rewrite ?length_fmap; lia.
      * intros i p b d Hp Hb Hd.
        rewrite (lookup_ap_structure _ _ i
                   (fun a => (p + dt (_params self) * b * a)%Qc) (/ d)%Qc).
        -- reflexivity.
        -- apply lookup_zip_with_Some. by exists p, b.
        -- by rewrite list_lookup_fmap, Hd.
    + intros Hmode rho_phi_old Hphi Hl.
      eexists _, _. split; [|split; [|split; [|split]]].
      5: by apply time_advance_conservative.
      * rewrite length_zip_with. lia.
      * rewrite !length_zip_with. lia.
      * intros i a b Ha Hb. apply lookup_zip_with_Some. by exists a, b.
      * intros i c d Hc Hd. apply lookup_zip_with_Some. by exists c, d.
  - intros additional_states log out
      (states_mid & runs & l & Hmid & Hruns & Hl & _ & Hfinal)
      %prediction_step_runs.
    exists states_mid. split; [done|].
    assert (filter is_halo_exchange log = (fun run => run.1.1) <$> runs)
      as ->.
    { destruct (_ib self) as [ib|]; destruct Hfinal as [-> _]; [|done].
      by rewrite filter_app, app_nil_r. }
    apply Forall2_fmap_l, Forall2_flip.
    eapply Forall2_impl; [exact Hruns|].
    intros sc_name [[ev upd] terms] [(diff_t & rhs & Hrhs & Hadv) _].
    simpl in *.
    destruct (time_advance_inputs _ _ _ _ Hadv)
      as (rho & bc_f & old & Hrho & Hbc & Hl1 & Hl2 & Hold).
    by exists diff_t, rhs, upd, rho, bc_f, old.
Qed.
End prediction_claims.

(** ** Claims on the dict that the prediction step builds *)

Section step_claims_by_scalar.
Context {env : Collaborators}.
Variables (self : Scalars) (replica_id : ReplicaId) (replicas : Replicas).
Variables (states states_0 additional_states : FlowFieldMap).

(** The call of the exchange primitive that [_exchange_halos] makes for
    the field [f] under the boundary condition [bc_f]. *)
#[local] Abbreviation halo_exchange := (fun (f : FlowFieldVal) (bc_f : BCVal) =>
  inplace_halo_exchange f (_halo_dims self) replica_id replicas
    (_replica_dims self) (periodic_dims (_params self)) bc_f
    (halo_width (_params self))).

(** The dict [updated_scalars] is the one that a prediction step with the
    call log [log] and the result [out] has built: it is returned as it is
    when no immersed-boundary corrector is configured; otherwise it is
    handed to the state correction of the corrector, in the last call of
    the step, together with the additional states and the
    boundary-condition registry, and what comes back is returned. *)
#[local] Abbreviation built_by_step := (fun (log : list event)
    (out updated_scalars : FlowFieldMap) =>
  match _ib self with
  | Some ib =>
      last log = Some (IbUpdateStatesCall updated_scalars) ∧
      out = update_states ib replica_id replicas updated_scalars
              additional_states (_bc self)
  | None => out = updated_scalars
  end).

Lemma prediction_step_built log out :
  prediction_step self replica_id replicas states states_0
    additional_states = (log, Ok out) ->
  ∃ states_mid runs,
    mid_point_states self states states_0 = ([], Ok states_mid) ∧
    Forall2 (iteration self replica_id replicas states states_0
               additional_states states_mid)
      (transport_scalars_names (_params self)) runs ∧
    built_by_step log out (updated_by runs ∅).
Proof.
  intros (states_mid & runs & l & Hmid & Hruns & _ & _ & Hfinal)
    %prediction_step_runs.
  exists states_mid, runs. repeat (split; [done|]).
  destruct (_ib self) as [ib|]; destruct Hfinal as [-> ->]; [|done].
  split; [apply last_snoc | done].
Qed.

(** C2 (as amended).  Outside anelastic mode, when no transported scalar
    is named like the conservative variable of another and the debug hook
    does not write under their names: in the dict that a prediction step
    has built, the primitive scalar is what the exchange primitive returns
    for the quotient of the conservative variable stored next to it and
    the density.  Hence [phi = rho_phi / rho] holds, exactly, in every cell
    that the exchange primitive leaves as it is; the halo cells hold what
    the primitive put there.  A correction step on a state with the same
    density and the predicted conservative variable exchanges the halos of
    the same quotient, after the immersed-boundary corrector, when there
    is one, has been applied to it; so without a corrector it returns the
    same primitive scalar. *)
Theorem primitive_matches_conservative (sc_name : string) log out :
  solver_mode (_params self) ≠ ANELASTIC ->
  separated_names (transport_scalars_names (_params self)) ->
  debug_keys_apart self ->
  sc_name ∈ transport_scalars_names (_params self) ->
  prediction_step self replica_id replicas states states_0
    additional_states = (log, Ok out) ->
  ∃ updated_scalars phi rho_phi rho bc_f,
    built_by_step log out updated_scalars ∧
    updated_scalars !! sc_name = Some phi ∧
    updated_scalars !! rho_ sc_name = Some rho_phi ∧
    states !! _KEY_RHO = Some rho ∧
    _bc self !! sc_name = Some bc_f ∧
    length rho_phi = length rho ∧
    phi = halo_exchange (zip_with Qcdiv rho_phi rho) bc_f ∧
    (∀ i p d,
       kept_by_exchange self replica_id replicas (length rho) i ->
       rho_phi !! i = Some p -> rho !! i = Some d ->
       phi !! i = Some (p / d)%Qc) ∧
    (∀ states' states_0' additional_states' log' out',
       states' !! _KEY_RHO = Some rho ->
       states' !! rho_ sc_name = Some rho_phi ->
       correction_step self replica_id replicas states' states_0'
         additional_states' = (log', Ok out') ->
       (∃ sc_buf,
          match _ib self with
          | None => sc_buf = zip_with Qcdiv rho_phi rho
          | Some ib =>
              update_states ib replica_id replicas
                {[ sc_name := zip_with Qcdiv rho_phi rho ]}
                additional_states' (_bc self) !! sc_name = Some sc_buf
          end ∧
          out' !! sc_name = Some (halo_exchange sc_buf bc_f)) ∧
       (_ib self = None -> out' !! sc_name = Some phi)).
Proof.
  intros Hmode Hsep Hapart Hin
    (states_mid & runs & Hmid & Hruns & Hbuilt)%prediction_step_built.
  destruct (list_elem_of_lookup_1 _ _ Hin) as [i Hi].
  destruct (Forall2_lookup_l _ _ _ _ _ Hruns Hi) as ([[ev upd] terms] & Hrun & Hit).
  pose proof (updated_by_lookup self replica_id replicas states states_0
                additional_states states_mid _ runs ∅ (fun _ => Hsep) Hapart
                (fun _ H => H) Hruns i sc_name (ev, upd, terms)) as Hlookup.
  specialize (fun k => Hlookup k Hi Hrun). simpl in Hlookup.
  destruct Hit as [(diff_t & rhs & _ & Hadv) _]. simpl in Hadv.
  apply time_advance_conservative_inv in Hadv
    as (rho & rho_phi_old & bc_f & Hrho & _ & Hbc & Hl1 & Hl2 & _ & ->);
    [|done].
  set (rho_phi :=
         zip_with (fun a b => (a + dt (_params self) * b)%Qc) rho_phi_old rhs)
    in *.
  assert (length rho_phi = length rho) as Hlen.
  { unfold rho_phi. rewrite length_zip_with. lia. }
  exists (updated_by runs ∅),
    (halo_exchange (zip_with Qcdiv rho_phi rho) bc_f), rho_phi, rho, bc_f.
  split; [done|]. split; [|split].
  { rewrite Hlookup.
    - by rewrite lookup_insert_eq.
    - unfold advanced_keys. rewrite bool_decide_eq_false_2 by done.
      set_solver. }
  { rewrite Hlookup.
    - rewrite lookup_insert_ne by apply rho_neq. apply lookup_singleton_eq.
    - unfold advanced_keys. rewrite bool_decide_eq_false_2 by done.
      set_solver. }
  repeat (split; [done|]). split.
  - intros j p d Hkept Hp Hd. rewrite Hkept.
    + apply lookup_zip_with_Some. by exists p, d.
    + rewrite length_zip_with. lia.
  - intros states' states_0' additional_states' log' out' Hrho' Hrp' Hrun'.
    destruct (correction_loop_value self replica_id replicas states'
                additional_states'
                (transport_scalars_names (_params self)) ∅ log' out'
                sc_name Hin Hrun')
      as (rho_sc & rho'' & bc_f' & sc_buf & Hrp'' & Hrho'' & Hbc' & Hbuf
          & Hout).
    assert (rho_sc = rho_phi) as -> by congruence.
    assert (rho'' = rho) as -> by congruence.
    assert (bc_f' = bc_f) as -> by congruence.
    split; [by exists sc_buf|].
    intros Hib. rewrite Hib in Hbuf. by subst sc_buf.
Qed.

(** With a corrector, the correction step calls its state correction once
    for each transported scalar, in the order of the list, on the quotient
    of the conservative variable of the scalar and the density, alone. *)
Lemma correction_loop_corrections ib names scalars l out :
  _ib self = Some ib ->
  foldM (correction_step_scalar self replica_id replicas states
           additional_states) names scalars = (l, Ok out) ->
  Forall2
    (fun ev sc_name =>
       ∃ rho_sc rho,
         states !! rho_ sc_name = Some rho_sc ∧
         states !! _KEY_RHO = Some rho ∧
         length rho_sc = length rho ∧
         ev = IbUpdateStatesCall {[ sc_name := zip_with Qcdiv rho_sc rho ]})
    (filter is_update_states l) names.
Proof.
  intros Hib. revert scalars l.
  induction names as [|a names IH]; intros scalars l.
  - intros [= <- _]. constructor.
  - intros (acc & l1 & l2 & Hstep & Hrest & ->)%foldM_cons_inv_ok.
    apply correction_step_scalar_inv in Hstep
      as (rho_sc & rho & bc_f & sc_buf & Hrho_sc & Hrho & _ & Hlen & _ & Hl1).
    rewrite Hib in Hl1. destruct Hl1 as [_ ->].
    rewrite filter_app. simpl. constructor; [|by eapply IH].
    by exists rho_sc, rho.
Qed.

(** C5.  With an immersed-boundary corrector configured, a prediction
    step that returns has called its state correction exactly once, as
    its last collaborator call, after the halo exchange of the time
    advance of every transported scalar.  The dict it is applied to is
    the one that the loop has filled with the variables of the time
    advance of every transported scalar, each from the right-hand side of
    the scalar at the mid-point states, and with the debug terms; when the
    names are kept apart, it holds under the names of each scalar what the
    time advance of that scalar returned.  The correction is made with the
    additional states of the step and the boundary-condition registry of
    the object, and its result is what the step returns.

    A correction step that returns has called the state correction exactly
    once per transported scalar, in the order of the list, on the quotient
    of the conservative variable of that scalar and the density, alone. *)
Theorem update_states_called_once (ib : ImmersedBoundaryMethod) :
  _ib self = Some ib ->
  (∀ log out,
     prediction_step self replica_id replicas states states_0
       additional_states = (log, Ok out) ->
     ∃ states_mid runs log',
       mid_point_states self states states_0 = ([], Ok states_mid) ∧
       Forall2 (iteration self replica_id replicas states states_0
                  additional_states states_mid)
         (transport_scalars_names (_params self)) runs ∧
       filter is_halo_exchange log' = (fun run => run.1.1) <$> runs ∧
       Forall (fun ev => is_update_states ev = false) log' ∧
       log = log' ++ [IbUpdateStatesCall (updated_by runs ∅)] ∧
       length (filter is_update_states log) = 1%nat ∧
       out = update_states ib replica_id replicas (updated_by runs ∅)
               additional_states (_bc self) ∧
       ((solver_mode (_params self) ≠ ANELASTIC ->
         separated_names (transport_scalars_names (_params self))) ->
        debug_keys_apart self ->
        Forall2
          (fun sc_name run =>
             ∀ k, k ∈ advanced_keys self sc_name ->
               is_Some (run.1.2 !! k) ∧
               updated_by runs ∅ !! k = run.1.2 !! k)
          (transport_scalars_names (_params self)) runs))
  ∧
  (∀ log out,
     correction_step self replica_id replicas states states_0
       additional_states = (log, Ok out) ->
     Forall2
       (fun ev sc_name =>
          ∃ rho_sc rho,
            states !! rho_ sc_name = Some rho_sc ∧
            states !! _KEY_RHO = Some rho ∧
            length rho_sc = length rho ∧
            ev = IbUpdateStatesCall {[ sc_name := zip_with Qcdiv rho_sc rho ]})
       (filter is_update_states log)
       (transport_scalars_names (_params self))).
Proof.
  intros Hib. split.
  - intros log out
      (states_mid & runs & l & Hmid & Hruns & Hl & Hquiet & Hfinal)
      %prediction_step_runs.
    rewrite Hib in Hfinal. destruct Hfinal as [-> ->].
    exists states_mid, runs, l. repeat (split; [done|]).
    split; [|split; [done|]].
    + rewrite filter_app.
      replace (filter is_update_states l) with (@nil event); [done|].
      symmetry. clear Hl. induction Hquiet as [|ev l' Hev _ IH]; [done|].
      rewrite filter_cons, IH. by rewrite Hev.
    + intros Hsep Hapart. apply Forall2_same_length_lookup.
      split; [by eapply Forall2_length|].
      intros i sc_name run Hi Hrun k Hk. split.
      * apply elem_of_dom.
        rewrite (iteration_dom self replica_id replicas states states_0
                   additional_states states_mid sc_name); [done|].
        by eapply (Forall2_lookup_lr _ _ _ i).
      * by eapply (updated_by_lookup self replica_id replicas states states_0
                     additional_states states_mid _ runs ∅ Hsep Hapart
                     (fun _ H => H) Hruns i sc_name run).
  - intros log out Hrun. by eapply correction_loop_corrections.
Qed.

End step_claims_by_scalar.

(** ** The debug terms and the right-hand side *)

Section debug_terms.
Context {env : Collaborators}.
Variables (self : Scalars) (replica_id : ReplicaId) (replicas : Replicas).
Variables (scalar_name : string) (states additional_states : FlowFieldMap).

(** X10.  Whenever the right-hand-side function returns, the same function
    in debug mode returns too, without any collaborator call (the immersed
    boundary is not consulted in debug mode), and its dict has exactly the
    seven terms [conv_x], [conv_y], [conv_z], [diff_x], [diff_y],
    [diff_z] and [source], all shaped like the right-hand side; without
    an immersed-boundary corrector the right-hand side is, cell by cell,
    the combination [-(conv_x + conv_y + conv_z) + (diff_x + diff_y +
    diff_z) + source] of these terms. *)
Theorem debug_terms_recombine (source phi : FlowFieldVal) l
    (rhs : FlowFieldVal) :
  scalar_function self replica_id replicas scalar_name states
    additional_states source false phi = (l, Ok rhs) ->
  ∃ (terms : FlowFieldMap) conv_x conv_y conv_z diff_x diff_y diff_z src,
    scalar_function self replica_id replicas scalar_name states
      additional_states source true phi = ([], Ok terms) ∧
    dom terms =
      list_to_set ["conv_x"; "conv_y"; "conv_z"; "diff_x"; "diff_y";
                   "diff_z"; "source"] ∧
    terms !! "conv_x" = Some conv_x ∧ terms !! "conv_y" = Some conv_y ∧
    terms !! "conv_z" = Some conv_z ∧ terms !! "diff_x" = Some diff_x ∧
    terms !! "diff_y" = Some diff_y ∧ terms !! "diff_z" = Some diff_z ∧
    terms !! "source" = Some src ∧
    Forall (fun t : FlowFieldVal => length t = length conv_x)
      [conv_y; conv_z; diff_x; diff_y; diff_z; src] ∧
    (_ib self = None ->
     length rhs = length conv_x ∧
     ∀ i cx cy cz dx dy dz s,
       conv_x !! i = Some cx -> conv_y !! i = Some cy ->
       conv_z !! i = Some cz -> diff_x !! i = Some dx ->
       diff_y !! i = Some dy -> diff_z !! i = Some dz ->
       src !! i = Some s ->
       rhs !! i = Some (- (cx + cy + cz) + (dx + dy + dz) + s)%Qc).
Proof.
  unfold scalar_function.
  intros (model & Hmodel & Hrun)%bind_lift_inv_ok.
  apply bind_lift_inv_ok in Hrun as (source_all & Hsrc & Hrun).
  apply bind_lift_inv_ok in Hrun as (rhs0 & Hrhs & Hrun).
  rewrite Hmodel, bind_lift_ok, Hsrc, bind_lift_ok.
  destruct (convection_fn model replica_id replicas phi states
              additional_states) as [[conv_x conv_y] conv_z].
  destruct (diffusion_fn model replica_id replicas phi states
              additional_states) as [[diff_x diff_y] diff_z].
  cbn [fst snd] in *.
  eexists _, conv_x, conv_y, conv_z, diff_x, diff_y, diff_z, source_all.
  split; [reflexivity|].
  split; [rewrite !dom_insert_L, dom_empty_L; set_solver|].
  do 7 (split; [by simplify_map_eq|]).
  revert Hrhs. unfold map_structure7, same_structure.
  do 6 (case_bool_decide; simpl; [|discriminate]). intros [= <-].
  split; [repeat constructor; congruence|].
  intros Hib. rewrite Hib in Hrun. apply ret_inv_ok in Hrun as [_ <-]. split.
  - by apply length_map_structure7.
  - intros i cx cy cz dx dy dz s ???????.
    by apply (lookup_map_structure7 scalar_transport_equation).
Qed.
End debug_terms.

(** ** The mid-point states *)

Section mid_point_frame.
Context {env : Collaborators}.
Variables (self : Scalars) (states states_0 : FlowFieldMap).

#[local] Abbreviation mid_point_scalar := (fun (states_mid : FlowFieldMap)
    (sc_name : string) =>
  sc ← lift (getitem states sc_name);
  sc_0 ← lift (getitem states_0 sc_name);
  sc_mid ← lift (average sc sc_0);
  mret (<[sc_name := sc_mid]> states_mid)).

(** The field under [k] is the average of the fields that the two state
    maps hold under [k]. *)
#[local] Abbreviation averaged := (fun (states_mid : FlowFieldMap)
    (k : string) =>
  ∃ f f_0 f_mid, states !! k = Some f ∧ states_0 !! k = Some f_0 ∧
                 average f f_0 = Ok f_mid ∧ states_mid !! k = Some f_mid).

Lemma mid_point_scalar_inv acc sc_name l out :
  mid_point_scalar acc sc_name = (l, Ok out) ->
  ∃ f f_0 f_mid, states !! sc_name = Some f ∧ states_0 !! sc_name = Some f_0 ∧
                 average f f_0 = Ok f_mid ∧ out = <[sc_name := f_mid]> acc.
Proof.
  intros (f & Hf%getitem_inv & Hrun)%bind_lift_inv_ok.
  apply bind_lift_inv_ok in Hrun as (f_0 & Hf0%getitem_inv & Hrun).
  apply bind_lift_inv_ok in Hrun as (f_mid & Havg & Hrun).
  apply ret_inv_ok in Hrun as [_ <-]. by exists f, f_0, f_mid.
Qed.

Lemma mid_point_loop_inv names acc l out :
  foldM mid_point_scalar names acc = (l, Ok out) ->
  dom acc = dom states ->
  dom out = dom states ∧
  (∀ k, k ∉ names -> out !! k = acc !! k) ∧
  (∀ k, k ∈ names ∨ averaged acc k -> averaged out k).
Proof.
  revert acc l. induction names as [|sc_name names IH]; intros acc l Hrun Hdom.
  - apply ret_inv_ok in Hrun as [_ <-]. split; [done|]. split; [done|].
    intros k [Hk|Hk]; [by apply not_elem_of_nil in Hk | done].
  - apply foldM_cons_inv_ok in Hrun as (acc' & l1 & l2 & Hstep & Hrest & _).
    apply mid_point_scalar_inv in Hstep
      as (f & f_0 & f_mid & Hf & Hf0 & Havg & ->).
    assert (averaged (<[sc_name := f_mid]> acc) sc_name) as Hsc.
    { exists f, f_0, f_mid. by rewrite lookup_insert_eq. }
    apply IH in Hrest as (Hout & Hframe & Havgd).
    + split; [done|]. split.
      * intros k [Hne Hk]%not_elem_of_cons.
        by rewrite (Hframe k Hk), lookup_insert_ne.
      * intros k Hk. apply Havgd.
        destruct (decide (k = sc_name)) as [->|Hne]; [by right|].
        destruct Hk as [[->|Hk]%elem_of_cons | Hk]; [done | by left |].
        right. destruct Hk as (g & g_0 & g_mid & ? & ? & ? & ?).
        exists g, g_0, g_mid. by rewrite lookup_insert_ne.
    + rewrite dom_insert_L, Hdom. apply elem_of_dom_2 in Hf. set_solver.
Qed.

(** X11.  The mid-point states of the prediction step are a copy of the
    latest states: they have the same keys; the density, the thermal
    density and every transported scalar are replaced by the average of
    their fields in the latest and in the previous states; every other
    field (the velocity components among them) is passed on as it is.
    The averaging calls no collaborator. *)
Theorem mid_point_states_frame l states_mid :
  mid_point_states self states states_0 = (l, Ok states_mid) ->
  l = [] ∧
  dom states_mid = dom states ∧
  (∀ k, k ∈ _KEY_RHO :: "rho_thermal" ::
              transport_scalars_names (_params self) ->
     ∃ f f_0 f_mid, states !! k = Some f ∧ states_0 !! k = Some f_0 ∧
                    average f f_0 = Ok f_mid ∧ states_mid !! k = Some f_mid) ∧
  (∀ k, k ∉ _KEY_RHO :: "rho_thermal" ::
              transport_scalars_names (_params self) ->
     states_mid !! k = states !! k).
Proof.
  intros Hrun.
  split; [by rewrite <- (mid_point_states_calls self states states_0), Hrun|].
  revert Hrun. unfold mid_point_states.
  intros (rho & Hrho%getitem_inv & Hrun)%bind_lift_inv_ok.
  apply bind_lift_inv_ok in Hrun as (rho_0 & Hrho0%getitem_inv & Hrun).
  apply bind_lift_inv_ok in Hrun as (rho_mid & Hrho_mid & Hrun).
  apply bind_lift_inv_ok in Hrun as (th & Hth%getitem_inv & Hrun).
  apply bind_lift_inv_ok in Hrun as (th_0 & Hth0%getitem_inv & Hrun).
  apply bind_lift_inv_ok in Hrun as (th_mid & Hth_mid & Hrun).
  apply mid_point_loop_inv in Hrun as (Hdom & Hframe & Havgd).
  - split; [done|]. split.
    + intros k Hk. apply Havgd.
      apply elem_of_cons in Hk as [->|Hk].
      { right. exists rho, rho_0.
        destruct (decide (_KEY_RHO = "rho_thermal")) as [Heq|Hne];
          [discriminate Heq|].
        exists rho_mid. by rewrite lookup_insert_ne, lookup_insert_eq. }
      apply elem_of_cons in Hk as [->|Hk]; [|by left].
      right. exists th, th_0, th_mid. by rewrite lookup_insert_eq.
    + intros k [Hrho' [Hth' Hk]%not_elem_of_cons]%not_elem_of_cons.
      rewrite (Hframe k Hk). by rewrite !lookup_insert_ne.
  - rewrite !dom_insert_L. apply elem_of_dom_2 in Hrho, Hth. set_solver.
Qed.
End mid_point_frame.

(** ** The source registry and the closure table *)

Section tables.
Context {env : Collaborators}.

Lemma init_source_lookup params ib dbg (sc : ScalarConfig) :
  sc ∈ scalars params -> solve_scalar sc = true ->
  _source (__init__ params ib dbg) !! name sc = Some None.
Proof.
  intros Hin Hsolve. simpl.
  destruct (list_to_map _ !! name sc) as [v|] eqn:Hlookup.
  - apply elem_of_list_to_map_2 in Hlookup.
    apply list_elem_of_fmap in Hlookup as (sc' & [= _ ->] & _). done.
  - apply not_elem_of_list_to_map in Hlookup. destruct Hlookup.
    rewrite <- list_fmap_compose. apply list_elem_of_fmap.
    exists sc. split; [done|]. by apply list_elem_of_filter.
Qed.

Lemma reachable_source_lookup params ib dbg self (sc : ScalarConfig) :
  reachable params ib dbg self ->
  sc ∈ scalars params -> solve_scalar sc = true ->
  is_Some (_source self !! name sc).
Proof.
  intros Hreach Hin Hsolve.
  induction Hreach as [|self rid reps additional_states _ IH].
  - by rewrite init_source_lookup.
  - simpl. apply lookup_union_is_Some. by right.
Qed.

Lemma init_model_lookup (names : list string) (acc : gmap string ScalarModel)
    (s : string) :
  foldl (fun acc scalar_name =>
           <[scalar_name :=
               {| model_kind := select_scalar_model scalar_name;
                  model_scalar_name := scalar_name |}]> acc)
        acc names !! s =
  if bool_decide (s ∈ names)
  then Some {| model_kind := select_scalar_model s; model_scalar_name := s |}
  else acc !! s.
Proof.
  revert acc. induction names as [|a names IH]; intros acc; [done|].
  simpl. rewrite IH. destruct (decide (s ∈ names)) as [Hin|Hnin].
  - rewrite !bool_decide_eq_true_2; [done | by right | done].
  - rewrite (bool_decide_eq_false_2 _ Hnin).
    destruct (decide (s = a)) as [->|Hne].
    + rewrite bool_decide_eq_true_2 by left. by rewrite lookup_insert_eq.
    + rewrite bool_decide_eq_false_2 by set_solver.
      by rewrite lookup_insert_ne.
Qed.

(** X12.  After the constructor and any number of [prestep] calls, the
    source registry has an entry for every scalar that the configuration
    marks as solved, so that the assembly of the right-hand side finds an
    external source for it whenever the states hold the density; before
    the first [prestep] that source is zero in every cell. *)
Theorem solved_scalar_has_source params ib dbg self (sc : ScalarConfig)
    (states : FlowFieldMap) (rho : FlowFieldVal) :
  reachable params ib dbg self ->
  sc ∈ scalars params -> solve_scalar sc = true ->
  states !! _KEY_RHO = Some rho ->
  (∃ source, external_source self (name sc) states = Ok source) ∧
  external_source (__init__ params ib dbg) (name sc) states =
    Ok (zeros_like rho).
Proof.
  intros Hreach Hin Hsolve Hrho. split.
  - destruct (reachable_source_lookup _ _ _ _ _ Hreach Hin Hsolve)
      as [src Hsrc].
    unfold external_source.
    rewrite (getitem_Some _ _ _ Hsrc), (getitem_Some _ _ _ Hrho).
    destruct src; eauto.
  - unfold external_source.
    rewrite (getitem_Some _ _ _ (init_source_lookup _ ib dbg _ Hin Hsolve)).
    by rewrite (getitem_Some _ _ _ Hrho).
Qed.

(** X13.  The closure of a scalar is chosen by its name alone, once: after
    the constructor and any number of [prestep] calls, the closure table
    has an entry exactly for the transported scalars, and the entry of a
    scalar is the closure that the dispatch on its name selects, bound to
    that name. *)
Theorem closure_table_dispatch params ib dbg self (s : string) :
  reachable params ib dbg self ->
  _scalar_model self !! s =
  if bool_decide (s ∈ transport_scalars_names params)
  then Some {| model_kind := select_scalar_model s; model_scalar_name := s |}
  else None.
Proof.
  induction 1 as [|self rid reps additional_states _ IH]; [|done].
  simpl. by rewrite init_model_lookup.
Qed.
End tables.

(** ** A prediction step without transported scalars *)

Section no_scalars.
Context {env : Collaborators}.
Variables (self : Scalars) (replica_id : ReplicaId) (replicas : Replicas).
Variables (states states_0 additional_states : FlowFieldMap).

(** X14.  The prediction step averages the density and the thermal
    density before it looks at the scalars.  With an empty list of
    transported scalars it therefore still raises the key error of
    ['rho_thermal'] when the states lack the thermal density, before any
    collaborator call; when the two densities are there it returns the
    empty state map, after handing the empty map to the state correction
    of the immersed boundary when one is configured. *)
Theorem prediction_step_without_scalars (rho rho_0 rho_mid : FlowFieldVal) :
  transport_scalars_names (_params self) = [] ->
  states !! _KEY_RHO = Some rho ->
  states_0 !! _KEY_RHO = Some rho_0 ->
  average rho rho_0 = Ok rho_mid ->
  (states !! "rho_thermal" = None ->
   prediction_step self replica_id replicas states states_0
     additional_states = ([], Err (KeyError "rho_thermal")))
  ∧
  (∀ th th_0 th_mid,
     states !! "rho_thermal" = Some th ->
     states_0 !! "rho_thermal" = Some th_0 ->
     average th th_0 = Ok th_mid ->
     prediction_step self replica_id replicas states states_0
       additional_states =
     match _ib self with
     | Some ib =>
         ([IbUpdateStatesCall ∅],
          Ok (update_states ib replica_id replicas ∅ additional_states
                (_bc self)))
     | None => ([], Ok ∅)
     end).
Proof.
  intros Hnames Hrho Hrho0 Hmid.
  unfold prediction_step, mid_point_states. rewrite Hnames.
  rewrite (getitem_Some _ _ _ Hrho), bind_lift_ok.
  rewrite (getitem_Some _ _ _ Hrho0), bind_lift_ok.
  rewrite Hmid, bind_lift_ok. split.
  - intros Hth. by rewrite (getitem_None _ _ Hth).
  - intros th th_0 th_mid Hth Hth0 Hth_mid.
    rewrite (getitem_Some _ _ _ Hth), bind_lift_ok.
    rewrite (getitem_Some _ _ _ Hth0), bind_lift_ok.
    rewrite Hth_mid, bind_lift_ok. cbn [foldM].
    rewrite !bind_ret. by destruct (_ib self).
Qed.
End no_scalars.

(** * Properties of the uncertainty-quantification sampler *)

Lemma append_inj_l (base a b : string) : base +:+ a = base +:+ b -> a = b.
Proof. induction base as [|c base IH]; simpl; [done|]. intros [= ?]. auto. Qed.

Lemma append_inj_r (a b : string) (c : Ascii.ascii) :
  a +:+ String c "" = b +:+ String c "" -> a = b.
Proof.
  revert b. induction a as [|x a IH]; intros [|y b]; simpl; try done.
  - intros [= _ Hb]. by destruct b.
  - intros [= _ Ha]. by destruct a.
  - intros [= -> ?]. f_equal. auto.
Qed.

Lemma Qc_affine_bounds (lb ub x : Qc) :
  (lb <= ub)%Qc -> (0 <= x)%Qc -> (x <= 1)%Qc ->
  (lb <= (ub - lb) * x + lb)%Qc ∧ ((ub - lb) * x + lb <= ub)%Qc.
Proof.
  intros Hb H0 H1.
  assert (0 <= ub - lb)%Qc as Hd.
  { apply Qcle_minus_iff in Hb. by unfold Qcminus. }
  split.
  - assert (0 * x + lb <= (ub - lb) * x + lb)%Qc as Hle.
    { apply Qcplus_le_compat; [|apply Qcle_refl].
      by apply Qcmult_le_compat_r. }
    by replace (0 * x + lb)%Qc with lb in Hle by ring.
  - assert (x * (ub - lb) + lb <= 1 * (ub - lb) + lb)%Qc as Hle.
    { apply Qcplus_le_compat; [|apply Qcle_refl].
      by apply Qcmult_le_compat_r. }
    replace (1 * (ub - lb) + lb)%Qc with ub in Hle by ring.
    by rewrite (Qcmult_comm (ub - lb) x).
Qed.

Section sampler_facts.
Import FireUQ.
Variable flags : Flags.
Variable np_load : string -> uq_error + Array2.
Variable np_float32 : Qc -> Qc.

Lemma uniform_ok (self : FireUQSampler) (lb ub : Qc) (n : Z) :
  (0 <= n)%Z ->
  _uniform self lb ub n =
  inr ((fun x => ((ub - lb) * x + lb)%Qc)
         <$> (stream (sampler self) <$> seq (drawn (sampler self))
                                            (Z.to_nat n)),
       {| sampler := {| stream := stream (sampler self);
                        drawn := drawn (sampler self) + Z.to_nat n |};
          start_id := start_id self |}).
Proof.
  intros Hn. unfold _uniform, random.
  by rewrite bool_decide_eq_false_2 by lia.
Qed.

(** X15.  The data-dump prefixes are pairwise distinct, whatever the
    prefix they are derived from, and there is one for each of the
    [number_of_samples] trajectories (none when the number of samples is
    negative): no two trajectories write to the same place. *)
Theorem data_dump_prefixes_distinct (self : FireUQSampler)
    (data_dump_prefix : string) :
  NoDup (generate_data_dump_prefixes flags self data_dump_prefix) ∧
  length (generate_data_dump_prefixes flags self data_dump_prefix) =
    Z.to_nat (number_of_samples flags self).
Proof.
  unfold generate_data_dump_prefixes. split.
  - apply NoDup_fmap_2; [|apply NoDup_seqZ].
    intros i j Heq. apply append_inj_l, append_inj_r in Heq.
    by apply (inj pretty).
  - by rewrite length_fmap, length_seqZ.
Qed.

(** X16.  Unless the samples are read from a file, [generate_samples]
    returns three arrays with one entry for each of the
    [number_of_samples] trajectories, as many as there are data-dump
    prefixes; it returns whenever the number of samples is not negative
    or the parameters are modified one at a time, and refuses a negative
    number of samples otherwise. *)
Theorem sample_counts (self : FireUQSampler) (data_dump_prefix : string) :
  _READ_UQ_FILE flags = false ->
  (_MODIFY_INDIVIDUAL flags = true ∨ (0 <= _N_SAMPLES_UQ flags)%Z ->
   ∃ fuel_density moisture_density wind_speed self',
     generate_samples flags np_load np_float32 self =
       inr (fuel_density, moisture_density, wind_speed, self') ∧
     let n := length (generate_data_dump_prefixes flags self
                        data_dump_prefix) in
     n = Z.to_nat (number_of_samples flags self) ∧
     length fuel_density = n ∧ length moisture_density = n ∧
     length wind_speed = n)
  ∧
  (_MODIFY_INDIVIDUAL flags = false -> (_N_SAMPLES_UQ flags < 0)%Z ->
   generate_samples flags np_load np_float32 self = inl NegativeDimensions).
Proof.
  intros Hfile. unfold generate_samples. rewrite Hfile. split.
  - intros Hok.
    assert (length (generate_data_dump_prefixes flags self data_dump_prefix) =
            Z.to_nat (number_of_samples flags self)) as Hlen
      by (unfold generate_data_dump_prefixes;
          by rewrite length_fmap, length_seqZ).
    rewrite Hlen. unfold number_of_samples. rewrite Hfile.
    destruct (_MODIFY_INDIVIDUAL flags).
    + do 4 eexists. split; [reflexivity|]. by repeat split.
    + destruct Hok as [?|Hn]; [done|].
      rewrite uniform_ok by done. rewrite uniform_ok by done.
      rewrite uniform_ok by done.
      do 4 eexists. split; [reflexivity|]. cbn zeta.
      rewrite length_zip_with, !length_fmap, !length_seq. repeat split. lia.
  - intros -> Hn. unfold _uniform, random.
    by rewrite bool_decide_eq_true_2 by done.
Qed.

(** X17.  When the samples are read from a file, they are the first three
    columns of the array in the file, converted to single precision by
    [np.float32], one entry per row, whatever the other flags and
    [number_of_samples] say; no random number is drawn.  An array with
    fewer than three columns is refused with an index error. *)
Theorem samples_from_file (self : FireUQSampler) (uq_values : Array2) :
  _READ_UQ_FILE flags = true ->
  np_load (_UQ_FILENAME flags) = inr uq_values ->
  if bool_decide (3 <= n_columns uq_values)%nat then
    ∃ fuel_density moisture_density wind_speed,
      generate_samples flags np_load np_float32 self =
        inr (fuel_density, moisture_density, wind_speed, self) ∧
      length fuel_density = length (rows uq_values) ∧
      length moisture_density = length (rows uq_values) ∧
      length wind_speed = length (rows uq_values) ∧
      ∀ i row, rows uq_values !! i = Some row ->
        fuel_density !! i =
          Some (np_float32 (default 0%Qc (row !! 0%nat))) ∧
        moisture_density !! i =
          Some (np_float32 (default 0%Qc (row !! 1%nat))) ∧
        wind_speed !! i =
          Some (np_float32 (default 0%Qc (row !! 2%nat)))
  else generate_samples flags np_load np_float32 self = inl IndexError.
Proof.
  intros Hfile Hload. unfold generate_samples, column.
  rewrite Hfile, Hload. case_bool_decide as Hcols.
  - rewrite !bool_decide_eq_true_2 by lia.
    do 3 eexists. split; [reflexivity|]. rewrite !length_fmap.
    do 3 (split; [done|]). intros i row Hrow.
    by rewrite !list_lookup_fmap, Hrow.
  - repeat case_bool_decide; try done; lia.
Qed.

(** X18.  In exact arithmetic, that is, leaving aside the rounding of the
    product and of the sum to single precision, [_uniform] maps the
    numbers that the generator draws from the unit interval into the
    interval between the two bounds: it returns [n_samples] numbers, each
    between [lower_bound] and [upper_bound], and leaves the generator
    [n_samples] draws further. *)
Theorem uniform_within_bounds (self : FireUQSampler)
    (lower_bound upper_bound : Qc) (n_samples : Z) :
  (lower_bound <= upper_bound)%Qc ->
  (∀ i, (0 <= stream (sampler self) i)%Qc ∧
        (stream (sampler self) i <= 1)%Qc) ->
  (0 <= n_samples)%Z ->
  ∃ samples self',
    _uniform self lower_bound upper_bound n_samples = inr (samples, self') ∧
    length samples = Z.to_nat n_samples ∧
    Forall (fun x => (lower_bound <= x)%Qc ∧ (x <= upper_bound)%Qc) samples ∧
    drawn (sampler self') = (drawn (sampler self) + Z.to_nat n_samples)%nat ∧
    stream (sampler self') = stream (sampler self).
Proof.
  intros Hbounds Hunit Hn. rewrite uniform_ok by done.
  do 2 eexists. split; [reflexivity|].
  rewrite !length_fmap, length_seq. split; [done|]. split; [|done].
  apply Forall_fmap, Forall_fmap, Forall_forall. intros i _. simpl.
  destruct (Hunit i). by apply Qc_affine_bounds.
Qed.

(** X19.  In the random mode [generate_samples] draws, in this order,
    the fuel loads, the moisture contents and the wind speeds, each from
    the next [n_samples_uq] numbers of the one generator: sample [i]
    takes the numbers [i], [n + i] and [2 n + i] after those already
    drawn, its fuel density is its fuel load over the fuel-bed height and
    its moisture density is its moisture content times its fuel density.
    The generator is left [3 n] draws further. *)
Theorem random_samples_layout (self : FireUQSampler) :
  _READ_UQ_FILE flags = false ->
  _MODIFY_INDIVIDUAL flags = false ->
  (0 <= _N_SAMPLES_UQ flags)%Z ->
  let n := Z.to_nat (_N_SAMPLES_UQ flags) in
  let d := drawn (sampler self) in
  let u := stream (sampler self) in
  let scaled (lb ub x : Qc) := ((ub - lb) * x + lb)%Qc in
  ∃ fuel_density moisture_density wind_speed self',
    generate_samples flags np_load np_float32 self =
      inr (fuel_density, moisture_density, wind_speed, self') ∧
    drawn (sampler self') = (d + 3 * n)%nat ∧
    ∀ i, (i < n)%nat ->
      let fuel_load :=
        scaled (_FUEL_LOAD_LB flags) (_FUEL_LOAD_UB flags) (u (d + i)%nat) in
      let moisture_content :=
        scaled (_MOISTURE_CONTENT_LB flags) (_MOISTURE_CONTENT_UB flags)
          (u (d + n + i)%nat) in
      fuel_density !! i =
        Some (fuel_load / _LARGE_SCALE_FUEL_BED_HEIGHT flags)%Qc ∧
      moisture_density !! i =
        Some (moisture_content *
              (fuel_load / _LARGE_SCALE_FUEL_BED_HEIGHT flags))%Qc ∧
      wind_speed !! i =
        Some (scaled (_WIND_SPEED_LB flags) (_WIND_SPEED_UB flags)
                (u (d + n + n + i)%nat)).
Proof.
  intros Hfile Hmod Hn n d u scaled. unfold generate_samples.
  rewrite Hfile, Hmod. do 3 rewrite uniform_ok by done.
  cbn [sampler drawn stream].
  do 4 eexists. split; [reflexivity|]. split; [simpl; lia|].
  intros i Hi.
  assert (∀ k, seq k n !! i = Some (k + i)%nat) as Hseq
    by (intros k; by apply lookup_seq).
  split; [|split].
  - by rewrite !list_lookup_fmap, Hseq.
  - rewrite lookup_zip_with, !list_lookup_fmap, !Hseq. done.
  - by rewrite !list_lookup_fmap, Hseq.
Qed.
End sampler_facts.

(** * Properties of the lookup-table utilities *)

Section optics_utils_facts.
Import OpticsUtils.
Context {platform : Platform}.

Lemma result_bind_inv {A B} (m : result A) (k : A -> result B) (b : B) :
  (m ≫= k) = inr b -> ∃ a, m = inr a ∧ k a = inr b.
Proof. destruct m as [e|a]; [done|]. eauto. Qed.

Lemma traverse_inv {A B} (fn : A -> result B) (l : list A) (bs : list B) :
  traverse fn l = inr bs ->
  length bs = length l ∧
  ∀ p a, l !! p = Some a -> ∃ b, bs !! p = Some b ∧ fn a = inr b.
Proof.
  revert bs. induction l as [|a l IH]; intros bs.
  - intros [= <-]. by split.
  - simpl. intros (b & Hb & Hrest)%result_bind_inv.
    apply result_bind_inv in Hrest as (bs' & Hbs & [= <-]).
    destruct (IH _ Hbs) as [Hlen Hlookup]. split; [simpl; lia|].
    intros [|p] a'; simpl; [intros [= <-]; eauto | apply Hlookup].
Qed.

Lemma this_of_Z (z : Z) : (of_Z z : Q) == inject_Z z.
Proof. unfold of_Z. cbn [this Q2Qc]. apply Qred_correct. Qed.

Lemma of_Z_le (a b : Z) : (a <= b)%Z -> (of_Z a <= of_Z b)%Qc.
Proof.
  intros Hle. unfold Qcle. rewrite !this_of_Z. by rewrite <- Zle_Qle.
Qed.

Lemma of_Z_lt (a b : Z) : (a < b)%Z -> (of_Z a < of_Z b)%Qc.
Proof.
  intros Hlt. unfold Qclt. rewrite !this_of_Z. by rewrite <- Zlt_Qlt.
Qed.

Lemma of_Z_plus (a b : Z) : of_Z (a + b) = (of_Z a + of_Z b)%Qc.
Proof.
  apply Qc_is_canon. unfold of_Z. simpl. rewrite !Qred_correct.
  by rewrite inject_Z_plus.
Qed.

Lemma of_Z_0 : of_Z 0 = 0%Qc.
Proof. by apply Qc_is_canon. Qed.

Lemma of_Z_1 : of_Z 1 = 1%Qc.
Proof. by apply Qc_is_canon. Qed.

(** The floor of a quotient by a positive spacing brackets the dividend. *)
Lemma floor_brackets (x delta : Qc) :
  (0 < delta)%Qc ->
  let q := Qround.Qfloor (x / delta)%Qc in
  (of_Z q * delta <= x)%Qc ∧ (x < of_Z (q + 1) * delta)%Qc.
Proof.
  intros Hdelta q.
  assert (delta ≠ 0%Qc) as Hne
    by (intros Heq; by apply Qclt_not_eq in Hdelta).
  assert (x = x / delta * delta)%Qc as Hx by (field; done).
  split.
  - rewrite Hx at 1. apply Qcmult_le_compat_r; [|by apply Qclt_le_weak].
    unfold Qcle. rewrite this_of_Z. apply Qround.Qfloor_le.
  - rewrite Hx at 1. apply Qcmult_lt_compat_r; [done|].
    unfold Qclt. rewrite this_of_Z. apply Qround.Qlt_floor.
Qed.

Lemma clip_by_value_inv (t : list Z) (lo hi : Z) (clipped : list Z) :
  clip_by_value t lo hi = inr clipped ->
  (- 2 ^ 31 <= lo < 2 ^ 31)%Z ∧ (- 2 ^ 31 <= hi < 2 ^ 31)%Z ∧
  clipped = (fun x => Z.max (Z.min x hi) lo) <$> t.
Proof.
  unfold clip_by_value, int32.
  do 2 (case_bool_decide; simpl; [|done]). by intros [= <-].
Qed.

Lemma floor_idx_bounds (f reference_values : list Qc) (indices : list Z) :
  floor_idx f reference_values = inr indices ->
  (2 <= length reference_values)%nat ∧
  length indices = length f ∧
  Forall (fun k => (0 <= k < Z.of_nat (length reference_values))%Z) indices.
Proof.
  unfold floor_idx.
  intros (r1 & Hr1 & Hrun)%result_bind_inv.
  apply result_bind_inv in Hrun as (r0 & Hr0 & Hrun).
  apply clip_by_value_inv in Hrun as (_ & _ & ->).
  assert (2 <= length reference_values)%nat as Hsize.
  { unfold getitem in Hr1.
    destruct (reference_values !! 1%nat) eqn:Hlookup; [|done].
    apply lookup_lt_Some in Hlookup. lia. }
  split; [done|]. split; [by rewrite !length_fmap|].
  apply Forall_fmap, Forall_forall. intros t _. simpl. lia.
Qed.

Lemma floor_idx_total (f reference_values : list Qc) :
  (2 <= length reference_values)%nat ->
  (Z.of_nat (length reference_values) <= 2 ^ 31)%Z ->
  ∃ indices, floor_idx f reference_values = inr indices.
Proof.
  intros Hsize Hint. unfold floor_idx, getitem.
  destruct (lookup_lt_is_Some_2 reference_values 1) as [r1 ->]; [lia|].
  destruct (lookup_lt_is_Some_2 reference_values 0) as [r0 ->]; [lia|].
  simpl. unfold clip_by_value, int32.
  rewrite !bool_decide_eq_true_2 by lia. simpl. eauto.
Qed.

(** X20.  Given at least two reference values, and no more than [int32]
    can count, [floor_idx] returns, whatever the values are (a zero
    spacing of the reference values and a quotient outside [int32]
    included), and the indices it returns, one for each value, are
    indices of the reference values: they lie between zero and the last
    index.  With fewer than two reference values it does not return. *)
Theorem floor_idx_in_bounds (f reference_values : list Qc) :
  ((2 <= length reference_values)%nat ->
   (Z.of_nat (length reference_values) <= 2 ^ 31)%Z ->
   ∃ indices, floor_idx f reference_values = inr indices)
  ∧
  (∀ indices, floor_idx f reference_values = inr indices ->
     (2 <= length reference_values)%nat ∧
     length indices = length f ∧
     Forall (fun k => (0 <= k < Z.of_nat (length reference_values))%Z)
       indices).
Proof. split; [apply floor_idx_total | apply floor_idx_bounds]. Qed.

Lemma Qcplus_lt_compat_l (a b c : Qc) : (a < b)%Qc -> (c + a < c + b)%Qc.
Proof.
  unfold Qclt. cbn [this Qcplus Q2Qc]. rewrite !Qred_correct.
  by apply Qplus_lt_r.
Qed.

Lemma grid_le (r0 delta : Qc) (a b : Z) :
  (0 < delta)%Qc -> (a <= b)%Z ->
  (r0 + of_Z a * delta <= r0 + of_Z b * delta)%Qc.
Proof.
  intros Hdelta Hab. apply Qcplus_le_compat; [apply Qcle_refl|].
  apply Qcmult_le_compat_r; [by apply of_Z_le | by apply Qclt_le_weak].
Qed.

Lemma evenly_spaced_inv (reference_values : list Qc) (r0 r1 : Qc) :
  evenly_spaced reference_values ->
  getitem reference_values 1 = inr r1 ->
  getitem reference_values 0 = inr r0 ->
  (0 < r1 - r0)%Qc ∧
  ∀ k r, reference_values !! k = Some r ->
         r = (r0 + of_Z (Z.of_nat k) * (r1 - r0))%Qc.
Proof.
  intros (r0' & delta & Hdelta & Hgrid) Hr1 Hr0. unfold getitem in *.
  destruct (reference_values !! 1%nat) as [r1'|] eqn:H1; [|done].
  destruct (reference_values !! 0%nat) as [r0''|] eqn:H0; [|done].
  injection Hr1 as ->. injection Hr0 as ->.
  pose proof (lookup_lt_Some _ _ _ H1) as Hlt1.
  pose proof (lookup_lt_Some _ _ _ H0) as Hlt0.
  rewrite (Hgrid _ Hlt1) in H1. rewrite (Hgrid _ Hlt0) in H0.
  injection H1 as <-. injection H0 as <-.
  change (Z.of_nat 1) with 1%Z. change (Z.of_nat 0) with 0%Z.
  rewrite of_Z_0, of_Z_1.
  assert (r0' + 1 * delta - (r0' + 0 * delta) = delta)%Qc as -> by ring.
  split; [done|]. intros k r Hk.
  rewrite (Hgrid _ (lookup_lt_Some _ _ _ Hk)) in Hk. injection Hk as <-. ring.
Qed.

Lemma floordiv_int32_exact (x y : Qc) :
  y ≠ 0%Qc ->
  (- 2 ^ 31 <= Qround.Qfloor (x / y)%Qc < 2 ^ 31)%Z ->
  floordiv_int32 x y = Qround.Qfloor (x / y)%Qc.
Proof.
  intros Hy Hq. unfold floordiv_int32, int32.
  by rewrite !bool_decide_eq_true_2.
Qed.

(** What [floor_idx] computes for one value [x] on evenly spaced
    reference values: when the floor [q] of the offset of [x] in units of
    the spacing, which the grid brackets, is a number of [int32], the
    index is [q], clipped. *)
Lemma floor_idx_lookup (f reference_values : list Qc) (indices : list Z)
    (p : nat) (x : Qc) (k : Z) :
  evenly_spaced reference_values ->
  floor_idx f reference_values = inr indices ->
  f !! p = Some x -> indices !! p = Some k ->
  ∃ (r0 delta : Qc),
    (0 < delta)%Qc ∧
    reference_values !! 0%nat = Some r0 ∧
    reference_values !! 1%nat = Some (r0 + delta)%Qc ∧
    (∀ j r, reference_values !! j = Some r ->
            r = (r0 + of_Z (Z.of_nat j) * delta)%Qc) ∧
    (Z.of_nat (length reference_values) <= 2 ^ 31)%Z ∧
    let q := Qround.Qfloor ((x - r0) / delta)%Qc in
    (r0 + of_Z q * delta <= x)%Qc ∧ (x < r0 + of_Z (q + 1) * delta)%Qc ∧
    ((- 2 ^ 31 <= q < 2 ^ 31)%Z ->
     k = Z.max (Z.min q (Z.of_nat (length reference_values) - 1)) 0).
Proof.
  intros Heven Hrun Hx Hk. revert Hrun. unfold floor_idx.
  intros (r1 & Hr1 & Hrun)%result_bind_inv.
  apply result_bind_inv in Hrun as (r0 & Hr0 & Hrun).
  apply clip_by_value_inv in Hrun as (_ & Hint & ->).
  destruct (evenly_spaced_inv _ _ _ Heven Hr1 Hr0) as [Hdelta Hgrid].
  rewrite !list_lookup_fmap, Hx in Hk. injection Hk as <-.
  exists r0, (r1 - r0)%Qc. split; [done|].
  unfold getitem in Hr0, Hr1.
  destruct (reference_values !! 0%nat) as [r0'|] eqn:H0; [|done].
  destruct (reference_values !! 1%nat) as [r1'|] eqn:H1; [|done].
  injection Hr0 as ->. injection Hr1 as ->.
  split; [done|]. split; [f_equal; ring|]. split; [done|].
  split; [lia|]. cbv zeta.
  destruct (floor_brackets (x - r0) (r1 - r0) Hdelta) as [Hlo Hhi].
  split; [|split].
  - replace x with (r0 + (x - r0))%Qc at 2 by ring.
    apply Qcplus_le_compat; [apply Qcle_refl | done].
  - replace x with (r0 + (x - r0))%Qc at 1 by ring.
    by apply Qcplus_lt_compat_l.
  - intros Hq. rewrite floordiv_int32_exact; [done| |done].
    intros Heq. by apply Qclt_not_eq in Hdelta.
Qed.

(** X21.  For evenly spaced, increasing reference values, and a value
    whose offset from the first reference value, in units of the spacing,
    has a floor in the range of [int32], the index that [floor_idx]
    returns for the value is the highest index [k] with
    [reference_values[k] <= f], as its docstring says, provided the value
    is not below the first reference value (the index is zero if it is):
    the reference value at the index is at most the value, and every
    reference value after it is greater than the value. *)
Theorem floor_idx_is_floor (f reference_values : list Qc)
    (indices : list Z) (p : nat) (x : Qc) (k : Z) :
  evenly_spaced reference_values ->
  floor_idx f reference_values = inr indices ->
  f !! p = Some x -> indices !! p = Some k ->
  (∀ r0 r1,
     reference_values !! 0%nat = Some r0 ->
     reference_values !! 1%nat = Some r1 ->
     (- 2 ^ 31 <= Qround.Qfloor ((x - r0) / (r1 - r0))%Qc < 2 ^ 31)%Z) ->
  (∀ r0, reference_values !! 0%nat = Some r0 -> (r0 <= x)%Qc ->
     ∃ r_k, reference_values !! Z.to_nat k = Some r_k ∧ (r_k <= x)%Qc)
  ∧
  (∀ j r_j, (Z.to_nat k < j)%nat -> reference_values !! j = Some r_j ->
     (x < r_j)%Qc).
Proof.
  intros Heven Hrun Hx Hk Hint.
  destruct (floor_idx_bounds _ _ _ Hrun) as (Hsize & _ & Hbounds).
  pose proof (proj1 (Forall_lookup _ _) Hbounds _ _ Hk) as Hkb.
  destruct (floor_idx_lookup _ _ _ _ _ _ Heven Hrun Hx Hk)
    as (r0 & delta & Hdelta & H0 & H1 & Hgrid & _ & Hlo & Hhi & Hkq).
  specialize (Hint _ _ H0 H1).
  replace (r0 + delta - r0)%Qc with delta in Hint by ring.
  specialize (Hkq Hint). subst k.
  set (q := Qround.Qfloor ((x - r0) / delta)%Qc) in *.
  split.
  - intros r0' Hr0' Hge. rewrite H0 in Hr0'. injection Hr0' as <-.
    assert (0 <= q)%Z as Hq.
    { destruct (Z_lt_le_dec q 0) as [Hneg|]; [exfalso|done].
      apply (Qcle_not_lt _ _ Hge). eapply Qclt_le_trans; [exact Hhi|].
      replace r0 with (r0 + of_Z 0 * delta)%Qc at 2
        by (rewrite of_Z_0; ring).
      apply grid_le; [done | lia]. }
    destruct (lookup_lt_is_Some_2 reference_values
                (Z.to_nat (Z.max (Z.min q
                   (Z.of_nat (length reference_values) - 1)) 0)))
      as [r_k Hr_k]; [lia|].
    exists r_k. split; [done|]. rewrite (Hgrid _ _ Hr_k).
    eapply Qcle_trans; [|exact Hlo]. apply grid_le; [done | lia].
  - intros j r_j Hj Hr_j. pose proof (lookup_lt_Some _ _ _ Hr_j) as Hlt.
    rewrite (Hgrid _ _ Hr_j). eapply Qclt_le_trans; [exact Hhi|].
    apply grid_le; [done | lia].
Qed.

Lemma grid_lt (r0 delta : Qc) (a b : Z) :
  (0 < delta)%Qc -> (a < b)%Z ->
  (r0 + of_Z a * delta < r0 + of_Z b * delta)%Qc.
Proof.
  intros Hdelta Hab. apply Qcplus_lt_compat_l.
  apply Qcmult_lt_compat_r; [done | by apply of_Z_lt].
Qed.

Lemma reduce_min_spec (t : list Qc) :
  match reduce_min t with
  | None => t = []
  | Some m => m ∈ t ∧ ∀ x, x ∈ t -> (m <= x)%Qc
  end.
Proof.
  induction t as [|a t IH]; [done|]. simpl.
  destruct (reduce_min t) as [m|].
  - destruct IH as [Hin Hmin]. destruct (Qclt_le_dec m a) as [Hlt|Hle].
    + split; [by right|]. intros x [->|Hx]%elem_of_cons; [|by apply Hmin].
      by apply Qclt_le_weak.
    + split; [by left|]. intros x [->|Hx]%elem_of_cons; [apply Qcle_refl|].
      eapply Qcle_trans; [exact Hle | by apply Hmin].
  - subst t. split; [by left|].
    intros x [->|Hx]%elem_of_cons; [apply Qcle_refl | by inv Hx].
Qed.

Lemma reduce_max_spec (t : list Qc) :
  match reduce_max t with
  | None => t = []
  | Some m => m ∈ t ∧ ∀ x, x ∈ t -> (x <= m)%Qc
  end.
Proof.
  induction t as [|a t IH]; [done|]. simpl.
  destruct (reduce_max t) as [m|].
  - destruct IH as [Hin Hmax]. destruct (Qclt_le_dec a m) as [Hlt|Hle].
    + split; [by right|]. intros x [->|Hx]%elem_of_cons; [|by apply Hmax].
      by apply Qclt_le_weak.
    + split; [by left|]. intros x [->|Hx]%elem_of_cons; [apply Qcle_refl|].
      eapply Qcle_trans; [by apply Hmax | exact Hle].
  - subst t. split; [by left|].
    intros x [->|Hx]%elem_of_cons; [apply Qcle_refl | by inv Hx].
Qed.

(** A range check that passes: every value lies between two reference
    values. *)
Lemma validate_range_inv (f reference_values : list Qc) (x : Qc) :
  validate_range f reference_values = inr tt -> x ∈ f ->
  (∃ a, a ∈ reference_values ∧ (a <= x)%Qc) ∧
  (∃ b, b ∈ reference_values ∧ (x <= b)%Qc).
Proof.
  unfold validate_range. cbv zeta.
  intros ([] & Hlow & Hhigh)%result_bind_inv Hx.
  pose proof (reduce_min_spec f) as Hmin_f.
  pose proof (reduce_min_spec reference_values) as Hmin_r.
  pose proof (reduce_max_spec f) as Hmax_f.
  pose proof (reduce_max_spec reference_values) as Hmax_r.
  unfold assert_greater_equal, assert_less_equal in *.
  destruct (reduce_min f) as [mf|]; [|rewrite Hmin_f in Hx; by inv Hx].
  destruct (reduce_max f) as [xf|]; [|rewrite Hmax_f in Hx; by inv Hx].
  destruct (reduce_min reference_values) as [mr|]; [|done].
  destruct (reduce_max reference_values) as [xr|]; [|done].
  destruct (Qclt_le_dec mf mr) as [|Hlo]; [done|].
  destruct (Qclt_le_dec xr xf) as [|Hhi]; [done|].
  destruct Hmin_f as [_ Hmin_f], Hmax_f as [_ Hmax_f].
  destruct Hmin_r as [Hmr _], Hmax_r as [Hxr _]. split.
  - exists mr. split; [done|]. eapply Qcle_trans; [exact Hlo | by apply Hmin_f].
  - exists xr. split; [done|]. eapply Qcle_trans; [by apply Hmax_f | exact Hhi].
Qed.

Lemma lookup_values_vector (values : list Qc) (indices : list Z)
    (out : list Qc) (p : nat) (k : Z) :
  lookup_values (vector values) [indices] = inr out ->
  indices !! p = Some k ->
  ∃ r, out !! p = Some r ∧ (0 <= k)%Z ∧ values !! Z.to_nat k = Some r.
Proof.
  unfold lookup_values, index_tuples. simpl.
  unfold same_shape. rewrite bool_decide_eq_true_2 by done. simpl.
  intros [_ Hgather]%traverse_inv Hk.
  destruct (Hgather p [k]) as (r & Hr & Hg).
  { apply lookup_zip_with_Some. exists k, []. split; [done|]. split; [done|].
    apply lookup_replicate_2. by apply lookup_lt_Some in Hk. }
  exists r. split; [done|]. revert Hg. unfold vector. simpl.
  case_bool_decide; [|done]. rewrite list_lookup_fmap.
  destruct (values !! Z.to_nat k) as [v|]; [|done]. simpl.
  by intros [= ->].
Qed.

Lemma Qcdiv_bounds (a d : Qc) :
  (0 < d)%Qc -> (0 <= a)%Qc -> (a <= d)%Qc ->
  (0 <= a / d)%Qc ∧ (a / d <= 1)%Qc ∧ (a / d * d = a)%Qc.
Proof.
  intros Hd H0 H1.
  assert (d ≠ 0%Qc) as Hne by (intros Heq; by apply Qclt_not_eq in Hd).
  assert (a / d * d = a)%Qc as Heq by (field; done).
  split; [|split; [|done]].
  - apply (Qcmult_lt_0_le_reg_r _ _ d Hd). by rewrite Heq, Qcmult_0_l.
  - apply (Qcmult_lt_0_le_reg_r _ _ d Hd). by rewrite Heq, Qcmult_1_l.
Qed.

Lemma linear_interpolant_lookup (f f_ref : list Qc)
    (offset : option (list Z)) (interpolant : Interpolant) (p : nat)
    (x : Qc) :
  evenly_spaced f_ref ->
  create_linear_interpolant f f_ref offset = inr interpolant ->
  f !! p = Some x ->
  ∃ (lo hi : nat) (shift : Z) (w1 w2 r_lo r_hi : Qc),
    idx (interp_low interpolant) !! p = Some (Z.of_nat lo + shift)%Z ∧
    idx (interp_high interpolant) !! p = Some (Z.of_nat hi + shift)%Z ∧
    match offset with
    | None => shift = 0%Z
    | Some offset => offset !! p = Some shift
    end ∧
    weight (interp_low interpolant) !! p = Some w1 ∧
    weight (interp_high interpolant) !! p = Some w2 ∧
    f_ref !! lo = Some r_lo ∧ f_ref !! hi = Some r_hi ∧
    (hi = S lo ∨ (hi = lo ∧ S lo = length f_ref)) ∧
    (0 <= w1)%Qc ∧ (0 <= w2)%Qc ∧ (w1 + w2 = 1)%Qc ∧
    (w1 * r_lo + w2 * r_hi = x)%Qc ∧
    (r_lo <= x)%Qc ∧ (x <= r_hi)%Qc.
Proof.
  intros Heven Hrun Hx. revert Hrun. unfold create_linear_interpolant.
  intros ([] & Hvalid & Hrun)%result_bind_inv.
  apply result_bind_inv in Hrun as (r1 & Hr1 & Hrun).
  apply result_bind_inv in Hrun as (r0 & Hr0 & Hrun).
  apply result_bind_inv in Hrun as (idx_low & Hfloor & Hrun).
  apply result_bind_inv in Hrun as (lower & Hlower & Hrun).
  apply result_bind_inv in Hrun as (weight2 & Hweight2 & Hrun).
  apply result_bind_inv in Hrun as (idx_low' & Hlow' & Hrun).
  apply result_bind_inv in Hrun as (idx_high' & Hhigh' & [= <-]).
  cbn [interp_low interp_high idx weight].
  destruct (floor_idx_bounds _ _ _ Hfloor) as (Hsize & Hlen & Hbounds).
  destruct (lookup_lt_is_Some_2 idx_low p) as [k Hk];
    [rewrite Hlen; by apply lookup_lt_Some in Hx|].
  destruct (floor_idx_lookup _ _ _ _ _ _ Heven Hfloor Hx Hk)
    as (g0 & delta & Hdelta & Hg0 & Hg1 & Hgrid & Hint & Hlo & Hhi & Hkq).
  set (q := Qround.Qfloor ((x - g0) / delta)%Qc) in *.
  assert (r0 = g0 ∧ (r1 - r0)%Qc = delta) as [-> Hd].
  { unfold getitem in Hr0, Hr1. rewrite Hg0 in Hr0. rewrite Hg1 in Hr1.
    injection Hr0 as <-. injection Hr1 as <-. split; [done | ring]. }
  rewrite Hd in Hweight2. clear Hd Hr0 Hr1 r1.
  (* the value is inside the grid *)
  destruct (validate_range_inv _ _ x Hvalid)
    as [(a & Ha & Hax) (b & Hb & Hxb)]; [by eapply list_elem_of_lookup_2|].
  apply list_elem_of_lookup_1 in Ha as [ia Ha].
  apply list_elem_of_lookup_1 in Hb as [ib Hb].
  pose proof (lookup_lt_Some _ _ _ Hb) as Hib.
  rewrite (Hgrid _ _ Ha) in Hax. rewrite (Hgrid _ _ Hb) in Hxb.
  assert (0 <= q)%Z as Hq0.
  { destruct (Z_lt_le_dec q 0) as [Hneg|]; [exfalso|done].
    apply (Qcle_not_lt _ _ Hax). eapply Qclt_le_trans; [exact Hhi|].
    apply grid_le; [done | lia]. }
  assert (q <= Z.of_nat (length f_ref) - 1)%Z as Hq1.
  { destruct (Z_lt_le_dec (Z.of_nat (length f_ref) - 1) q) as [Hbig|];
      [exfalso|done].
    apply (Qcle_not_lt _ _ Hxb). eapply Qclt_le_trans; [|exact Hlo].
    apply grid_lt; [done | lia]. }
  rewrite Hkq in Hk by lia.
  replace (Z.max (Z.min q (Z.of_nat (length f_ref) - 1)) 0) with q in Hk
    by lia.
  (* the two reference values *)
  destruct (lookup_values_vector _ _ _ _ _ Hlower Hk)
    as (r_lo & Hr_lo & _ & Hlo').
  pose proof (Hgrid _ _ Hlo') as Hr_lo_eq.
  rewrite Z2Nat.id in Hr_lo_eq by done.
  set (h := Z.min (q + 1) (Z.of_nat (length f_ref) - 1)).
  destruct (lookup_lt_is_Some_2 f_ref (Z.to_nat h)) as [r_hi Hr_hi];
    [unfold h; lia|].
  pose proof (Hgrid _ _ Hr_hi) as Hr_hi_eq.
  rewrite Z2Nat.id in Hr_hi_eq by (unfold h; lia).
  (* the weights *)
  assert (0 <= x - r_lo)%Qc as Hnum0.
  { rewrite Hr_lo_eq. apply Qcle_minus_iff in Hlo. exact Hlo. }
  assert (x - r_lo <= delta)%Qc as Hnum1.
  { rewrite Hr_lo_eq. apply Qclt_le_weak. apply Qclt_minus_iff.
    apply Qclt_minus_iff in Hhi. rewrite of_Z_plus, of_Z_1 in Hhi.
    by replace (delta + - (x - (g0 + of_Z q * delta)))%Qc
      with (g0 + (of_Z q + 1) * delta + - x)%Qc by ring. }
  destruct (Qcdiv_bounds _ _ Hdelta Hnum0 Hnum1) as (Hw0 & Hw1 & Hwd).
  revert Hweight2. unfold elementwise. destruct (same_shape f lower); [|done].
  intros [= <-].
  assert (zip_with (fun x l => Qcabs.Qcabs ((x - l) / delta)%Qc) f lower !! p
          = Some ((x - r_lo) / delta)%Qc) as Hw2.
  { apply lookup_zip_with_Some. exists x, r_lo.
    split; [by rewrite Qcabs.Qcabs_pos | done]. }
  (* the offset *)
  assert (∃ shift,
            idx_low' !! p = Some (q + shift)%Z ∧
            idx_high' !! p = Some (h + shift)%Z ∧
            match offset with
            | None => shift = 0%Z
            | Some offset => offset !! p = Some shift
            end) as (shift & Hil & Hih & Hshift).
  { assert (((fun i => Z.min (i + 1) (Z.of_nat (length f_ref) - 1))
               <$> idx_low) !! p = Some h) as Hh
      by (by rewrite list_lookup_fmap, Hk).
    destruct offset as [o|]; simpl in Hlow', Hhigh'.
    - revert Hlow' Hhigh'. unfold same_shape.
      case_bool_decide as Hshape; [|done]. intros [= <-].
      case_bool_decide; [|done]. intros [= <-].
      destruct (lookup_lt_is_Some_2 o p) as [shift Hs];
        [rewrite <- Hshape; by apply lookup_lt_Some in Hk|].
      exists shift. split; [|split; [|done]].
      + apply lookup_zip_with_Some. by exists q, shift.
      + apply lookup_zip_with_Some. by exists h, shift.
    - injection Hlow' as <-. injection Hhigh' as <-.
      exists 0%Z. by rewrite !Z.add_0_r. }
  assert (x <= g0 + of_Z (Z.of_nat (length f_ref) - 1) * delta)%Qc as Hlast.
  { eapply Qcle_trans; [exact Hxb|]. apply grid_le; [done | lia]. }
  exists (Z.to_nat q), (Z.to_nat h), shift, (1 - (x - r_lo) / delta)%Qc,
    ((x - r_lo) / delta)%Qc, r_lo, r_hi.
  rewrite !Z2Nat.id by (unfold h; lia).
  do 3 (split; [done|]).
  split; [by rewrite list_lookup_fmap, Hw2|].
  do 3 (split; [done|]).
  destruct (decide (q + 1 <= Z.of_nat (length f_ref) - 1)%Z) as [Hin|Hout].
  - assert (h = q + 1)%Z as Hh by (unfold h; lia).
    assert (r_hi = r_lo + delta)%Qc as Hr_hi'.
    { rewrite Hr_hi_eq, Hr_lo_eq, Hh, of_Z_plus, of_Z_1. ring. }
    split; [left; lia|]. split.
    { apply Qcle_minus_iff in Hw1. exact Hw1. }
    split; [done|]. split; [ring|]. split; [|split].
    + replace ((1 - (x - r_lo) / delta) * r_lo +
               (x - r_lo) / delta * r_hi)%Qc
        with (r_lo + (x - r_lo) / delta * delta)%Qc by (rewrite Hr_hi'; ring).
      rewrite Hwd. ring.
    + by rewrite Hr_lo_eq.
    + apply Qclt_le_weak. rewrite Hr_hi_eq, Hh. exact Hhi.
  - assert (h = q)%Z as Hh by (unfold h; lia).
    assert (r_hi = r_lo) as Hr_hi' by (by rewrite Hr_hi_eq, Hr_lo_eq, Hh).
    assert (x = r_lo) as Hxeq.
    { apply Qcle_antisym; [|by rewrite Hr_lo_eq].
      rewrite Hr_lo_eq. eapply Qcle_trans; [exact Hlast|].
      apply grid_le; [done | lia]. }
    split; [right; lia|]. split.
    { apply Qcle_minus_iff in Hw1. exact Hw1. }
    split; [done|]. split; [ring|]. split; [|split].
    + rewrite Hr_hi', Hxeq. ring.
    + by rewrite Hr_lo_eq.
    + rewrite Hr_hi', Hxeq. apply Qcle_refl.
Qed.

(** A weighted lookup along the one axis of a vector of coefficients. *)
Lemma weighted_lookup_vector (table : list Qc) (iw : IndexAndWeight)
    (out : list Qc) (p : nat) (k : Z) (w : Qc) :
  evaluate_weighted_lookup (vector table) [iw] = inr out ->
  idx iw !! p = Some k -> weight iw !! p = Some w ->
  ∃ c, (0 <= k)%Z ∧ table !! Z.to_nat k = Some c ∧
       out !! p = Some (c * w)%Qc.
Proof.
  unfold evaluate_weighted_lookup. simpl.
  intros (vals & Hvals & Hrun)%result_bind_inv Hk Hw.
  apply result_bind_inv in Hrun as (scale & Hscale & Hout).
  destruct (lookup_values_vector _ _ _ _ _ Hvals Hk) as (c & Hc & Hk0 & Htable).
  exists c. do 2 (split; [done|]).
  revert Hscale. unfold reduce_prod_stack. simpl.
  unfold same_shape at 1. rewrite bool_decide_eq_true_2 by done. simpl.
  intros [= <-]. revert Hout. unfold elementwise.
  destruct (same_shape _ _); [|done]. intros [= <-].
  apply lookup_zip_with_Some. exists c, w. split; [done|]. split; [done|].
  apply lookup_zip_with_Some. exists w, 1%Qc. split; [ring|]. split; [done|].
  apply lookup_replicate_2. by apply lookup_lt_Some in Hw.
Qed.

(** Interpolation along one axis: the sum of the two weighted lookups of
    the interpolant that the one interpolant function returns. *)
Lemma interpolate_vector (table : list Qc) (varname : string)
    (interpolant_fn : IndexAndWeightDict -> result Interpolant)
    (out : list Qc) :
  interpolate (vector table) [(varname, interpolant_fn)] [] = inr out ->
  ∃ interpolant,
    interpolant_fn [] = inr interpolant ∧
    ∀ p k_lo k_hi w_lo w_hi,
      idx (interp_low interpolant) !! p = Some k_lo ->
      weight (interp_low interpolant) !! p = Some w_lo ->
      idx (interp_high interpolant) !! p = Some k_hi ->
      weight (interp_high interpolant) !! p = Some w_hi ->
      ∃ c_lo c_hi,
        table !! Z.to_nat k_lo = Some c_lo ∧
        table !! Z.to_nat k_hi = Some c_hi ∧
        out !! p = Some (c_lo * w_lo + c_hi * w_hi)%Qc.
Proof.
  simpl. intros (interpolant & Hfn & Hrun)%result_bind_inv.
  apply result_bind_inv in Hrun as (lower & Hlower & Hrun).
  apply result_bind_inv in Hrun as (higher & Hhigher & Hout).
  exists interpolant. split; [done|].
  intros p k_lo k_hi w_lo w_hi Hk_lo Hw_lo Hk_hi Hw_hi.
  destruct (weighted_lookup_vector _ _ _ _ _ _ Hlower Hk_lo Hw_lo)
    as (c_lo & _ & Hc_lo & Hlo).
  destruct (weighted_lookup_vector _ _ _ _ _ _ Hhigher Hk_hi Hw_hi)
    as (c_hi & _ & Hc_hi & Hhi).
  exists c_lo, c_hi. do 2 (split; [done|]).
  revert Hout. unfold elementwise. destruct (same_shape _ _); [|done].
  intros [= <-]. apply lookup_zip_with_Some. by exists (c_lo * w_lo)%Qc,
    (c_hi * w_hi)%Qc.
Qed.

(** X23.  Interpolating a one-axis table of coefficients with the linear
    interpolant of evenly spaced reference values is linear interpolation
    between neighbours: every value [x] lies between two consecutive
    reference values (or on the last one), [x = (1 - w) r_lo + w r_hi]
    with a weight [w] between zero and one, and the value returned for it
    is the same combination [(1 - w) c_lo + w c_hi] of the coefficients
    at the two indices. *)
Theorem interpolate_between_neighbours (table f f_ref : list Qc)
    (varname : string) (out : list Qc) (p : nat) (x : Qc) :
  evenly_spaced f_ref ->
  interpolate (vector table)
    [(varname, fun _ => create_linear_interpolant f f_ref None)] [] =
    inr out ->
  f !! p = Some x ->
  ∃ (lo hi : nat) (w r_lo r_hi c_lo c_hi : Qc),
    (hi = S lo ∨ (hi = lo ∧ S lo = length f_ref)) ∧
    f_ref !! lo = Some r_lo ∧ f_ref !! hi = Some r_hi ∧
    table !! lo = Some c_lo ∧ table !! hi = Some c_hi ∧
    (0 <= w)%Qc ∧ (w <= 1)%Qc ∧
    (x = (1 - w) * r_lo + w * r_hi)%Qc ∧
    out !! p = Some ((1 - w) * c_lo + w * c_hi)%Qc.
Proof.
  intros Heven Hrun Hx.
  apply interpolate_vector in Hrun as (interpolant & Hfn & Hout).
  destruct (linear_interpolant_lookup _ _ _ _ _ _ Heven Hfn Hx)
    as (lo & hi & shift & w1 & w2 & r_lo & r_hi & Hlo & Hhi & -> & Hw1 & Hw2
        & Hr_lo & Hr_hi & Hnext & Hw1_0 & Hw2_0 & Hsum & Hrepr & _).
  rewrite Z.add_0_r in Hlo, Hhi.
  destruct (Hout _ _ _ _ _ Hlo Hw1 Hhi Hw2) as (c_lo & c_hi & Hc_lo & Hc_hi & Hp).
  rewrite Nat2Z.id in Hc_lo, Hc_hi.
  assert (w1 = 1 - w2)%Qc as Hw1_eq by (rewrite <- Hsum; ring).
  exists lo, hi, w2, r_lo, r_hi, c_lo, c_hi.
  do 5 (split; [done|]). split; [done|]. split.
  { apply Qcle_minus_iff. by rewrite Hw1_eq in Hw1_0. }
  split.
  - rewrite <- Hrepr, Hw1_eq. ring.
  - rewrite Hp, Hw1_eq. f_equal. ring.
Qed.

(** X24.  Interpolation is exact on tables that are linear in the
    reference values: when the coefficient at every index is
    [a * r + b] for the reference value [r] at that index, the value
    returned for [x] is [a * x + b]; in particular the reference values
    themselves, taken as the table, give back the values. *)
Theorem interpolate_linear_table_exact (table f f_ref : list Qc)
    (varname : string) (out : list Qc) (a b : Qc) :
  evenly_spaced f_ref ->
  (∀ k r, f_ref !! k = Some r -> table !! k = Some (a * r + b)%Qc) ->
  interpolate (vector table)
    [(varname, fun _ => create_linear_interpolant f f_ref None)] [] =
    inr out ->
  ∀ p x, f !! p = Some x -> out !! p = Some (a * x + b)%Qc.
Proof.
  intros Heven Htable Hrun p x Hx.
  apply interpolate_vector in Hrun as (interpolant & Hfn & Hout).
  destruct (linear_interpolant_lookup _ _ _ _ _ _ Heven Hfn Hx)
    as (lo & hi & shift & w1 & w2 & r_lo & r_hi & Hlo & Hhi & -> & Hw1 & Hw2
        & Hr_lo & Hr_hi & _ & _ & _ & Hsum & Hrepr & _).
  rewrite Z.add_0_r in Hlo, Hhi.
  destruct (Hout _ _ _ _ _ Hlo Hw1 Hhi Hw2) as (c_lo & c_hi & Hc_lo & Hc_hi & Hp).
  rewrite Nat2Z.id in Hc_lo, Hc_hi.
  rewrite (Htable _ _ Hr_lo) in Hc_lo. rewrite (Htable _ _ Hr_hi) in Hc_hi.
  injection Hc_lo as <-. injection Hc_hi as <-.
  rewrite Hp. f_equal. rewrite <- Hrepr.
  replace b with ((w1 + w2) * b)%Qc at 3 by (rewrite Hsum; ring). ring.
Qed.
Lemma update_fresh (d : IndexAndWeightDict) (k : string)
    (v : IndexAndWeight) :
  k ∉ d.*1 -> update d k v = d ++ [(k, v)].
Proof.
  induction d as [|[k' v'] d IH]; [done|]. simpl.
  intros [Hne Hk]%not_elem_of_cons.
  rewrite bool_decide_eq_false_2 by done. by rewrite IH.
Qed.

Lemma weights_at_snoc (p : nat) (d : IndexAndWeightDict) (k : string)
    (v : IndexAndWeight) :
  weights_at p (d ++ [(k, v)]) =
  (weights_at p d * default 1%Qc (weight v !! p))%Qc.
Proof.
  unfold weights_at. rewrite !fmap_app, foldr_app. simpl.
  generalize (weight <$> d.*2). intros ws.
  induction ws as [|w ws IH]; simpl; [ring|]. rewrite IH. ring.
Qed.

Lemma foldr_zip_with_lookup (weights : list (list Qc)) (m : nat) :
  (∀ w, w ∈ weights -> length w = m) ->
  length (foldr (zip_with Qcmult) (replicate m 1%Qc) weights) = m ∧
  ∀ p, (p < m)%nat ->
    foldr (zip_with Qcmult) (replicate m 1%Qc) weights !! p =
    Some (foldr (fun w acc => (default 1%Qc (w !! p) * acc)%Qc) 1%Qc weights).
Proof.
  intros Hlen. induction weights as [|w weights IH]; simpl.
  - split; [by rewrite length_replicate|]. intros p Hp.
    by apply lookup_replicate_2.
  - destruct IH as [IHlen IHlookup]; [intros w' Hw'; apply Hlen; by right|].
    assert (length w = m) as Hw by (apply Hlen; by left).
    split; [rewrite length_zip_with; lia|]. intros p Hp.
    destruct (lookup_lt_is_Some_2 w p) as [x Hx]; [lia|].
    apply lookup_zip_with_Some. eexists x, _.
    split; [|split; [done | by apply IHlookup]]. by rewrite Hx.
Qed.

Lemma reduce_prod_stack_lookup (weights : list (list Qc)) (m : nat)
    (scale : list Qc) :
  (∀ w, w ∈ weights -> length w = m) ->
  reduce_prod_stack weights = inr scale ->
  length scale = m ∧
  ∀ p, (p < m)%nat ->
    scale !! p =
    Some (foldr (fun w acc => (default 1%Qc (w !! p) * acc)%Qc) 1%Qc weights).
Proof.
  intros Hlen. unfold reduce_prod_stack.
  destruct weights as [|w0 weights']; [done|].
  destruct (forallb _ _); [|done]. rewrite (Hlen w0) by left.
  intros Heq. injection Heq as <-.
  by apply (foldr_zip_with_lookup (w0 :: weights')).
Qed.

Lemma lookup_values_constant (c : Qc) (coeffs : Tensor)
    (idx_list : list (list Z)) (vals : list Qc) :
  constant_table c coeffs ->
  lookup_values coeffs idx_list = inr vals ->
  ∀ p v, vals !! p = Some v -> v = c.
Proof.
  intros Hconst. unfold lookup_values.
  intros (tuples & _ & [Hlen Hgather]%traverse_inv)%result_bind_inv p v Hv.
  destruct (lookup_lt_is_Some_2 tuples p) as [index Hindex];
    [rewrite <- Hlen; by apply lookup_lt_Some in Hv|].
  destruct (Hgather _ _ Hindex) as (v' & Hv' & Hg).
  rewrite Hv in Hv'. injection Hv' as <-. by eapply Hconst.
Qed.

(** On a constant table, what [interpolate] returns from a dict of
    indices and weights is the constant times the product of the weights
    of the dict. *)
Lemma interpolate_constant (c : Qc) (coeffs : Tensor) (m : nat)
    (interpolant_fns :
       list (string * (IndexAndWeightDict -> result Interpolant)))
    (d : IndexAndWeightDict) (out : list Qc) :
  constant_table c coeffs ->
  NoDup interpolant_fns.*1 ->
  (∀ k, k ∈ interpolant_fns.*1 -> k ∉ d.*1) ->
  (∀ e, e ∈ d -> length (weight e.2) = m) ->
  (∀ fn d' interpolant,
     fn ∈ interpolant_fns.*2 -> fn d' = inr interpolant ->
     normalized m interpolant) ->
  interpolate coeffs interpolant_fns d = inr out ->
  length out = m ∧
  ∀ p, (p < m)%nat -> out !! p = Some (c * weights_at p d)%Qc.
Proof.
  intros Hconst. revert d out.
  induction interpolant_fns as [|[varname fn] fns IH];
    intros d out Hnodup Hfresh Hlen Hnorm.
  - simpl. destruct d as [|e d']; [done|].
    set (entries := e :: d') in *. clearbody entries.
    unfold evaluate_weighted_lookup.
    intros (vals & Hvals & Hrun)%result_bind_inv.
    apply result_bind_inv in Hrun as (scale & Hscale & Hout).
    apply (reduce_prod_stack_lookup _ m) in Hscale as [Hslen Hscale].
    2:{ intros w (iw & -> & (e' & -> & He')%list_elem_of_fmap)
          %list_elem_of_fmap.
        by apply Hlen. }
    revert Hout. unfold elementwise, same_shape.
    case_bool_decide as Hshape; [|done]. intros [= <-].
    split; [rewrite length_zip_with; lia|]. intros p Hp.
    destruct (lookup_lt_is_Some_2 vals p) as [v Hv]; [lia|].
    rewrite (lookup_values_constant _ _ _ _ Hconst Hvals _ _ Hv) in Hv.
    apply lookup_zip_with_Some. eexists c, _.
    split; [|split; [done | by apply Hscale]]. done.
  - simpl. intros (interpolant & Hfn & Hrun)%result_bind_inv.
    apply result_bind_inv in Hrun as (lower & Hlower & Hrun).
    apply result_bind_inv in Hrun as (higher & Hhigher & Hout).
    apply NoDup_cons in Hnodup as [Hvar Hnodup].
    assert (varname ∉ d.*1) as Hd by (apply Hfresh; by left).
    destruct (Hnorm fn d interpolant) as (Hlo_len & Hhi_len & Hsum);
      [by left | done |].
    rewrite (update_fresh _ _ _ Hd) in Hlower.
    rewrite (update_fresh _ _ _ Hd) in Hhigher.
    assert (∀ iw, length (weight iw) = m ->
              (∀ k, k ∈ fns.*1 -> k ∉ (d ++ [(varname, iw)]).*1) ∧
              (∀ e, e ∈ d ++ [(varname, iw)] -> length (weight e.2) = m))
      as Hnext.
    { intros iw Hiw. split.
      - intros k Hk. rewrite fmap_app. apply not_elem_of_app. split.
        + apply Hfresh. by right.
        + simpl. intros ->%list_elem_of_singleton. done.
      - intros e [He | ->%list_elem_of_singleton]%elem_of_app;
          [by apply Hlen | done]. }
    destruct (Hnext _ Hlo_len) as [Hf_lo Hl_lo].
    destruct (Hnext _ Hhi_len) as [Hf_hi Hl_hi].
    assert (∀ fn' d' interpolant',
              fn' ∈ fns.*2 -> fn' d' = inr interpolant' ->
              normalized m interpolant') as Hnorm'
      by (intros fn' ???; apply Hnorm; by right).
    apply (IH _ _ Hnodup Hf_lo Hl_lo Hnorm') in Hlower as [Hlower_len Hlower].
    apply (IH _ _ Hnodup Hf_hi Hl_hi Hnorm') in Hhigher
      as [Hhigher_len Hhigher].
    revert Hout. unfold elementwise. destruct (same_shape _ _); [|done].
    intros [= <-]. split; [rewrite length_zip_with; lia|]. intros p Hp.
    destruct (lookup_lt_is_Some_2 (weight (interp_low interpolant)) p)
      as [w_lo Hw_lo]; [lia|].
    destruct (lookup_lt_is_Some_2 (weight (interp_high interpolant)) p)
      as [w_hi Hw_hi]; [lia|].
    apply lookup_zip_with_Some. eexists _, _.
    split; [|split; [by apply Hlower | by apply Hhigher]].
    rewrite !weights_at_snoc, Hw_lo, Hw_hi. simpl.
    replace (c * weights_at p d)%Qc
      with (c * weights_at p d * (w_lo + w_hi))%Qc
      by (rewrite (Hsum _ _ _ Hw_lo Hw_hi); ring).
    ring.
Qed.

(** The interpolants of [create_linear_interpolant] are normalized. *)
Lemma linear_interpolant_normalized (f f_ref : list Qc)
    (offset : option (list Z)) (interpolant : Interpolant) :
  evenly_spaced f_ref ->
  create_linear_interpolant f f_ref offset = inr interpolant ->
  normalized (length f) interpolant.
Proof.
  intros Heven Hlin.
  assert (length (weight (interp_low interpolant)) = length f ∧
          length (weight (interp_high interpolant)) = length f) as [Hlo Hhi].
  { revert Hlin. unfold create_linear_interpolant.
    intros ([] & _ & Hlin)%result_bind_inv.
    apply result_bind_inv in Hlin as (r1 & _ & Hlin).
    apply result_bind_inv in Hlin as (r0 & _ & Hlin).
    apply result_bind_inv in Hlin as (idx_low & _ & Hlin).
    apply result_bind_inv in Hlin as (lower & _ & Hlin).
    apply result_bind_inv in Hlin as (weight2 & Hw & Hlin).
    apply result_bind_inv in Hlin as (idx_low' & _ & Hlin).
    apply result_bind_inv in Hlin as (idx_high' & _ & [= <-]).
    revert Hw. unfold elementwise, same_shape.
    case_bool_decide as Hshape; [|done]. intros [= <-].
    cbn [interp_low interp_high weight].
    rewrite length_fmap, length_zip_with. lia. }
  split; [done|]. split; [done|]. intros p w_lo w_hi Hw_lo Hw_hi.
  destruct (lookup_lt_is_Some_2 f p) as [x Hx];
    [rewrite <- Hlo; by apply lookup_lt_Some in Hw_lo|].
  destruct (linear_interpolant_lookup _ _ _ _ _ _ Heven Hlin Hx)
    as (? & ? & ? & w1 & w2 & ? & ? & _ & _ & _ & Hw1 & Hw2 & _ & _ & _
        & _ & _ & Hsum & _).
  rewrite Hw_lo in Hw1. rewrite Hw_hi in Hw2.
  injection Hw1 as <-. injection Hw2 as <-. exact Hsum.
Qed.

(** X25.  [interpolate] is a partition of unity in any rank.  When every
    interpolant that the interpolant functions return (whatever the
    indices chosen for the axes before it) has two weights that sum to
    one, a table of coefficients whose entries are all [c] is interpolated
    to [c] at every position: the weights of the two branches taken at
    every axis, multiplied along each path, sum to one. *)
Theorem interpolate_partition_of_unity (c : Qc) (coeffs : Tensor) (m : nat)
    (interpolant_fns :
       list (string * (IndexAndWeightDict -> result Interpolant)))
    (out : list Qc) :
  constant_table c coeffs ->
  NoDup interpolant_fns.*1 ->
  (∀ fn d interpolant,
     fn ∈ interpolant_fns.*2 -> fn d = inr interpolant ->
     normalized m interpolant) ->
  interpolate coeffs interpolant_fns [] = inr out ->
  out = replicate m c.
Proof.
  intros Hconst Hnodup Hnorm Hrun.
  destruct (interpolate_constant c coeffs m interpolant_fns [] out)
    as [Hlen Hout]; try done.
  { intros k _. apply not_elem_of_nil. }
  { intros e He. by apply not_elem_of_nil in He. }
  apply list_eq. intros p. destruct (decide (p < m)%nat) as [Hp|Hp].
  - rewrite (Hout p Hp), lookup_replicate_2 by done. f_equal.
    unfold weights_at. simpl. ring.
  - rewrite !lookup_ge_None_2; [done | rewrite length_replicate; lia | lia].
Qed.

(** X26.  [create_linear_interpolant] checks the range before anything
    else.  A value below every reference value fails the first
    assertion; when no value is below the reference range, a value above
    every reference value fails the second one.  Either way no index and
    no weight is computed. *)
Theorem out_of_range_is_refused (f f_ref : list Qc)
    (offset : option (list Z)) (x : Qc) :
  x ∈ f ->
  ((∀ r, r ∈ f_ref -> (x < r)%Qc) ->
   create_linear_interpolant f f_ref offset =
   inl (InvalidArgument "At least one value is below the reference range."))
  ∧
  ((∀ y, y ∈ f -> ∃ r, r ∈ f_ref ∧ (r <= y)%Qc) ->
   (∀ r, r ∈ f_ref -> (r < x)%Qc) ->
   create_linear_interpolant f f_ref offset =
   inl (InvalidArgument "At least one value is above the reference range.")).
Proof.
  intros Hx. unfold create_linear_interpolant, validate_range. cbv zeta.
  pose proof (reduce_min_spec f) as Hmin_f.
  pose proof (reduce_min_spec f_ref) as Hmin_r.
  pose proof (reduce_max_spec f) as Hmax_f.
  pose proof (reduce_max_spec f_ref) as Hmax_r.
  unfold assert_greater_equal, assert_less_equal.
  destruct (reduce_min f) as [mf|]; [|rewrite Hmin_f in Hx; by inv Hx].
  destruct (reduce_max f) as [xf|]; [|rewrite Hmax_f in Hx; by inv Hx].
  destruct Hmin_f as [Hmf_in Hmf], Hmax_f as [Hxf_in Hxf].
  split.
  - intros Hbelow. destruct (reduce_min f_ref) as [mr|]; [|done].
    destruct Hmin_r as [Hmr _].
    destruct (Qclt_le_dec mf mr) as [|Hle]; [done|]. exfalso.
    apply (Qcle_not_lt _ _ (Qcle_trans _ _ _ Hle (Hmf _ Hx))).
    by apply Hbelow.
  - intros Hinside Habove.
    destruct (reduce_min f_ref) as [mr|].
    + destruct Hmin_r as [_ Hmr].
      destruct (Qclt_le_dec mf mr) as [Hlt|_].
      { exfalso. destruct (Hinside _ Hmf_in) as (r & Hr & Hle).
        apply (Qcle_not_lt _ _ (Qcle_trans _ _ _ (Hmr _ Hr) Hle)). done. }
      simpl. destruct (reduce_max f_ref) as [xr|]; [|done].
      destruct Hmax_r as [Hxr _].
      destruct (Qclt_le_dec xr xf) as [|Hle]; [done|]. exfalso.
      apply (Qcle_not_lt _ _ (Qcle_trans _ _ _ (Hxf _ Hx) Hle)).
      by apply Habove.
    + destruct (Hinside _ Hx) as (r & Hr & _). rewrite Hmin_r in Hr.
      by inv Hr.
Qed.
End optics_utils_facts.

(** * The properties at the one-axis instance *)

Section instance.
Import Example.

Lemma Qc_eq_bool (a b : Qc) : Qeq_bool a b = true -> a = b.
Proof. intros Hq. apply Qc_is_canon. by apply Qeq_bool_eq. Qed.

(** *** Counterexamples *)(** *** Counterexamples *)

(** C2 as stated fails at a halo cell.  One prediction step outside
    anelastic mode, from a state in which [T = rho_T / rho] holds in every
    cell, with a unit source and the Dirichlet value 300 on the boundary:
    the exchange sets the halo cell of [T] to 300, while the conservative
    variable there has advanced to [300 + dt], and the density is 1. *)
Lemma halo_cell_breaks_consistency :
  ∃ log out phi rho_phi rho p c d,
    prediction_step (scalars_obj LOW_MACH CN None None) 0%Z replicas
      states states ∅ = (log, Ok out) ∧
    out !! "T" = Some phi ∧ out !! "rho_T" = Some rho_phi ∧
    states !! "rho" = Some rho ∧
    phi !! 0%nat = Some p ∧ rho_phi !! 0%nat = Some c ∧
    rho !! 0%nat = Some d ∧
    p = q 300 ∧ (c / d)%Qc = Q2Qc (601 # 2) ∧
    ¬ within_tolerance (Q2Qc (1 # 1000)) p (c / d)%Qc.
Proof.
  do 8 eexists.
  split; [vm_compute; reflexivity|].
  split; [vm_compute; reflexivity|].
  split; [vm_compute; reflexivity|].
  split; [vm_compute; reflexivity|].
  split; [vm_compute; reflexivity|].
  split; [vm_compute; reflexivity|].
  split; [vm_compute; reflexivity|].
  split; [by apply Qc_eq_bool|].
  split; [by apply Qc_eq_bool|].
  intros [Hlow _]. vm_compute in Hlow. by apply Hlow.
Qed.


(** C3 as stated fails when the scalar with the unsupported scheme is
    not the first of the list.  With the transported scalars [T] and [Y]
    and an unsupported scheme for [Y] alone, the prediction step raises
    the configuration error after it has advanced [T] and exchanged its
    halos. *)
Lemma advanced_before_scheme_error :
  ∃ log f bc_f,
    prediction_step (__init__ (params_two bc_T_Y (TIME_SCHEME_OTHER 1))
                       None None) 0%Z replicas states_two states_two ∅ =
      (log, Err (ValueError (TIME_SCHEME_OTHER 1))) ∧
    HaloExchangeCall f bc_f ∈ log ∧
    updates_field (HaloExchangeCall f bc_f) = true ∧
    _bc (__init__ (params_two bc_T_Y (TIME_SCHEME_OTHER 1)) None None)
      !! "T" = Some bc_f.
Proof.
  do 3 eexists. split; [vm_compute; reflexivity|].
  split; [apply list_elem_of_here|]. split; [reflexivity|].
  vm_compute. reflexivity.
Qed.

(** C7 as stated fails when the configured boundary conditions do not
    cover the transported scalars: [Y] is a transported scalar, and the
    registry that [prestep] leaves has no entry for it. *)
Lemma uncovered_scalar_not_registered :
  "Y" ∈ transport_scalars_names
          (_params (__init__ (params_two bc_T CN) None None)) ∧
  _bc (prestep (__init__ (params_two bc_T CN) None None) 0%Z replicas ∅)
    !! "Y" = None.
Proof.
  split; [simpl; set_solver|]. vm_compute. reflexivity.
Qed.

(** C10 as stated fails for the same configuration: the name [Y] is in
    the list of transported scalars, the registry is the one that the
    constructor built for that list, and [exchange_scalar_halos] raises
    the key error. *)
Lemma uncovered_scalar_raises :
  "Y" ∈ transport_scalars_names (params_two bc_T CN) ∧
  exchange_scalar_halos (__init__ (params_two bc_T CN) None None)
    (field [0; 1; 1; 0]%Z) "Y" 0%Z replicas = ([], Err (KeyError "Y")).
Proof.
  split; [simpl; set_solver|]. vm_compute. reflexivity.
Qed.

(** The two premises of the amended C2 are needed.  When a transported
    scalar is named like the conservative variable of another, the later
    iteration overwrites that variable: in a cell that the exchange leaves
    as it is, [T] is no longer the quotient of ['rho_T'] and the
    density. *)
Lemma name_clash_breaks_consistency :
  ¬ separated_names (transport_scalars_names params_clash) ∧
  kept_by_exchange (__init__ params_clash None None) 0%Z replicas 4 1 ∧
  ∃ log out phi rho_phi rho p c d,
    prediction_step (__init__ params_clash None None) 0%Z replicas
      states_clash states_clash ∅ = (log, Ok out) ∧
    out !! "T" = Some phi ∧ out !! "rho_T" = Some rho_phi ∧
    states_clash !! "rho" = Some rho ∧
    phi !! 1%nat = Some p ∧ rho_phi !! 1%nat = Some c ∧
    rho !! 1%nat = Some d ∧
    p = Q2Qc (13 # 4) ∧ (c / d)%Qc = Q2Qc (9 # 8).
Proof.
  split; [|split].
  - intros Hsep. apply (Hsep "rho_T" "T"); [set_solver.. | reflexivity].
  - intros f bc_f Hlen.
    destruct f as [|a [|b [|c [|d [|e f]]]]]; try discriminate Hlen.
    reflexivity.
  - do 8 eexists.
    split; [vm_compute; reflexivity|].
    split; [vm_compute; reflexivity|].
    split; [vm_compute; reflexivity|].
    split; [vm_compute; reflexivity|].
    split; [vm_compute; reflexivity|].
    split; [vm_compute; reflexivity|].
    split; [vm_compute; reflexivity|].
    split; by apply Qc_eq_bool.
Qed.

(** And when the debug hook writes under the name of a transported scalar,
    its term replaces the scalar. *)
Lemma debug_hook_breaks_consistency :
  ¬ debug_keys_apart (scalars_obj LOW_MACH CN None (Some dbg_clobber)) ∧
  ∃ log out phi rho_phi rho p c d,
    prediction_step (scalars_obj LOW_MACH CN None (Some dbg_clobber)) 0%Z
      replicas states states ∅ = (log, Ok out) ∧
    out !! "T" = Some phi ∧ out !! "rho_T" = Some rho_phi ∧
    states !! "rho" = Some rho ∧
    phi !! 1%nat = Some p ∧ rho_phi !! 1%nat = Some c ∧
    rho !! 1%nat = Some d ∧
    p = Q2Qc 1 ∧ (c / d)%Qc = Q2Qc (13 # 4).
Proof.
  split.
  - intros Hapart.
    specialize (Hapart dbg_clobber "T" {[ "source" := [] ]} None "T"
                  eq_refl ltac:(by apply list_elem_of_singleton)).
    apply (Hapart "T").
    + apply elem_of_dom. by eexists.
    + unfold advanced_keys. simpl. set_solver.
  - do 8 eexists.
    split; [vm_compute; reflexivity|].
    split; [vm_compute; reflexivity|].
    split; [vm_compute; reflexivity|].
    split; [vm_compute; reflexivity|].
    split; [vm_compute; reflexivity|].
    split; [vm_compute; reflexivity|].
    split; [vm_compute; reflexivity|].
    split; by apply Qc_eq_bool.
Qed.

(** With an immersed-boundary corrector the returned state map is what
    the corrector makes of the dict of the step: the relation holds in the
    dict that the step has built, and need not hold in the map that the
    corrector returns. *)
Lemma corrector_breaks_consistency :
  ∃ log out phi rho_phi rho p c d,
    prediction_step (scalars_obj LOW_MACH CN (Some ib_clobber) None) 0%Z
      replicas states states ∅ = (log, Ok out) ∧
    out !! "T" = Some phi ∧ out !! "rho_T" = Some rho_phi ∧
    states !! "rho" = Some rho ∧
    phi !! 1%nat = Some p ∧ rho_phi !! 1%nat = Some c ∧
    rho !! 1%nat = Some d ∧
    p = Q2Qc 0 ∧ (c / d)%Qc = Q2Qc (13 # 4).
Proof.
  do 8 eexists.
  split; [vm_compute; reflexivity|].
  split; [vm_compute; reflexivity|].
  split; [vm_compute; reflexivity|].
  split; [vm_compute; reflexivity|].
  split; [vm_compute; reflexivity|].
  split; [vm_compute; reflexivity|].
  split; [vm_compute; reflexivity|].
  split; by apply Qc_eq_bool.
Qed.

(** *** The instance is a valid input *)

Lemma stub_shape_preserving : shape_preserving.
Proof.
  constructor; intros; simpl; unfold zeros_like, ones_like, map_structure1;
    by rewrite ?length_fmap.
Defined.

Lemma ib_stub_returns_rhs (rho_phi rhs : FlowFieldVal)
    (additional_states : FlowFieldMap) :
  update_forcing ib_stub 0%Z replicas {[ "rho_T" := rho_phi ]}
    (ib_helper_states "ib_rhs_rho_T" rhs additional_states)
    !! "ib_rhs_rho_T" = Some rhs.
Proof.
  unfold ib_helper_states. simpl.
  destruct (additional_states !! "ib_interior_mask");
    destruct (additional_states !! "ib_boundary");
    rewrite ?lookup_insert_ne by done; by rewrite lookup_singleton_eq.
Defined.

Lemma states_valid mode scheme ib dbg :
  ib = None ∨ ib = Some ib_stub ->
  valid_inputs (scalars_obj mode scheme ib dbg) 0%Z replicas states
    states ∅ 4.
Proof.
  intros Hib. constructor.
  - by eexists.
  - by eexists.
  - by eexists.
  - by eexists.
  - intros [=].
  - intros sc_name ->%list_elem_of_singleton.
    split; [by eexists | split; [by eexists | intros _; by eexists]].
  - intros sc_name ->%list_elem_of_singleton. by eexists.
  - intros sc_name ->%list_elem_of_singleton.
    exists None. split; [done | intros f [=]].
  - intros sc_name ->%list_elem_of_singleton. by eexists.
  - apply stub_shape_preserving.
  - intros ib' sc_name rho_phi rhs diffusivity Hib'
      ->%list_elem_of_singleton _ Hlen.
    destruct Hib as [-> | ->]; [discriminate Hib'|].
    injection Hib' as <-. exists rhs. split; [|done].
    apply ib_stub_returns_rhs.
Defined.

Lemma states_two_valid scheme_Y :
  valid_inputs (__init__ (params_two bc_T_Y scheme_Y) None None) 0%Z
    replicas states_two states_two ∅ 4.
Proof.
  assert (∀ sc_name, sc_name ∈ ["T"; "Y"] -> sc_name = "T" ∨ sc_name = "Y")
    as Hnames by set_solver.
  constructor.
  - by eexists.
  - by eexists.
  - by eexists.
  - by eexists.
  - intros [=].
  - intros sc_name [-> | ->]%Hnames;
      (split; [by eexists | split; [by eexists | intros _; by eexists]]).
  - intros sc_name [-> | ->]%Hnames; by eexists.
  - intros sc_name [-> | ->]%Hnames;
      (exists None; split; [done | intros f [=]]).
  - intros sc_name [-> | ->]%Hnames; by eexists.
  - apply stub_shape_preserving.
  - intros ib sc_name rho_phi rhs diffusivity [=].
Defined.

Lemma stub_keeps_interior :
  kept_by_exchange (scalars_obj LOW_MACH CN (Some ib_stub) (Some dbg_stub))
    0%Z replicas 4 1.
Proof.
  intros f bc_f Hlen.
  destruct f as [|a [|b [|c [|d [|e f]]]]]; try discriminate Hlen.
  reflexivity.
Defined.

Lemma dbg_stub_keys_apart mode ib :
  debug_keys_apart (scalars_obj mode CN ib (Some dbg_stub)).
Proof.
  intros dbg sc_name rhs_terms diff_t s [= <-] ->%list_elem_of_singleton.
  simpl. destruct (rhs_terms !! "conv_x").
  - rewrite dom_singleton_L. unfold advanced_keys.
    case_bool_decide; apply disjoint_singleton_l.
    + rewrite elem_of_singleton. intros Heq. discriminate Heq.
    + rewrite elem_of_union, !elem_of_singleton.
      intros [Heq|Heq]; discriminate Heq.
  - rewrite dom_empty_L. apply disjoint_empty_l.
Defined.

(** *** The claims at the instance *)

Lemma time_advance_cn_explicit_by_mode_witness :
  (∃ phi_new bc_f,
     phi_new !! 1%nat = Some (q 3 + Q2Qc (1 # 2) * q 1 / q 2)%Qc ∧
     time_advance_cn_explicit (scalars_obj ANELASTIC CN None None) 0%Z
       replicas states states (field [1; 1; 1; 1]%Z) "T" =
     ([HaloExchangeCall phi_new bc_f],
      Ok {[ "T" := halo_exchange_1d phi_new [0; 1; 2]%nat 0%Z replicas
                     [0; 1; 2]%nat [false; false; false] bc_f 1 ]}))
  ∧
  (∃ rho_phi_new phi_new bc_f,
     rho_phi_new !! 1%nat = Some (q 6 + Q2Qc (1 # 2) * q 1)%Qc ∧
     phi_new !! 1%nat = Some ((q 6 + Q2Qc (1 # 2) * q 1) / q 2)%Qc ∧
     time_advance_cn_explicit (scalars_obj LOW_MACH CN None None) 0%Z
       replicas states states (field [1; 1; 1; 1]%Z) "T" =
     ([HaloExchangeCall phi_new bc_f],
      Ok (<["T" := halo_exchange_1d phi_new [0; 1; 2]%nat 0%Z replicas
                     [0; 1; 2]%nat [false; false; false] bc_f 1]>
            {[ "rho_T" := rho_phi_new ]})))
  ∧
  (∃ ev rhs updated_vars,
     filter is_halo_exchange
       (calls (prediction_step (scalars_obj ANELASTIC CN None None) 0%Z
                 replicas states states ∅)) = [ev] ∧
     time_advance_cn_explicit (scalars_obj ANELASTIC CN None None) 0%Z
       replicas states states rhs "T" = ([ev], Ok updated_vars) ∧
     length rhs = 4%nat).
Proof.
  split; [|split].
  - destruct (proj1 (time_advance_cn_explicit_by_mode
                       (scalars_obj ANELASTIC CN None None) 0%Z replicas
                       states states)
                (field [1; 1; 1; 1]%Z) "T" (field [1; 2; 2; 1]%Z)
                [[dirichlet 300; dirichlet 300]; [None; None]; [None; None]])
      as [Hanel _]; [vm_compute; reflexivity .. |].
    destruct (Hanel eq_refl (field [300; 3; 3; 300]%Z))
      as (phi_new & _ & Hphi & Hrun); [vm_compute; reflexivity .. |].
    exists phi_new,
      [[dirichlet 300; dirichlet 300]; [None; None]; [None; None]].
    split; [|exact Hrun].
    exact (Hphi 1%nat (q 3) (q 1) (q 2) eq_refl eq_refl eq_refl).
  - destruct (proj1 (time_advance_cn_explicit_by_mode
                       (scalars_obj LOW_MACH CN None None) 0%Z replicas
                       states states)
                (field [1; 1; 1; 1]%Z) "T" (field [1; 2; 2; 1]%Z)
                [[dirichlet 300; dirichlet 300]; [None; None]; [None; None]])
      as [_ Hcons]; [vm_compute; reflexivity .. |].
    destruct (Hcons ltac:(vm_compute; congruence) (field [300; 6; 6; 300]%Z))
      as (rho_phi_new & phi_new & _ & _ & Hrho_phi & Hphi & Hrun);
      [vm_compute; reflexivity .. |].
    exists rho_phi_new, phi_new,
      [[dirichlet 300; dirichlet 300]; [None; None]; [None; None]].
    pose proof (Hrho_phi 1%nat (q 6) (q 1) eq_refl eq_refl) as H1.
    split; [exact H1 | split; [| exact Hrun]].
    exact (Hphi 1%nat _ (q 2) H1 eq_refl).
  - destruct (prediction_step (scalars_obj ANELASTIC CN None None) 0%Z
                replicas states states ∅) as [log [e | out]] eqn:Hrun;
      [vm_compute in Hrun; discriminate Hrun|].
    destruct (proj2 (time_advance_cn_explicit_by_mode
                       (scalars_obj ANELASTIC CN None None) 0%Z replicas
                       states states) ∅ log out Hrun)
      as (states_mid & _ & Hexchanges).
    apply Forall2_cons_inv_r in Hexchanges
      as (ev & evs & Hev & Hnil & Hlog).
    apply Forall2_nil_inv_r in Hnil as ->.
    destruct Hev as (diff_t & rhs & updated_vars & rho & bc_f & old & _
                     & Hadv & Hrho & _ & Hlen & _).
    exists ev, rhs, updated_vars. split; [exact Hlog|].
    split; [exact Hadv|]. rewrite <- Hlen.
    vm_compute in Hrho. by injection Hrho as <-.
Defined.


Lemma primitive_matches_conservative_witness :
  ∃ log out phi rho_phi rho c d,
    prediction_step (scalars_obj LOW_MACH CN (Some ib_stub) (Some dbg_stub))
      0%Z replicas states states ∅ = (log, Ok out) ∧
    out !! "T" = Some phi ∧ out !! "rho_T" = Some rho_phi ∧
    states !! "rho" = Some rho ∧
    rho_phi !! 1%nat = Some c ∧ rho !! 1%nat = Some d ∧
    phi !! 1%nat = Some (c / d)%Qc.
Proof.
  destruct (prediction_step
              (scalars_obj LOW_MACH CN (Some ib_stub) (Some dbg_stub)) 0%Z
              replicas states states ∅) as [log [e | out]] eqn:Hrun;
    [vm_compute in Hrun; discriminate Hrun|].
  destruct (primitive_matches_conservative
              (scalars_obj LOW_MACH CN (Some ib_stub) (Some dbg_stub)) 0%Z
              replicas states states ∅ "T" log out)
    as (upd & phi & rho_phi & rho & bc_f & Hbuilt & Hphi & Hrho_phi & Hrho
        & Hbc & Hlen & Heq & Hcells & _).
  - vm_compute. congruence.
  - intros a b ->%list_elem_of_singleton ->%list_elem_of_singleton.
    discriminate.
  - apply dbg_stub_keys_apart.
  - by apply list_elem_of_singleton.
  - exact Hrun.
  - destruct Hbuilt as [_ Hout]. change (out = upd) in Hout. subst upd.
    vm_compute in Hrho. injection Hrho as <-.
    destruct (lookup_lt_is_Some_2 rho_phi 1) as [c Hc];
      [rewrite Hlen; simpl; lia|].
    exists log, out, phi, rho_phi, (field [1; 2; 2; 1]%Z), c, (q 2).
    split; [reflexivity|]. split; [exact Hphi|]. split; [exact Hrho_phi|].
    split; [vm_compute; reflexivity|]. split; [exact Hc|].
    split; [reflexivity|].
    apply Hcells; [apply stub_keeps_interior | exact Hc | reflexivity].
Defined.

Lemma unsupported_scheme_raises_witness :
  ∃ log,
    prediction_step (__init__ (params_two bc_T_Y (TIME_SCHEME_OTHER 1))
                       None None) 0%Z replicas states_two states_two ∅ =
      (log, Err (ValueError (TIME_SCHEME_OTHER 1))) ∧
    kind_of <$> log = [HALO_EXCHANGE] ∧
    Forall (fun ev => is_update_states ev = false) log.
Proof.
  destruct (unsupported_scheme_raises
              (__init__ (params_two bc_T_Y (TIME_SCHEME_OTHER 1)) None None)
              0%Z replicas states_two states_two ∅) as [_ Hraises].
  destruct (Hraises 4%nat ["T"] [] "Y")
    as (log & Hrun & Hkinds & _ & Hquiet & _).
  - apply states_two_valid.
  - reflexivity.
  - intros s ->%list_elem_of_singleton. reflexivity.
  - simpl. discriminate.
  - exists log. split; [exact Hrun|]. split; [exact Hkinds | exact Hquiet].
Defined.

Lemma rhs_sign_convention_witness :
  ∃ rhs : FlowFieldVal,
    rhs !! 1%nat =
      Some (- (q 3 + 1 + 0) + (0 + 2 * q 3 + 1) + (q 20 + 1))%Qc ∧
    (scalar_rhs_fn ← @_scalar_update closures scalars_obj_with_source
                       0%Z replicas "T" states ∅ false;
     scalar_rhs_fn (field [300; 3; 3; 300]%Z)) = ([], Ok rhs).
Proof.
  destruct (@rhs_sign_convention closures scalars_obj_with_source 0%Z
              replicas "T" states ∅
              {| model_kind := ScalarGeneric; model_scalar_name := "T" |}
              (Some (field [10; 20; 30; 40]%Z))
              (field [1; 2; 2; 1]%Z)
              (field [300; 3; 3; 300]%Z)
              (field [300; 3; 3; 300]%Z)
              (ones_like (field [300; 3; 3; 300]%Z))
              (zeros_like (field [300; 3; 3; 300]%Z))
              (zeros_like (field [300; 3; 3; 300]%Z))
              (map_structure1 (fun x => (2 * x)%Qc)
                 (field [300; 3; 3; 300]%Z))
              (ones_like (field [300; 3; 3; 300]%Z))
              (ones_like (field [300; 3; 3; 300]%Z)))
    as (rhs & _ & Hrhs & Hrun);
    [reflexivity .. | by intros source [= <-] | reflexivity
     | by repeat split | by repeat split |].
  exists rhs. split; [|exact Hrun].
  apply (Hrhs 1%nat (q 3) 1 0 0 (2 * q 3) 1 (q 20) 1)%Qc; reflexivity.
Defined.

Lemma absent_source_is_zero_field_witness :
  ∃ source : FlowFieldVal,
    length source = 4%nat ∧
    (∀ i x, source !! i = Some x -> x = 0%Qc) ∧
    external_source (scalars_obj LOW_MACH CN None None) "T" states =
      Ok source.
Proof.
  destruct (absent_source_is_zero_field (scalars_obj LOW_MACH CN None None)
              0%Z replicas "T" states ∅ (field [1; 2; 2; 1]%Z) false)
    as (source & Hlen & Hzero & Hsrc & _); [reflexivity .. |].
  by exists source.
Defined.

Lemma prestep_registry_names_witness :
  is_Some (_bc (prestep (scalars_obj LOW_MACH CN None None) 0%Z replicas
                  states) !! "T") ∧
  ¬ is_Some (_bc (prestep (scalars_obj LOW_MACH CN None None) 0%Z replicas
                    states) !! "p") ∧
  ¬ is_Some (_bc (prestep (__init__ (params_two bc_T CN) None None) 0%Z
                    replicas states) !! "Y").
Proof.
  assert (∀ n, n ∈ transport_scalars_names (params LOW_MACH CN) ->
               is_Some (bc (params LOW_MACH CN) !! n)) as Hcover.
  { intros n ->%list_elem_of_singleton. by eexists. }
  split; [|split].
  - apply (proj2 (prestep_registry_names (params LOW_MACH CN) None None
                    (scalars_obj LOW_MACH CN None None) 0%Z replicas states
                    "T" (reachable_init _ _ _)) Hcover).
    by apply list_elem_of_singleton.
  - intros Hp.
    apply (proj2 (prestep_registry_names (params LOW_MACH CN) None None
                    (scalars_obj LOW_MACH CN None None) 0%Z replicas states
                    "p" (reachable_init _ _ _)) Hcover) in Hp.
    by apply list_elem_of_singleton in Hp.
  - intros HY.
    apply (proj1 (prestep_registry_names (params_two bc_T CN) None None
                    (__init__ (params_two bc_T CN) None None) 0%Z replicas
                    states "Y" (reachable_init _ _ _))) in HY.
    destruct HY as [_ [v Hv]]. vm_compute in Hv. discriminate Hv.
Defined.

Lemma exchange_scalar_halos_lookup_witness :
  exchange_scalar_halos (scalars_obj LOW_MACH CN None None)
    (field [300; 3; 3; 300]%Z) "p" 0%Z replicas = ([], Err (KeyError "p"))
  ∧ exchange_scalar_halos (scalars_obj LOW_MACH CN None None)
      (field [7; 3; 3; 7]%Z) "T" 0%Z replicas =
    ([HaloExchangeCall (field [7; 3; 3; 7]%Z)
        [[dirichlet 300; dirichlet 300]; [None; None]; [None; None]]],
     Ok (field [300; 3; 3; 300]%Z))
  ∧ exchange_scalar_halos (__init__ (params_two bc_T CN) None None)
      (field [0; 1; 1; 0]%Z) "Y" 0%Z replicas = ([], Err (KeyError "Y")).
Proof.
  split; [|split].
  - apply (proj1 (exchange_scalar_halos_lookup
                    (scalars_obj LOW_MACH CN None None)
                    (field [300; 3; 3; 300]%Z) "p" 0%Z replicas)).
    reflexivity.
  - destruct (exchange_scalar_halos_lookup
                (scalars_obj LOW_MACH CN None None) (field [7; 3; 3; 7]%Z)
                "T" 0%Z replicas) as (_ & _ & Hinit).
    destruct (Hinit (params LOW_MACH CN) None None eq_refl) as [Hok _];
      [by apply list_elem_of_singleton|].
    rewrite (Hok _ eq_refl). reflexivity.
  - destruct (exchange_scalar_halos_lookup
                (__init__ (params_two bc_T CN) None None)
                (field [0; 1; 1; 0]%Z) "Y" 0%Z replicas) as (_ & _ & Hinit).
    destruct (Hinit (params_two bc_T CN) None None eq_refl) as [_ Hmissing];
      [simpl; set_solver|].
    apply Hmissing. reflexivity.
Defined.

Lemma update_states_called_once_witness :
  (∃ log' updated_scalars,
     calls (prediction_step
              (scalars_obj LOW_MACH CN (Some ib_stub) (Some dbg_stub))
              0%Z replicas states states ∅) =
     log' ++ [IbUpdateStatesCall updated_scalars] ∧
     Forall (fun ev => is_update_states ev = false) log' ∧
     length (filter is_halo_exchange log') = 1%nat ∧
     is_Some (updated_scalars !! "T") ∧
     is_Some (updated_scalars !! "rho_T")) ∧
  filter is_update_states
    (calls (correction_step
              (scalars_obj LOW_MACH CN (Some ib_stub) None) 0%Z
              replicas states states ∅)) =
  [IbUpdateStatesCall
     {[ "T" := zip_with Qcdiv (field [300; 6; 6; 300]%Z)
                 (field [1; 2; 2; 1]%Z) ]}].
Proof.
  split.
  - destruct (update_states_called_once
                (scalars_obj LOW_MACH CN (Some ib_stub) (Some dbg_stub)) 0%Z
                replicas states states ∅ ib_stub eq_refl) as [Hpred _].
    destruct (prediction_step
                (scalars_obj LOW_MACH CN (Some ib_stub) (Some dbg_stub))
                0%Z replicas states states ∅) as [log [e | out]] eqn:Hrun;
      [vm_compute in Hrun; discriminate Hrun|].
    destruct (Hpred log out eq_refl)
      as (states_mid & runs & log' & _ & Hruns & Hhalo & Hquiet & Hlog & _
          & _ & Hlookup).
    exists log', (updated_by runs ∅).
    split; [exact Hlog|]. split; [exact Hquiet|].
    pose proof (Forall2_length _ _ _ Hruns) as Hlen.
    split; [by rewrite Hhalo, length_fmap, <- Hlen|].
    specialize (Hlookup
                  ltac:(intros _ a b ->%list_elem_of_singleton
                          ->%list_elem_of_singleton; discriminate)
                  (dbg_stub_keys_apart _ _)).
    apply Forall2_cons_inv_l in Hlookup as (run & runs' & Hrun' & _ & ->).
    split.
    + destruct (Hrun' "T") as [Hsome ->]; [|exact Hsome].
      unfold advanced_keys. simpl. set_solver.
    + destruct (Hrun' "rho_T") as [Hsome ->]; [|exact Hsome].
      unfold advanced_keys. simpl. set_solver.
  - destruct (update_states_called_once
                (scalars_obj LOW_MACH CN (Some ib_stub) None) 0%Z
                replicas states states ∅ ib_stub eq_refl) as [_ Hcorr].
    destruct (correction_step (scalars_obj LOW_MACH CN (Some ib_stub) None)
                0%Z replicas states states ∅) as [log [e | out]] eqn:Hrun;
      [vm_compute in Hrun; discriminate Hrun|].
    specialize (Hcorr log out eq_refl). simpl.
    apply Forall2_cons_inv_r in Hcorr as (ev & evs & Hev & Hnil & ->).
    apply Forall2_nil_inv_r in Hnil as ->.
    destruct Hev as (rho_sc & rho & Hrho_sc & Hrho & _ & ->).
    vm_compute in Hrho_sc, Hrho.
    injection Hrho_sc as <-. injection Hrho as <-. reflexivity.
Defined.


(** *** Further properties at the instance *)

Lemma prediction_step_call_order_witness :
  kind_of <$>
    calls (prediction_step
             (scalars_obj LOW_MACH CN (Some ib_stub) (Some dbg_stub)) 0%Z
             replicas states states ∅) =
  [IB_UPDATE_FORCING; HALO_EXCHANGE; DBG; IB_UPDATE_STATES].
Proof.
  destruct (prediction_step
              (scalars_obj LOW_MACH CN (Some ib_stub) (Some dbg_stub)) 0%Z
              replicas states states ∅) as [log [e | out]] eqn:Hrun;
    [vm_compute in Hrun; discriminate Hrun|].
  exact (prediction_step_call_order
           (scalars_obj LOW_MACH CN (Some ib_stub) (Some dbg_stub)) 0%Z
           replicas states states ∅ log out Hrun).
Defined.

Lemma correction_step_call_order_witness :
  kind_of <$>
    calls (correction_step (scalars_obj LOW_MACH CN (Some ib_stub) None) 0%Z
             replicas states states ∅) =
  [IB_UPDATE_STATES; HALO_EXCHANGE].
Proof.
  destruct (correction_step (scalars_obj LOW_MACH CN (Some ib_stub) None)
              0%Z replicas states states ∅) as [log [e | out]] eqn:Hrun;
    [vm_compute in Hrun; discriminate Hrun|].
  exact (proj1 (correction_step_call_order
                  (scalars_obj LOW_MACH CN (Some ib_stub) None) 0%Z replicas
                  states states ∅) log out Hrun).
Defined.

Lemma halo_exchange_per_scalar_witness :
  Forall2
    (fun ev sc_name =>
       ∃ f bc_f, ev = HaloExchangeCall f bc_f ∧
                 _bc (scalars_obj ANELASTIC CN None None) !! sc_name =
                   Some bc_f)
    (filter is_halo_exchange
       (calls (prediction_step (scalars_obj ANELASTIC CN None None) 0%Z
                 replicas states states ∅)))
    ["T"].
Proof.
  destruct (prediction_step (scalars_obj ANELASTIC CN None None) 0%Z
              replicas states states ∅) as [log [e | out]] eqn:Hrun;
    [vm_compute in Hrun; discriminate Hrun|].
  exact (proj1 (halo_exchange_per_scalar
                  (scalars_obj ANELASTIC CN None None) 0%Z replicas states
                  states ∅) log out Hrun).
Defined.

Lemma prediction_step_returns_witness :
  ∃ log out,
    prediction_step
      (scalars_obj ANELASTIC CN (Some ib_stub) (Some dbg_stub)) 0%Z
      replicas states states ∅ = (log, Ok out).
Proof.
  apply (prediction_step_returns
           (scalars_obj ANELASTIC CN (Some ib_stub) (Some dbg_stub)) 0%Z
           replicas states states ∅ 4%nat
           (states_valid _ _ (Some ib_stub) _ (or_intror eq_refl))).
  intros sc_name _. reflexivity.
Defined.

Lemma correction_step_returns_iff_witness :
  correctable (scalars_obj LOW_MACH CN None None) 0%Z replicas states ∅ "T"
  ∧ ¬ ∃ log out,
        correction_step (scalars_obj LOW_MACH CN None None) 0%Z replicas
          (delete "rho" states) states ∅ = (log, Ok out).
Proof.
  split.
  - apply (proj1 (correction_step_returns_iff
                    (scalars_obj LOW_MACH CN None None) 0%Z replicas states
                    states ∅)).
    + do 2 eexists. vm_compute. reflexivity.
    + by apply list_elem_of_singleton.
  - intros Hrun.
    destruct (proj1 (correction_step_returns_iff
                       (scalars_obj LOW_MACH CN None None) 0%Z replicas
                       (delete "rho" states) states ∅) Hrun "T")
      as (rho_sc & rho & _ & Hrho & _); [by apply list_elem_of_singleton|].
    vm_compute in Hrho. discriminate Hrho.
Defined.


Lemma correction_step_missing_conservative_witness :
  correction_step (scalars_obj LOW_MACH CN None None) 0%Z replicas
    (delete "rho_T" states) states ∅ = ([], Err (KeyError "rho_T")).
Proof.
  destruct (correction_step_missing_conservative
              (scalars_obj LOW_MACH CN None None) 0%Z replicas
              (delete "rho_T" states) states ∅ [] [] "T")
    as (log & Hrun & Hkinds).
  - reflexivity.
  - intros s Hs. by apply not_elem_of_nil in Hs.
  - vm_compute. reflexivity.
  - apply fmap_nil_inv in Hkinds. by rewrite Hkinds in Hrun.
Defined.

Lemma time_advance_raises_before_exchange_witness :
  calls (time_advance_cn_explicit (scalars_obj LOW_MACH CN None None) 0%Z
           replicas states ∅ (field [1; 1; 1; 1]%Z) "T") = [].
Proof.
  destruct (time_advance_cn_explicit (scalars_obj LOW_MACH CN None None) 0%Z
              replicas states ∅ (field [1; 1; 1; 1]%Z) "T")
    as [l [e | out]] eqn:Hrun; [|vm_compute in Hrun; discriminate Hrun].
  exact (proj1 (time_advance_raises_before_exchange
                  (scalars_obj LOW_MACH CN None None) 0%Z replicas states ∅
                  (field [1; 1; 1; 1]%Z) "T" l e Hrun)).
Defined.


Lemma debug_terms_recombine_witness :
  ∃ terms : FlowFieldMap,
    scalar_function (scalars_obj LOW_MACH CN None None) 0%Z replicas "T"
      states ∅ (zeros_like (field [1; 2; 2; 1]%Z)) true
      (field [300; 3; 3; 300]%Z) = ([], Ok terms) ∧
    dom terms =
      list_to_set ["conv_x"; "conv_y"; "conv_z"; "diff_x"; "diff_y";
                   "diff_z"; "source"].
Proof.
  destruct (scalar_function (scalars_obj LOW_MACH CN None None) 0%Z replicas
              "T" states ∅ (zeros_like (field [1; 2; 2; 1]%Z)) false
              (field [300; 3; 3; 300]%Z)) as [l [e | rhs]] eqn:Hrun;
    [vm_compute in Hrun; discriminate Hrun|].
  destruct (debug_terms_recombine
              (scalars_obj LOW_MACH CN None None) 0%Z replicas "T" states ∅
              (zeros_like (field [1; 2; 2; 1]%Z)) (field [300; 3; 3; 300]%Z)
              l rhs Hrun)
    as (terms & ? & ? & ? & ? & ? & ? & ? & Hterms & Hdom & _).
  by exists terms.
Defined.

Lemma mid_point_states_frame_witness :
  ∃ states_mid,
    mid_point_states (scalars_obj LOW_MACH CN None None) states states =
      ([], Ok states_mid) ∧
    dom states_mid = dom states ∧
    states_mid !! "rho_T" = states !! "rho_T".
Proof.
  destruct (mid_point_states (scalars_obj LOW_MACH CN None None) states
              states) as [l [e | states_mid]] eqn:Hrun;
    [vm_compute in Hrun; discriminate Hrun|].
  destruct (mid_point_states_frame
              (scalars_obj LOW_MACH CN None None) states states l states_mid
              Hrun) as (-> & Hdom & _ & Hframe).
  exists states_mid. split; [reflexivity|]. split; [exact Hdom|].
  apply Hframe. intros Hin. do 3 (apply elem_of_cons in Hin as [[=]|Hin]).
  by apply not_elem_of_nil in Hin.
Defined.

Lemma solved_scalar_has_source_witness :
  ∃ source,
    external_source
      (prestep (scalars_obj LOW_MACH CN None None) 0%Z replicas
         {[ "src_T" := field [0; 5; 5; 0]%Z ]})
      "T" states = Ok source.
Proof.
  apply (solved_scalar_has_source (params LOW_MACH CN) None None
           (prestep (scalars_obj LOW_MACH CN None None) 0%Z replicas
              {[ "src_T" := field [0; 5; 5; 0]%Z ]})
           {| name := "T"; solve_scalar := true |} states
           (field [1; 2; 2; 1]%Z)).
  - apply reachable_prestep, reachable_init.
  - by apply list_elem_of_singleton.
  - reflexivity.
  - reflexivity.
Defined.

Lemma closure_table_dispatch_witness :
  _scalar_model
    (prestep (scalars_obj LOW_MACH CN None None) 0%Z replicas ∅) !! "T" =
    Some {| model_kind := ScalarGeneric; model_scalar_name := "T" |} ∧
  _scalar_model
    (prestep (scalars_obj LOW_MACH CN None None) 0%Z replicas ∅) !! "p" =
    None.
Proof.
  split.
  - rewrite (closure_table_dispatch (params LOW_MACH CN) None None
               (prestep (scalars_obj LOW_MACH CN None None) 0%Z replicas ∅)
               "T" (reachable_prestep _ _ _ _ _ _ _ (reachable_init _ _ _))).
    reflexivity.
  - rewrite (closure_table_dispatch (params LOW_MACH CN) None None
               (prestep (scalars_obj LOW_MACH CN None None) 0%Z replicas ∅)
               "p" (reachable_prestep _ _ _ _ _ _ _ (reachable_init _ _ _))).
    reflexivity.
Defined.

Lemma prediction_step_without_scalars_witness :
  prediction_step
    (__init__ Instances.params_without_scalars (Some ib_stub) None) 0%Z
    replicas (delete "rho_thermal" states) states ∅ =
    ([], Err (KeyError "rho_thermal")) ∧
  prediction_step
    (__init__ Instances.params_without_scalars (Some ib_stub) None) 0%Z
    replicas states states ∅ = ([IbUpdateStatesCall ∅], Ok ∅).
Proof.
  split.
  - apply (prediction_step_without_scalars
             (__init__ Instances.params_without_scalars (Some ib_stub) None)
             0%Z replicas (delete "rho_thermal" states) states ∅
             (field [1; 2; 2; 1]%Z) (field [1; 2; 2; 1]%Z)
             (zip_with (fun x y => (half * (x + y))%Qc)
                (field [1; 2; 2; 1]%Z) (field [1; 2; 2; 1]%Z)));
      reflexivity.
  - apply (proj2 (prediction_step_without_scalars
             (__init__ Instances.params_without_scalars (Some ib_stub) None)
             0%Z replicas states states ∅
             (field [1; 2; 2; 1]%Z) (field [1; 2; 2; 1]%Z)
             (zip_with (fun x y => (half * (x + y))%Qc)
                (field [1; 2; 2; 1]%Z) (field [1; 2; 2; 1]%Z))
             eq_refl eq_refl eq_refl eq_refl)
             (field [1; 2; 2; 1]%Z) (field [1; 2; 2; 1]%Z)
             (zip_with (fun x y => (half * (x + y))%Qc)
                (field [1; 2; 2; 1]%Z) (field [1; 2; 2; 1]%Z)));
      reflexivity.
Defined.
End instance.

(** * The sampler and the lookup tables at their instances *)

Section sampler_instance.
Import FireUQ Instances.

Lemma sample_counts_witness :
  ∃ fuel_density moisture_density wind_speed self',
    generate_samples (flags false false 3) np_load np_float32
      (sampler_obj 3) =
      inr (fuel_density, moisture_density, wind_speed, self') ∧
    length fuel_density = 3%nat ∧ length moisture_density = 3%nat ∧
    length wind_speed = 3%nat.
Proof.
  destruct (proj1 (sample_counts (flags false false 3) np_load np_float32
                     (sampler_obj 3) "out/" eq_refl))
    as (fd & md & ws & self' & Hrun & _ & Hfd & Hmd & Hws).
  - right. simpl. lia.
  - by exists fd, md, ws, self'.
Defined.

Lemma samples_from_file_witness :
  ∃ fuel_density moisture_density wind_speed,
    generate_samples (flags true true 3) np_load np_float32
      (sampler_obj 3) =
      inr (fuel_density, moisture_density, wind_speed, sampler_obj 3) ∧
    length fuel_density = 2%nat ∧
    fuel_density !! 0%nat = Some (Q2Qc (13421773 # 134217728)) ∧
    wind_speed !! 1%nat = Some (Q2Qc 8) ∧
    number_of_samples (flags true true 3) (sampler_obj 3) = 4%Z.
Proof.
  pose proof (samples_from_file (flags true true 3) np_load np_float32
                (sampler_obj 3)
                {| n_columns := 3;
                   rows := [ [Q2Qc (1 # 10); Q2Qc (1 # 100); Q2Qc 6];
                             [Q2Qc (2 # 10); Q2Qc (2 # 100); Q2Qc 8] ] |}
                eq_refl eq_refl) as Hfile.
  simpl in Hfile.
  destruct Hfile as (fd & md & ws & Hrun & Hfd & _ & _ & Hvalues).
  exists fd, md, ws. split; [exact Hrun|]. split; [exact Hfd|].
  destruct (Hvalues 0%nat _ eq_refl) as (Hfd0 & _ & _).
  destruct (Hvalues 1%nat _ eq_refl) as (_ & _ & Hws1).
  split; [|split; [|reflexivity]].
  - rewrite Hfd0. f_equal; by apply Qc_is_canon.
  - rewrite Hws1. f_equal; by apply Qc_is_canon.
Defined.

Lemma uniform_within_bounds_witness :
  ∃ samples self',
    _uniform (sampler_obj 3) (Q2Qc 5) (Q2Qc 12) 3 = inr (samples, self') ∧
    Forall (fun x => (Q2Qc 5 <= x)%Qc ∧ (x <= Q2Qc 12)%Qc) samples ∧
    drawn (sampler self') = 3%nat.
Proof.
  destruct (uniform_within_bounds (sampler_obj 3) (Q2Qc 5) (Q2Qc 12) 3)
    as (samples & self' & Hrun & _ & Hbounds & Hdrawn & _).
  - by vm_compute.
  - intros i. split; simpl; unfold Qcle, Qle; simpl; lia.
  - lia.
  - by exists samples, self'.
Defined.

Lemma random_samples_layout_witness :
  ∃ fuel_density moisture_density wind_speed self',
    generate_samples (flags false false 3) np_load np_float32
      (sampler_obj 3) =
      inr (fuel_density, moisture_density, wind_speed, self') ∧
    drawn (sampler self') = 9%nat ∧
    wind_speed !! 0%nat = Some ((Q2Qc 12 - Q2Qc 5) * Q2Qc (1 # 8) + Q2Qc 5)%Qc.
Proof.
  destruct (random_samples_layout (flags false false 3) np_load np_float32
              (sampler_obj 3) eq_refl eq_refl)
    as (fd & md & ws & self' & Hrun & Hdrawn & Hlayout).
  - simpl. lia.
  - exists fd, md, ws, self'. split; [exact Hrun|]. split; [exact Hdrawn|].
    destruct (Hlayout 0%nat) as (_ & _ & Hws); [simpl; lia|]. exact Hws.
Defined.
End sampler_instance.

Section optics_instance.
Import OpticsUtils Instances.

Lemma f_ref_evenly_spaced : evenly_spaced f_ref.
Proof.
  exists (Q2Qc 1), (Q2Qc (1 # 2)). split; [by vm_compute|].
  intros k Hk. simpl in Hk.
  do 4 (destruct k as [|k]; [simpl; f_equal; by apply Qc_is_canon|]).
  lia.
Defined.

Lemma floor_idx_in_bounds_witness :
  ∃ indices,
    floor_idx f_any f_ref = inr indices ∧ length indices = 3%nat ∧
    Forall (fun k => (0 <= k < 4)%Z) indices.
Proof.
  destruct (floor_idx_in_bounds f_any f_ref) as [Htotal Hbounds].
  destruct Htotal as [indices Hrun]; [simpl; lia | by vm_compute |].
  destruct (Hbounds indices Hrun) as (_ & Hlen & Hb).
  by exists indices.
Defined.

Lemma floor_idx_is_floor_witness :
  ∃ indices,
    floor_idx f_inside f_ref = inr indices ∧
    indices !! 0%nat = Some 1%Z ∧
    ∀ j r_j, (1 < j)%nat -> f_ref !! j = Some r_j -> (Q2Qc (7 # 4) < r_j)%Qc.
Proof.
  destruct (floor_idx f_inside f_ref) as [e | indices] eqn:Hrun;
    [vm_compute in Hrun; discriminate Hrun|].
  assert (indices !! 0%nat = Some 1%Z) as Hk
    by (vm_compute in Hrun; by injection Hrun as <-).
  destruct (floor_idx_is_floor f_inside f_ref indices 0 (Q2Qc (7 # 4)) 1
              f_ref_evenly_spaced Hrun eq_refl Hk) as [_ Habove].
  { intros r0 r1 [= <-] [= <-]. by vm_compute. }
  by exists indices.
Defined.


Lemma interpolate_between_neighbours_witness :
  ∃ out (w c_lo c_hi : Qc),
    interpolate (vector table)
      [("t", fun _ => create_linear_interpolant f_inside f_ref None)] [] =
      inr out ∧
    (0 <= w)%Qc ∧ (w <= 1)%Qc ∧
    out !! 0%nat = Some ((1 - w) * c_lo + w * c_hi)%Qc.
Proof.
  destruct (interpolate (vector table)
              [("t", fun _ => create_linear_interpolant f_inside f_ref None)]
              []) as [e | out] eqn:Hrun;
    [vm_compute in Hrun; discriminate Hrun|].
  destruct (interpolate_between_neighbours table f_inside f_ref "t" out 0
              (Q2Qc (7 # 4)) f_ref_evenly_spaced Hrun eq_refl)
    as (lo & hi & w & r_lo & r_hi & c_lo & c_hi & _ & _ & _ & _ & _ & Hw0
        & Hw1 & _ & Hout).
  by exists out, w, c_lo, c_hi.
Defined.

Lemma interpolate_linear_table_exact_witness :
  ∃ out,
    interpolate (vector table)
      [("t", fun _ => create_linear_interpolant f_inside f_ref None)] [] =
      inr out ∧
    out !! 0%nat = Some (Q2Qc 2 * Q2Qc (7 # 4) + Q2Qc 3)%Qc.
Proof.
  destruct (interpolate (vector table)
              [("t", fun _ => create_linear_interpolant f_inside f_ref None)]
              []) as [e | out] eqn:Hrun;
    [vm_compute in Hrun; discriminate Hrun|].
  exists out. split; [reflexivity|].
  apply (interpolate_linear_table_exact table f_inside f_ref "t" out
           (Q2Qc 2) (Q2Qc 3) f_ref_evenly_spaced); [|exact Hrun|reflexivity].
  intros k r Hk.
  do 4 (destruct k as [|k];
        [injection Hk as <-; simpl; f_equal; by apply Qc_is_canon|]).
  discriminate Hk.
Defined.
Lemma fill_constant (dims : list nat) (c : Qc) :
  constant_table c (fill dims c).
Proof.
  induction dims as [|n dims IH]; intros index v.
  - destruct index; simpl; [by intros [= ->] | done].
  - destruct index as [|i index]; simpl; [done|].
    case_bool_decide; [|done].
    destruct (replicate n (fill dims c) !! Z.to_nat i) as [slice|] eqn:Hslice;
      [|done].
    apply lookup_replicate in Hslice as [-> _]. apply IH.
Defined.

Lemma interpolate_partition_of_unity_witness :
  ∃ out,
    interpolate (fill [4; 4]%nat (Q2Qc 7))
      [("t", fun _ => create_linear_interpolant f_inside f_ref None);
       ("p", fun d => create_linear_interpolant f_inside f_ref
                        (zeros_like_idx <$> (snd <$> d) !! 0%nat))]
      [] = inr out ∧
    out = replicate 3 (Q2Qc 7).
Proof.
  destruct (interpolate (fill [4; 4]%nat (Q2Qc 7))
              [("t", fun _ => create_linear_interpolant f_inside f_ref None);
               ("p", fun d => create_linear_interpolant f_inside f_ref
                                (zeros_like_idx <$> (snd <$> d) !! 0%nat))]
              []) as [e | out] eqn:Hrun;
    [vm_compute in Hrun; discriminate Hrun|].
  exists out. split; [reflexivity|].
  apply (interpolate_partition_of_unity (Q2Qc 7) (fill [4; 4]%nat (Q2Qc 7)) 3
           [("t", fun _ => create_linear_interpolant f_inside f_ref None);
            ("p", fun d => create_linear_interpolant f_inside f_ref
                             (zeros_like_idx <$> (snd <$> d) !! 0%nat))]);
    [apply fill_constant | | | exact Hrun].
  - simpl. repeat constructor; set_solver.
  - intros fn d interpolant Hfn Hitp.
    assert (∃ offset,
              create_linear_interpolant f_inside f_ref offset =
              inr interpolant) as [offset Hlin].
    { simpl in Hfn. apply elem_of_cons in Hfn as [-> | Hfn]; [by eexists|].
      apply list_elem_of_singleton in Hfn as ->. by eexists. }
    exact (linear_interpolant_normalized f_inside f_ref offset interpolant
             f_ref_evenly_spaced Hlin).
Defined.

Lemma out_of_range_is_refused_witness :
  create_linear_interpolant f_any f_ref None =
    inl (InvalidArgument "At least one value is below the reference range.")
  ∧
  create_linear_interpolant [Q2Qc 2; Q2Qc 40] f_ref None =
    inl (InvalidArgument "At least one value is above the reference range.").
Proof.
  assert (∀ r, r ∈ f_ref ->
            r = Q2Qc 1 ∨ r = Q2Qc (3 # 2) ∨ r = Q2Qc 2 ∨ r = Q2Qc (5 # 2))
    as Href by (intros r Hr; unfold f_ref in Hr; set_solver).
  split.
  - apply (out_of_range_is_refused f_any f_ref None (Q2Qc (- 3))).
    + by left.
    + intros r [-> | [-> | [-> | ->]]]%Href; by vm_compute.
  - apply (out_of_range_is_refused [Q2Qc 2; Q2Qc 40] f_ref None (Q2Qc 40)).
    + right. by left.
    + intros y Hy. exists (Q2Qc 1). split; [by left|].
      apply elem_of_cons in Hy as [-> | Hy]; [by vm_compute|].
      apply list_elem_of_singleton in Hy as ->. by vm_compute.
    + intros r [-> | [-> | [-> | ->]]]%Href; by vm_compute.
Defined.
End optics_instance.
